(** * Co-occurrence word embeddings: counts, PPMI and the SVD projection

    A shallow embedding of the three functions of
    [assignment/classifier/3-Embeddings_SVD_Viz.ipynb]:
    [cooccurrence_matrix], [PPMI] and [SVD]; and of the [sed] and [grep]
    patterns by which [assignment/make_release.sh] picks the lines it
    deletes and the files it touches.

    Modelling choices.
    - A [scipy.sparse] matrix is a shape together with a finite map from
      (row, column) to the stored value; an absent key reads as zero.
    - Python integers are [Z]; a token stream is a [list Z]; slices are
      [take] and [drop].
    - [print] calls are omitted.  Exceptions are a [result] type.
    - The functions are given twice.  The first reading is in exact
      arithmetic: the counts of [cooccurrence_matrix] are integers, the
      [float64] values of [PPMI] and [SVD] are real numbers extended with
      +inf, -inf and NaN, and the coordinate constructor checks the tokens
      themselves.  It carries the properties that do not depend on
      rounding: symmetry, parity, monotonicity, the support of the counts.
    - The second reading, module [Run], follows NumPy and SciPy further:
      the tokens are converted to the integer type of the index arrays
      (64-bit tokens are reduced to 32 bits, larger ones raise
      [OverflowError]), the counts are [float32] numbers and every
      addition rounds, the products of [PPMI] overflow and underflow as
      [float64] does, the division and the logarithm of [PPMI] are any
      pair of functions with the sign behaviour of the IEEE division and
      of [np.log], and [PPMI] raises [ValueError] when the matrix has no
      non-zero entry.  The properties that speak of exact values, of
      errors and of NaN are proved on [Run]. *)

From Stdlib Require Import ZArith List Lia Reals Lra.
From Stdlib Require Import Ascii String.
From stdpp Require Import gmap list fin_maps strings.

(** ** Exceptions *)

Inductive exn : Set :=
| ValueError
| OverflowError.

Inductive result (A : Type) : Type :=
| Ok (a : A)
| Raise (e : exn).
Arguments Ok {A} a.
Arguments Raise {A} e.

Definition bind {A B : Type} (r : result A) (f : A -> result B) : result B :=
  match r with
  | Ok a => f a
  | Raise e => Raise e
  end.

Notation "'try' x := r 'in' k" := (bind r (fun x => k))
  (at level 10, x name, r at level 100, k at level 200).

Definition fails {A : Type} (r : result A) : Prop := exists e, r = Raise e.

(** ** Sparse matrices *)

Module Sparse.

Record matrix (A : Type) : Type := Matrix {
  shape : nat * nat;
  data : gmap (Z * Z) A
}.
Arguments Matrix {A} shape data.
Arguments shape {A} m.
Arguments data {A} m.

(** [csc_matrix((V, V))]: the all-zero matrix of a given shape. *)
Definition zeros {A : Type} (shp : nat * nat) : matrix A :=
  Matrix shp ∅.

(** [M.T] *)
Definition transpose {A : Type} (m : matrix A) : matrix A :=
  Matrix (prod_swap (shape m)) (kmap prod_swap (data m)).

(** The index check of the coordinate constructor: every index is
    non-negative and below the dimension. *)
Definition index_ok (n : nat) (x : Z) : bool :=
  (0 <=? x)%Z && (x <? Z.of_nat n)%Z.

End Sparse.

Import Sparse.

(** *** Integer-valued matrices (the counts) *)

Module Counts.

(** [M[i, j]] *)
Definition entry (m : matrix Z) (i j : Z) : Z :=
  default 0%Z (data m !! (i, j)).

(** Duplicate coordinates are summed when a coordinate list is turned
    into a compressed matrix. *)
Definition sum_duplicates (l : list (Z * Z * Z)) : gmap (Z * Z) Z :=
  foldr (fun pv m => <[pv.1 := (pv.2 + default 0 (m !! pv.1))%Z]> m) ∅ l.

(** [csc_matrix((vals, (rows, cols)), shape=shp)].  The constructor
    raises [ValueError] when the three arrays differ in length or when
    an index is negative or not below the dimension. *)
Definition csc_matrix (vals rows cols : list Z) (shp : nat * nat)
  : result (matrix Z) :=
  if (length rows =? length cols) && (length vals =? length rows)
     && forallb (index_ok shp.1) rows && forallb (index_ok shp.2) cols
  then Ok (Matrix shp (sum_duplicates (zip (zip rows cols) vals)))
  else Raise ValueError.

(** [A + B]: entries are added; a sum that is zero is not stored. *)
Definition add_entry (a b : option Z) : option Z :=
  match a, b with
  | None, None => None
  | _, _ =>
      let s := (default 0 a + default 0 b)%Z in
      if (s =? 0)%Z then None else Some s
  end.

Definition add (a b : matrix Z) : matrix Z :=
  Matrix (shape a) (merge add_entry (data a) (data b)).

(** [np.ones_like(i)] *)
Definition ones_like (i : list Z) : list Z := (fun _ => 1%Z) <$> i.

End Counts.

Import Counts.

(** ** [cooccurrence_matrix] *)

(** [range(1, K+1)] *)
Definition range1 (K : Z) : list nat := seq 1 (Z.to_nat K).

(** The body of the loop, for one offset [k]. *)
Definition cooccurrence_step (token_ids : list Z) (C : matrix Z) (k : nat)
  : result (matrix Z) :=
  let i := take (length token_ids - k) token_ids in   (* token_ids[:-k] *)
  let j := drop k token_ids in                        (* token_ids[k:]  *)
  try Ck_plus := csc_matrix (ones_like i) i j (shape C) in
  let Ck_minus := transpose Ck_plus in
  Ok (add C (add Ck_plus Ck_minus)).

Fixpoint cooccurrence_loop (token_ids : list Z) (C : matrix Z)
  (ks : list nat) : result (matrix Z) :=
  match ks with
  | [] => Ok C
  | k :: ks' =>
      try C' := cooccurrence_step token_ids C k in
      cooccurrence_loop token_ids C' ks'
  end.

Definition cooccurrence_matrix (token_ids : list Z) (V : nat) (K : Z)
  : result (matrix Z) :=
  let C := zeros (V, V) in
  cooccurrence_loop token_ids C (range1 K).

(** ** Floating-point values *)

#[local] Open Scope R_scope.

#[local] Instance R_eq_dec : EqDecision R := Req_dec_T.

Module Float.

(** A [float64]: a real number, or one of the IEEE special values. *)
Inductive float : Type :=
| Finite (r : R)
| PosInf
| NegInf
| NaN.

Definition is_finite (x : float) : Prop :=
  match x with Finite _ => True | _ => False end.

Definition is_nan (x : float) : Prop :=
  match x with NaN => True | _ => False end.

(** [x / y] on finite operands.  NumPy does not raise on a zero divisor:
    it yields an infinity, or NaN for 0/0. *)
Definition np_div (x y : R) : float :=
  if Req_dec_T y 0 then
    if Req_dec_T x 0 then NaN
    else if Rlt_dec 0 x then PosInf else NegInf
  else Finite (x / y).

(** [np.log] *)
Definition np_log (x : float) : float :=
  match x with
  | Finite r =>
      if Rlt_dec 0 r then Finite (ln r)
      else if Req_dec_T r 0 then NegInf else NaN
  | PosInf => PosInf
  | NegInf => NaN
  | NaN => NaN
  end.

(** [np.maximum(a, x)] for a finite scalar [a]; NaN propagates. *)
Definition np_maximum (a : R) (x : float) : float :=
  match x with
  | Finite r => Finite (Rmax a r)
  | PosInf => PosInf
  | NegInf => Finite a
  | NaN => NaN
  end.

(** [x == 0] *)
Definition is_zero (x : float) : bool :=
  match x with
  | Finite r => if Req_dec_T r 0 then true else false
  | _ => false
  end.

(** [0 <= x], false on NaN. *)
Definition nonneg (x : float) : Prop :=
  match x with
  | Finite r => 0 <= r
  | PosInf => True
  | NegInf => False
  | NaN => False
  end.

End Float.

Import Float.

(** [sum] of a list of reals. *)
Definition Rsum (l : list R) : R := foldr Rplus 0 l.

(** ** [PPMI] *)

Module F64.

(** The stored entries as a coordinate list ([C.tocoo()]). *)
Definition tocoo (C : matrix R) : list (Z * Z * R) := map_to_list (data C).

(** [C.sum()] *)
Definition sum (C : matrix R) : R := Rsum ((tocoo C).*2).

(** [C.sum(axis=1)[i]]: the sum of row [i]. *)
Definition sum_axis1 (C : matrix R) (i : Z) : R :=
  Rsum ((filter (fun e => e.1.1 = i) (tocoo C)).*2).

(** [C.sum(axis=0)[j]]: the sum of column [j]. *)
Definition sum_axis0 (C : matrix R) (j : Z) : R :=
  Rsum ((filter (fun e => e.1.2 = j) (tocoo C)).*2).

(** [C.nonzero()]: row and column indices of the entries different from
    zero (stored zeros are masked out). *)
Definition nonzero (C : matrix R) : list Z * list Z :=
  let nz := filter (fun e => e.2 <> 0) (tocoo C) in
  (nz.*1.*1, nz.*1.*2).

(** [C[i, j]] *)
Definition getitem (C : matrix R) (i j : Z) : R :=
  default 0 (data C !! (i, j)).

(** [csc_matrix((vals, (ii, jj)), shape=shp)] for coordinates that are
    pairwise distinct and inside the shape, as those of [nonzero] are:
    the index check passes and no duplicate is summed. *)
Definition csc_matrix (vals : list float) (ii jj : list Z)
  (shp : nat * nat) : matrix float :=
  Matrix shp (list_to_map (zip (zip ii jj) vals)).

(** [M.eliminate_zeros()] *)
Definition eliminate_zeros (M : matrix float) : matrix float :=
  Matrix (shape M) (filter (fun e => is_zero e.2 = false) (data M)).

(** [M[i, j]] of the result, an absent entry being zero. *)
Definition entry (M : matrix float) (i j : Z) : float :=
  default (Finite 0) (data M !! (i, j)).

End F64.

(** The arrays of [PPMI], in the order of the code. *)
Record PPMI_arrays : Type := {
  Ztot : R;                 (* Z *)
  Zc : Z -> R;
  Zr : Z -> R;
  ii : list Z;
  jj : list Z;
  Cij : list R;
  numerator : list R;       (* Cij * Z *)
  denominator : list R;     (* Zr[ii] * Zc[jj] *)
  ratio : list float;       (* Cij * Z / (Zr[ii] * Zc[jj]) *)
  pmi : list float;
  ppmi : list float
}.

Definition PPMI_trace (C : matrix R) : PPMI_arrays :=
  let Z := F64.sum C in
  let Zc := F64.sum_axis0 C in
  let Zr := F64.sum_axis1 C in
  let '(ii, jj) := F64.nonzero C in
  let Cij := zip_with (F64.getitem C) ii jj in
  let numerator := (fun c => c * Z) <$> Cij in
  let denominator := zip_with Rmult (Zr <$> ii) (Zc <$> jj) in
  let ratio := zip_with np_div numerator denominator in
  let pmi := np_log <$> ratio in
  let ppmi := np_maximum 0 <$> pmi in
  {| Ztot := Z; Zc := Zc; Zr := Zr; ii := ii; jj := jj; Cij := Cij;
     numerator := numerator; denominator := denominator; ratio := ratio;
     pmi := pmi; ppmi := ppmi |}.

Definition PPMI (C : matrix R) : matrix float :=
  let t := PPMI_trace C in
  let ret := F64.csc_matrix (ppmi t) (ii t) (jj t) (shape C) in
  F64.eliminate_zeros ret.

(** The counts as [PPMI] reads them: [np.array(..., dtype=np.float64)]. *)
Definition to_float64 (C : matrix Z) : matrix R :=
  Matrix (shape C) (IZR <$> data C).

(** The entries that [PPMI] examines: the stored entries different from
    zero, whose coordinates [nonzero] returns. *)
Definition examined (C : matrix R) : list (Z * Z * R) :=
  filter (fun e => e.2 <> 0) (F64.tocoo C).

(** The value that [PPMI] computes at an examined position [(i, j)] that
    holds [c]. *)
Definition ppmi_at (C : matrix R) (i j : Z) (c : R) : float :=
  np_maximum 0
    (np_log (np_div (c * F64.sum C)
               (F64.sum_axis1 C i * F64.sum_axis0 C j))).

(** A matrix of counts: no stored entry is negative. *)
Definition count_matrix (C : matrix R) : Prop :=
  map_Forall (fun _ c => 0 <= c) (data C).

(** Two words that follow each other once: a 2 x 2 matrix of counts. *)
Definition pair_counts : matrix R :=
  Matrix (2%nat, 2%nat) (<[(0%Z, 1%Z) := 1]> {[(1%Z, 0%Z) := 1]}).

(** A matrix that stores an explicit zero, and nothing else. *)
Definition stored_zero : matrix R :=
  Matrix (2%nat, 2%nat) {[(0%Z, 0%Z) := 0]}.

(** All four pairs of two words seen once: the counts of two independent
    words. *)
Definition uniform_counts : matrix R :=
  Matrix (2%nat, 2%nat)
    (<[(0%Z, 0%Z) := 1]> (<[(0%Z, 1%Z) := 1]>
       (<[(1%Z, 0%Z) := 1]> {[(1%Z, 1%Z) := 1]}))).

(** Not a matrix of counts: two entries of a row cancel, the total is
    zero and so is the marginal of the row. *)
Definition cancelling : matrix R :=
  Matrix (2%nat, 2%nat) (<[(0%Z, 0%Z) := 1]> {[(0%Z, 1%Z) := -1]}).

(** ** [SVD] *)

Module Dense.

(** [np.linalg.norm(Wv, axis=1)[r]]: the Euclidean norm of a row. *)
Definition norm (row : list R) : R :=
  sqrt (Rsum ((fun x => x * x) <$> row)).

(** [Wv / norms.reshape([-1,1])]: every row is divided, entry by entry,
    by the norm at its position. *)
Definition divide_rows (Wv : list (list R)) (norms : list R)
  : list (list float) :=
  zip_with (fun row n => (fun x => np_div x n) <$> row) Wv norms.

(** The real number held by a finite entry. *)
Definition finite_part (x : float) : R :=
  match x with Finite r => r | _ => 0 end.

End Dense.

Import Dense.

(** [sklearn.decomposition.TruncatedSVD(n_components, random_state)] *)
Record TruncatedSVD : Type := {
  n_components : nat;
  random_state : option Z
}.

Section Projection.

(** The input matrix [X], dense or sparse. *)
Variable input : Type.

(** The state of a pseudo-random generator, and the generator seeded
    with an integer ([np.random.RandomState(seed)]). *)
Variable rng : Type.
Variable RandomState : Z -> rng.

(** The factorization routine of the library: from [X], the number of
    components and a generator it returns the transformed matrix
    [U * Sigma], the explained variance of each component, and the
    generator after its draws. *)
Variable randomized_svd :
  input -> nat -> rng -> list (list R) * list R * rng.

(** [transformer.fit_transform(X)], under the process-wide generator
    [global].  With an integer [random_state] a fresh generator is
    seeded for the call and the process-wide one is left alone; with
    [None] the process-wide generator is used and advanced. *)
Definition fit_transform (transformer : TruncatedSVD) (X : input)
  (global : rng) : list (list R) * list R * rng :=
  match random_state transformer with
  | Some seed =>
      let '(Xt, ev, _) :=
        randomized_svd X (n_components transformer) (RandomState seed) in
      (Xt, ev, global)
  | None => randomized_svd X (n_components transformer) global
  end.

Definition SVD (X : input) (d : nat) (global : rng)
  : list (list float) * list R * rng :=
  let transformer := {| n_components := d; random_state := Some 1%Z |} in
  let '(Wv, explained_variance_, global') :=
    fit_transform transformer X global in
  (* Normalize to unit length *)
  let Wv := divide_rows Wv (norm <$> Wv) in
  (Wv, explained_variance_, global').

End Projection.

Arguments fit_transform {input rng} RandomState randomized_svd
  transformer X global.
Arguments SVD {input rng} RandomState randomized_svd X d global.

(** A factorization routine that keeps the first [d] columns of a dense
    input and draws nothing.  On an all-zero matrix this is what every
    truncated SVD returns: [U * Sigma] is zero. *)
Definition first_columns (X : list (list R)) (d : nat) (g : unit)
  : list (list R) * list R * unit :=
  (take d <$> X, replicate d 0, g).

(** The 2 x 2 all-zero matrix. *)
Definition zero_input : list (list R) := [[0; 0]; [0; 0]].

(** ** The counts of the specification *)

#[local] Close Scope R_scope.

(** The number of positions [l] with [token[l] = i] and [token[l+k] = j]. *)
Definition pair_count (tokens : list Z) (k : nat) (i j : Z) : Z :=
  Z.of_nat (length (filter
    (fun l => tokens !! l = Some i /\ tokens !! (l + k)%nat = Some j)
    (seq 0 (length tokens)))).

(** The sum, over the offsets [k] in [1..K], of the pairs counted in each
    direction. *)
Definition window_count (tokens : list Z) (K : Z) (i j : Z) : Z :=
  foldr Z.add 0%Z
    ((fun k => (pair_count tokens k i j + pair_count tokens k j i)%Z)
       <$> range1 K).

(** Every token is a vocabulary index: it lies in [[0, V)]. *)
Definition in_vocabulary (V : nat) (tokens : list Z) : Prop :=
  Forall (fun t => (0 <= t < Z.of_nat V)%Z) tokens.

(** The number of times a coordinate occurs in a coordinate list. *)
Definition occurrences (p : Z * Z) (ps : list (Z * Z)) : Z :=
  Z.of_nat (length (filter (eq p) ps)).

(** The stored coordinates of a matrix are vocabulary indices that occur
    in the stream: no count sits at an index that is not a token. *)
Definition coordinates_from (V : nat) (tokens : list Z) (M : matrix Z)
  : Prop :=
  forall p v, data M !! p = Some v ->
    ((0 <= p.1 < Z.of_nat V)%Z /\ (0 <= p.2 < Z.of_nat V)%Z)
    /\ p.1 ∈ tokens /\ p.2 ∈ tokens.

(** The toy corpus of the notebook, ["<s> nlp class is awesome </s>"] and
    ["<s> nlp class is fun </s>"], with the words numbered <s>=0, </s>=1,
    <unk>=2, nlp=3, class=4, is=5, awesome=6, fun=7. *)
Definition toy_token_ids : list Z :=
  [0; 3; 4; 5; 6; 1; 0; 3; 4; 5; 7; 1]%Z.

(** ** Further notions used by the properties below *)

(** No zero is stored: the matrix is in the form that sparse addition
    leaves it in. *)
Definition no_stored_zero (M : matrix Z) : Prop :=
  forall p v, data M !! p = Some v -> v <> 0%Z.

(** The stored entries of a matrix are mirrored across the diagonal. *)
Definition symmetric (C : matrix R) : Prop :=
  forall i j, data C !! (i, j) = data C !! (j, i).

(** The sum of the stored counts, of the stored counts of a row, and of
    the stored counts of a column. *)
Definition total (C : matrix Z) : Z :=
  foldr Z.add 0%Z (map_to_list (data C)).*2.

Definition row_total (C : matrix Z) (i : Z) : Z :=
  foldr Z.add 0%Z (filter (fun e => e.1.1 = i) (map_to_list (data C))).*2.

Definition col_total (C : matrix Z) (j : Z) : Z :=
  foldr Z.add 0%Z (filter (fun e => e.1.2 = j) (map_to_list (data C))).*2.

(** No stored count is negative. *)
Definition counts (C : matrix Z) : Prop :=
  forall p v, data C !! p = Some v -> (0 <= v)%Z.

(** ** The functions as NumPy and SciPy run them *)

Module Run.

#[local] Open Scope Z_scope.

(** *** Counts in [float32] *)

(** The [float32] nearest to an integer: integers up to 2^24 are kept, a
    larger one is rounded to 24 significant bits, a tie going to the even
    significand.  (Overflow, at 2^128, is out of reach of the sums below:
    an addend of at most 2^25 no longer changes a sum above 2^50.) *)
Definition float32 (z : Z) : Z :=
  let a := Z.abs z in
  if a <=? 2 ^ 24 then z
  else
    let ulp := 2 ^ (Z.log2 a - 23) in
    let q := a / ulp in
    let r := a mod ulp in
    let q' :=
      if 2 * r <? ulp then q
      else if ulp <? 2 * r then q + 1
      else if Z.even q then q else q + 1 in
    Z.sgn z * (q' * ulp).

(** [n] ones added one after the other in [float32]: what is stored for
    a coordinate that is given [n] times. *)
Definition ones_sum (n : nat) : Z :=
  Nat.iter n (fun a => float32 (1 + a)) 0.

(** Duplicate coordinates are summed, in [float32], one value after the
    other (for the equal values of this file the order of the additions
    does not matter). *)
Definition sum_duplicates (l : list (Z * Z * Z)) : gmap (Z * Z) Z :=
  foldr (fun pv m => <[pv.1 := float32 (pv.2 + default 0 (m !! pv.1))]> m)
    ∅ l.

(** *** Index arrays *)

(** A Python integer that fits a C [long]. *)
Definition int64 (t : Z) : bool := (- 2 ^ 63 <=? t) && (t <? 2 ^ 63).

(** The conversion of a C [long] to [int32]: the low 32 bits, signed. *)
Definition int32_wrap (t : Z) : Z := (t + 2 ^ 31) mod 2 ^ 32 - 2 ^ 31.

(** [get_index_dtype(maxval=max(shape))]: the index arrays are [int32]
    when the larger dimension fits, [int64] otherwise. *)
Definition int32_indices (shp : nat * nat) : bool :=
  Z.of_nat (Nat.max shp.1 shp.2) <=? 2 ^ 31 - 1.

(** The index that is stored for a token. *)
Definition stored_index (shp : nat * nat) (t : Z) : Z :=
  if int32_indices shp then int32_wrap t else t.

(** [np.array(l, dtype=idx_dtype)] on a list of Python integers: an
    integer that does not fit a C [long] raises [OverflowError]; the
    others are converted, silently. *)
Definition as_index (shp : nat * nat) (l : list Z) : result (list Z) :=
  if forallb int64 l then Ok (stored_index shp <$> l)
  else Raise OverflowError.

(** [csc_matrix((vals, (rows, cols)), shape=shp, dtype=np.float32)]: the
    two index lists are converted, rows first; then the lengths and the
    range of the converted indices are checked, and [ValueError] is raised
    when the check fails; the values are converted to [float32] and
    duplicates are summed. *)
Definition csc_matrix (vals rows cols : list Z) (shp : nat * nat)
  : result (matrix Z) :=
  try row := as_index shp rows in
  try col := as_index shp cols in
  if (length row =? length col)%nat && (length vals =? length row)%nat
     && forallb (index_ok shp.1) row && forallb (index_ok shp.2) col
  then Ok (Matrix shp
             (sum_duplicates (zip (zip row col) (float32 <$> vals))))
  else Raise ValueError.

(** [A + B] in [float32]: each sum is rounded; a sum that is zero is not
    stored. *)
Definition add_entry (a b : option Z) : option Z :=
  match a, b with
  | None, None => None
  | _, _ =>
      let s := float32 (default 0 a + default 0 b) in
      if s =? 0 then None else Some s
  end.

Definition add (a b : matrix Z) : matrix Z :=
  Matrix (shape a) (merge add_entry (data a) (data b)).

(** *** [cooccurrence_matrix] *)

Definition cooccurrence_step (token_ids : list Z) (C : matrix Z) (k : nat)
  : result (matrix Z) :=
  let i := take (length token_ids - k) token_ids in   (* token_ids[:-k] *)
  let j := drop k token_ids in                        (* token_ids[k:]  *)
  try Ck_plus := csc_matrix (ones_like i) i j (shape C) in
  let Ck_minus := transpose Ck_plus in
  Ok (add C (add Ck_plus Ck_minus)).

Fixpoint cooccurrence_loop (token_ids : list Z) (C : matrix Z)
  (ks : list nat) : result (matrix Z) :=
  match ks with
  | [] => Ok C
  | k :: ks' =>
      try C' := cooccurrence_step token_ids C k in
      cooccurrence_loop token_ids C' ks'
  end.

Definition cooccurrence_matrix (token_ids : list Z) (V : nat) (K : Z)
  : result (matrix Z) :=
  let C := zeros (V, V) in
  cooccurrence_loop token_ids C (range1 K).

#[local] Close Scope Z_scope.
#[local] Open Scope R_scope.

(** *** Products, quotients and logarithms in [float64] *)

(** The range of [float64]: a result whose magnitude reaches
    2^1024 - 2^970 is an infinity, one whose magnitude is at most 2^-1075
    is zero.  Between the two the result is kept: rounding to 53 bits is
    not part of the model. *)
Definition float64 (x : R) : float :=
  if Rle_dec (2 ^ 1024 - 2 ^ 970) (Rabs x) then
    if Rlt_dec 0 x then PosInf else NegInf
  else if Rle_dec (Rabs x) (/ 2 ^ 1075) then Finite 0
  else Finite x.

(** [x * y] *)
Definition np_multiply (x y : R) : float := float64 (x * y).

Section Transform.

(** The quotient [x / y] of two finite numbers, [y] not zero, and the
    logarithm of a positive finite number, as the processor and [np.log]
    compute them. *)
Variable fdiv : R -> R -> float.
Variable flog : R -> R.

(** [a / b].  Division by zero gives an infinity, or NaN for 0/0; so does
    infinity over infinity.  The sign of a zero is not kept. *)
Definition np_divide (a b : float) : float :=
  match a, b with
  | NaN, _ => NaN
  | _, NaN => NaN
  | Finite x, Finite y =>
      if Req_dec_T y 0 then
        if Req_dec_T x 0 then NaN
        else if Rlt_dec 0 x then PosInf else NegInf
      else fdiv x y
  | Finite _, _ => Finite 0
  | PosInf, Finite y => if Rle_dec 0 y then PosInf else NegInf
  | NegInf, Finite y => if Rle_dec 0 y then NegInf else PosInf
  | _, _ => NaN
  end.

(** [np.log] *)
Definition np_log (x : float) : float :=
  match x with
  | Finite r =>
      if Rlt_dec 0 r then Finite (flog r)
      else if Req_dec_T r 0 then NegInf else NaN
  | PosInf => PosInf
  | NegInf => NaN
  | NaN => NaN
  end.

(** *** [PPMI] *)

(** The arrays of [PPMI], in the order of the code.  The three sums are
    taken exactly: this is what the code computes as long as its sums
    are exact, as they are for integer counts whose total is at most 2^24
    in a [float32] matrix. *)
Record PPMI_arrays : Type := {
  Ztot : R;                 (* Z *)
  Zc : Z -> R;
  Zr : Z -> R;
  ii : list Z;
  jj : list Z;
  Cij : list R;
  numerator : list float;   (* Cij * Z *)
  denominator : list float; (* Zr[ii] * Zc[jj] *)
  ratio : list float;       (* Cij * Z / (Zr[ii] * Zc[jj]) *)
  pmi : list float;
  ppmi : list float
}.

Definition PPMI_trace (C : matrix R) : PPMI_arrays :=
  let Z := F64.sum C in
  let Zc := F64.sum_axis0 C in
  let Zr := F64.sum_axis1 C in
  let '(ii, jj) := F64.nonzero C in
  let Cij := zip_with (F64.getitem C) ii jj in
  let numerator := (fun c => np_multiply c Z) <$> Cij in
  let denominator := zip_with np_multiply (Zr <$> ii) (Zc <$> jj) in
  let ratio := zip_with np_divide numerator denominator in
  let pmi := np_log <$> ratio in
  let ppmi := np_maximum 0 <$> pmi in
  {| Ztot := Z; Zc := Zc; Zr := Zr; ii := ii; jj := jj; Cij := Cij;
     numerator := numerator; denominator := denominator; ratio := ratio;
     pmi := pmi; ppmi := ppmi |}.

(** [PPMI(C)].  When [nonzero] selects nothing, [C[ii,jj]] is an empty
    sparse matrix and [np.array(C[ii,jj], dtype=np.float64)] raises
    [ValueError]. *)
Definition PPMI (C : matrix R) : result (matrix float) :=
  let t := PPMI_trace C in
  match ii t with
  | [] => Raise ValueError
  | _ :: _ =>
      let ret := F64.csc_matrix (ppmi t) (ii t) (jj t) (shape C) in
      Ok (F64.eliminate_zeros ret)
  end.

(** The value that [PPMI] computes at an examined position [(i, j)] that
    holds [c]. *)
Definition ppmi_at (C : matrix R) (i j : Z) (c : R) : float :=
  np_maximum 0
    (np_log (np_divide (np_multiply c (F64.sum C))
               (np_multiply (F64.sum_axis1 C i) (F64.sum_axis0 C j)))).

End Transform.

(** What the code needs of the division: on two positive integers below
    2^52, which [float64] holds exactly, the quotient is a finite number
    on the same side of 1 as the exact quotient. *)
Record float64_division (fdiv : R -> R -> float) : Prop := {
  div_same : forall a : Z, (0 < a <= 2 ^ 52)%Z ->
    fdiv (IZR a) (IZR a) = Finite 1;
  div_below : forall a b : Z, (0 < a < b)%Z -> (b <= 2 ^ 52)%Z ->
    exists q, fdiv (IZR a) (IZR b) = Finite q /\ 0 < q < 1;
  div_above : forall a b : Z, (0 < b < a)%Z -> (a <= 2 ^ 52)%Z ->
    exists q, fdiv (IZR a) (IZR b) = Finite q /\ 1 < q
}.

(** And of the logarithm: it is zero at 1, negative below and positive
    above. *)
Record float64_logarithm (flog : R -> R) : Prop := {
  log_one : flog 1 = 0;
  log_below : forall q, 0 < q < 1 -> flog q < 0;
  log_above : forall q, 1 < q -> 0 < flog q
}.

(** The division without rounding. *)
Definition exact_division (x y : R) : float := Finite (x / y).

(** *** [SVD]: the normalization in the range of [float64] *)

(** [a + b] *)
Definition np_add (a b : float) : float :=
  match a, b with
  | NaN, _ => NaN
  | _, NaN => NaN
  | Finite x, Finite y => float64 (x + y)
  | PosInf, NegInf => NaN
  | NegInf, PosInf => NaN
  | PosInf, _ => PosInf
  | _, PosInf => PosInf
  | NegInf, _ => NegInf
  | _, NegInf => NegInf
  end.

(** [np.sqrt] *)
Definition np_sqrt (a : float) : float :=
  match a with
  | Finite x => if Rle_dec 0 x then Finite (sqrt x) else NaN
  | PosInf => PosInf
  | NegInf => NaN
  | NaN => NaN
  end.

(** The quotient in the range of [float64]. *)
Definition range_division (x y : R) : float := float64 (x / y).

(** [np.linalg.norm(Wv, axis=1)[r]], which NumPy computes as
    [sqrt(add.reduce(x * x))]: a square can underflow to zero, and a
    square or the sum can overflow to infinity. *)
Definition norm (row : list R) : float :=
  np_sqrt (foldr np_add (Finite 0) ((fun x => np_multiply x x) <$> row)).

(** [Wv / norms.reshape([-1,1])] *)
Definition divide_rows (Wv : list (list R)) (norms : list float)
  : list (list float) :=
  zip_with
    (fun row n => (fun x => np_divide range_division (Finite x) n) <$> row)
    Wv norms.

Section Projection.

Variable input : Type.
Variable rng : Type.
Variable RandomState : Z -> rng.
Variable randomized_svd :
  input -> nat -> rng -> list (list R) * list R * rng.

(** [X.shape[1]] *)
Variable n_features : input -> nat.

(** [SVD(X, d)].  [fit_transform] raises [ValueError] when more
    components are asked for than [X] has columns. *)
Definition SVD (X : input) (d : nat) (global : rng)
  : result (list (list float) * list R * rng) :=
  let transformer := {| n_components := d; random_state := Some 1%Z |} in
  if (n_features X <? n_components transformer)%nat then Raise ValueError
  else
    let '(Wv, explained_variance_, global') :=
      fit_transform RandomState randomized_svd transformer X global in
    (* Normalize to unit length *)
    let Wv := divide_rows Wv (norm <$> Wv) in
    Ok (Wv, explained_variance_, global').

End Projection.

Arguments SVD {input rng} RandomState randomized_svd n_features X d global.

#[local] Close Scope R_scope.

End Run.

(** A number that is zero or whose magnitude lies between 2^-500 and
    2^500: its square neither underflows nor overflows. *)
Definition moderate (x : R) : Prop :=
  (x = 0 \/ / 2 ^ 500 <= Rabs x <= 2 ^ 500)%R.

(** A factorization routine that returns its dense input, and draws
    nothing; and the number of columns of a dense input. *)
Definition identity_columns (X : list (list R)) (d : nat) (g : unit)
  : list (list R) * list R * unit :=
  (X, replicate d 0%R, g).

Definition row_length (X : list (list R)) : nat :=
  length (default [] (head X)).

(** The value of the entry [(i, j)] that [Run.cooccurrence_matrix] holds
    after the offsets [ks], from the value [c] before them: at each offset
    the forward count and the backward count, each a sum of ones, are
    added to each other and then to the entry, every sum being rounded. *)
Definition rounded_pairs (tokens : list Z) (k : nat) (i j : Z) : Z :=
  Run.float32
    (Run.ones_sum (Z.to_nat (pair_count tokens k i j))
     + Run.ones_sum (Z.to_nat (pair_count tokens k j i)))%Z.

Fixpoint accumulate (tokens : list Z) (i j : Z) (c : Z) (ks : list nat)
  : Z :=
  match ks with
  | [] => c
  | k :: ks' =>
      accumulate tokens i j
        (Run.float32 (c + rounded_pairs tokens k i j)%Z) ks'
  end.

(** The tokens of a stream that the constructor accepts: each fits a C
    [long], and its stored index lies in [[0, V)]. *)
Definition accepted (V : nat) (tokens : list Z) : Prop :=
  Forall (fun t => Run.int64 t = true) tokens
  /\ in_vocabulary V (Run.stored_index (V, V) <$> tokens).

(** [P] stores what [PPMI] computes on [C]: at the positions where [C]
    holds a non-zero value, the value computed there, unless it is
    zero. *)
Definition stores (fdiv : R -> R -> float) (flog : R -> R)
  (C : matrix R) (P : matrix float) : Prop :=
  forall i j v,
    data P !! (i, j) = Some v
    <-> exists c, data C !! (i, j) = Some c /\ c <> 0%R
          /\ v = Run.ppmi_at fdiv flog C i j c /\ is_zero v = false.

(** [[0] * n]: a stream of [n] equal tokens. *)
Definition repeated (n : Z) : list Z := replicate (Z.to_nat n) 0%Z.

(** A 1 x 1 matrix, and the one that holds the count 2^700. *)
Definition single_count (x : R) : matrix R :=
  Matrix (1%nat, 1%nat) {[(0%Z, 0%Z) := x]}.

Definition huge_count : matrix R := single_count (2 ^ 700)%R.

(** The 2 x 2 matrix of counts in which two words follow each other once,
    as integers. *)
Definition pair_counts_Z : matrix Z :=
  Matrix (2%nat, 2%nat) (<[(0%Z, 1%Z) := 1%Z]> {[(1%Z, 0%Z) := 1%Z]}).

(** ** The release script [make_release.sh]: the patterns of [sed] and
    [grep]

    A line of text and a path are lists of characters.  A pattern selects
    a line when some part of the line matches it; a trailing [$] ties the
    match to the end of the line. *)

Module Regex.

Inductive regex : Type :=
| Void
| Eps
| Dot                        (* [.] *)
| Chr (c : ascii)
| Class (cs : list ascii)    (* a bracket expression *)
| Cat (r s : regex)
| Alt (r s : regex)
| Star (r : regex).

(** The words of a regular expression. *)
Inductive lang : regex -> list ascii -> Prop :=
| lang_eps : lang Eps []
| lang_dot c : lang Dot [c]
| lang_chr c : lang (Chr c) [c]
| lang_class c cs : c ∈ cs -> lang (Class cs) [c]
| lang_cat r s u v : lang r u -> lang s v -> lang (Cat r s) (u ++ v)
| lang_alt_l r s u : lang r u -> lang (Alt r s) u
| lang_alt_r r s u : lang s u -> lang (Alt r s) u
| lang_star_nil r : lang (Star r) []
| lang_star_cons r u v : lang r u -> lang (Star r) v -> lang (Star r) (u ++ v).

Fixpoint nullable (r : regex) : bool :=
  match r with
  | Void | Dot | Chr _ | Class _ => false
  | Eps | Star _ => true
  | Cat r s => nullable r && nullable s
  | Alt r s => nullable r || nullable s
  end.

(** What is left of [r] after reading the character [c]. *)
Fixpoint deriv (c : ascii) (r : regex) : regex :=
  match r with
  | Void | Eps => Void
  | Dot => Eps
  | Chr c' => if Ascii.eqb c c' then Eps else Void
  | Class cs => if existsb (Ascii.eqb c) cs then Eps else Void
  | Cat r s =>
      if nullable r then Alt (Cat (deriv c r) s) (deriv c s)
      else Cat (deriv c r) s
  | Alt r s => Alt (deriv c r) (deriv c s)
  | Star r => Cat (deriv c r) (Star r)
  end.

(** The whole of [s] matches [r]. *)
Fixpoint matches (r : regex) (s : list ascii) : bool :=
  match s with
  | [] => nullable r
  | c :: s' => matches (deriv c r) s'
  end.

(** A literal word. *)
Definition lit (w : string) : regex :=
  foldr (fun c r => Cat (Chr c) r) Eps (list_ascii_of_string w).

(** A pattern as [sed] and [grep] take it: a body, and whether it ends in
    [$]. *)
Record pattern : Type := {
  body : regex;
  at_end : bool
}.

(** The pattern selects the line: some part of the line matches the body,
    and that part ends the line if the pattern ends in [$]. *)
Definition search (p : pattern) (line : list ascii) : bool :=
  matches
    (Cat (Star Dot) (Cat (body p) (if at_end p then Eps else Star Dot)))
    line.

End Regex.

Import Regex.

(** The word [w] occurs in [s]. *)
Definition contains (w : string) (s : list ascii) : Prop :=
  exists pre post, s = pre ++ list_ascii_of_string w ++ post.

(** [s] ends with the word [w]. *)
Definition ends_with (w : string) (s : list ascii) : Prop :=
  exists pre, s = pre ++ list_ascii_of_string w.

(** The address of the two [sed] commands: any characters, the marker, then
    any number of characters of the bracket expression (a double quote, a
    comma, a backslash and an [s]). *)
Definition SOLUTION : pattern :=
  {| body :=
       Cat (Star Dot)
         (Cat (lit "#--SOLUTION--")
            (Star (Class [ascii_of_nat 34; ","%char; "\"%char; "s"%char])));
     at_end := false |}.

(** [sed '/.../d']: the lines that the address does not select. *)
Definition sed_d (address : pattern) (lines : list (list ascii))
  : list (list ascii) :=
  filter (fun line => search address line = false) lines.

(** [sed -n '/.../p']: the lines that the address selects. *)
Definition sed_n_p (address : pattern) (lines : list (list ascii))
  : list (list ascii) :=
  filter (fun line => search address line = true) lines.

(** [patterns=( "\\.pyc$" "\\.npy$" ".*-solution.*" )] *)
Definition patterns : list pattern :=
  [ {| body := lit ".pyc"; at_end := true |};
    {| body := lit ".npy"; at_end := true |};
    {| body := Cat (Star Dot) (Cat (lit "-solution") (Star Dot));
       at_end := false |} ].

(** [grep -P ".*py(nb)?$"]: the files whose marked lines are deleted. *)
Definition py_or_ipynb : pattern :=
  {| body := Cat (Star Dot) (Cat (lit "py") (Alt (lit "nb") Eps));
     at_end := true |}.

(** [grep -P ".*ipynb$"]: the files whose output cells are cleared. *)
Definition ipynb : pattern :=
  {| body := Cat (Star Dot) (lit "ipynb"); at_end := true |}.

(** A path that one of the [patterns] selects is removed. *)
Definition removed (fname : list ascii) : bool :=
  existsb (fun pattern => search pattern fname) patterns.

Definition cleaned (fname : list ascii) : bool := search py_or_ipynb fname.

Definition scrubbed (fname : list ascii) : bool := search ipynb fname.

(** * Properties *)

Example toy_nlp_class :
  exists C, cooccurrence_matrix toy_token_ids 8 1 = Ok C
            /\ entry C 3 4 = 2%Z /\ entry C 4 3 = 2%Z.
Proof. eexists. split; [vm_compute; reflexivity|]. split; reflexivity. Qed.

(** ** Sparse matrices of counts *)

Section Count_entries.

#[local] Open Scope Z_scope.

Implicit Types (a b m : matrix Z) (i j : Z).

Lemma entry_zeros shp i j : entry (zeros shp) i j = 0.
Proof. unfold entry, zeros; simpl. by rewrite lookup_empty. Qed.

Lemma entry_transpose m i j : entry (transpose m) i j = entry m j i.
Proof.
  unfold entry, transpose; simpl.
  change (i, j) with (prod_swap (j, i)).
  by rewrite (lookup_kmap prod_swap).
Qed.

Lemma entry_add a b i j : entry (add a b) i j = entry a i j + entry b i j.
Proof.
  unfold entry, add; simpl. rewrite lookup_merge.
  destruct (data a !! (i, j)) as [x|], (data b !! (i, j)) as [y|];
    simpl; try reflexivity;
    match goal with
    | |- context [(?s =? 0)] => destruct (Z.eqb_spec s 0); simpl; lia
    end.
Qed.

Lemma shape_add a b : shape (add a b) = shape a.
Proof. reflexivity. Qed.

(** The stored keys of a sum come from one of the operands. *)
Lemma add_stored a b p v :
  data (add a b) !! p = Some v ->
  is_Some (data a !! p) \/ is_Some (data b !! p).
Proof.
  unfold add; simpl. rewrite lookup_merge.
  destruct (data a !! p), (data b !! p); simpl; eauto.
Qed.

Lemma transpose_stored m p v :
  data (transpose m) !! p = Some v -> data m !! prod_swap p = Some v.
Proof.
  unfold transpose; simpl. rewrite lookup_kmap_Some by apply _.
  intros (q & -> & Hq). by destruct q.
Qed.

End Count_entries.

(** ** Counting coordinate pairs *)

Section Pair_counting.

#[local] Open Scope Z_scope.

Lemma zip_ones (ps : list (Z * Z)) (xs : list Z) :
  length ps = length xs ->
  zip ps (ones_like xs) = (fun p => (p, 1)) <$> ps.
Proof.
  revert xs. induction ps as [|p ps IH]; intros [|x xs] Hlen;
    simpl in *; try discriminate; [reflexivity|].
  f_equal. apply IH. lia.
Qed.

Lemma sum_duplicates_cons (pv : Z * Z * Z) (l : list (Z * Z * Z)) :
  sum_duplicates (pv :: l)
  = <[pv.1 := pv.2 + default 0 (sum_duplicates l !! pv.1)]>
      (sum_duplicates l).
Proof. reflexivity. Qed.

Lemma sum_duplicates_ones (ps : list (Z * Z)) (p : Z * Z) :
  default 0 (sum_duplicates ((fun q => (q, 1)) <$> ps) !! p)
  = occurrences p ps.
Proof.
  unfold occurrences. induction ps as [|q ps IH].
  - simpl. by rewrite lookup_empty.
  - rewrite fmap_cons, sum_duplicates_cons. cbn [fst snd].
    destruct (decide (p = q)) as [->|Hne].
    + rewrite lookup_insert_eq, filter_cons_True by done.
      cbn [length]. simpl default. rewrite IH. lia.
    + rewrite lookup_insert_ne, filter_cons_False by done. exact IH.
Qed.

Lemma sum_duplicates_stored (l : list (Z * Z * Z)) (p : Z * Z) :
  is_Some (sum_duplicates l !! p) -> p ∈ l.*1.
Proof.
  induction l as [|[q v] l IH].
  - simpl. rewrite lookup_empty. by intros [? ?].
  - rewrite sum_duplicates_cons, fmap_cons. cbn [fst snd].
    destruct (decide (q = p)) as [->|Hne]; [left|].
    rewrite lookup_insert_ne by done. right. auto.
Qed.

Lemma filter_none {A : Type} (P : A -> Prop) `{!forall x, Decision (P x)}
  (l : list A) :
  (forall x, ~ P x) -> filter P l = [].
Proof.
  intros HP. induction l as [|x l IH]; [reflexivity|].
  by rewrite filter_cons_False by apply HP.
Qed.

Lemma filter_none' {A : Type} (P : A -> Prop) `{!forall x, Decision (P x)}
  (l : list A) :
  (forall x, x ∈ l -> ~ P x) -> filter P l = [].
Proof.
  induction l as [|x l IH]; intros HP; [reflexivity|].
  rewrite filter_cons_False by (apply HP; left).
  apply IH. intros y Hy. apply HP. by right.
Qed.

Lemma filter_shift (P Q : nat -> Prop)
  `{!forall n, Decision (P n), !forall n, Decision (Q n)} (s : list nat) :
  (forall n, P (S n) <-> Q n) ->
  length (filter P (S <$> s)) = length (filter Q s).
Proof.
  intros HPQ. induction s as [|n s IH]; [reflexivity|].
  rewrite fmap_cons. destruct (decide (Q n)) as [HQ|HQ].
  - rewrite !filter_cons_True by (done || by apply HPQ).
    simpl. by rewrite IH.
  - rewrite !filter_cons_False by (done || by rewrite HPQ). exact IH.
Qed.

(** Occurrences in a zipped list are positions where both lists agree
    with the pair. *)
Lemma occurrences_zip (l1 l2 : list Z) (x y : Z) :
  length (filter (eq (x, y)) (zip l1 l2))
  = length (filter (fun n => l1 !! n = Some x /\ l2 !! n = Some y)
              (seq 0 (length l1))).
Proof.
  revert l2. induction l1 as [|u l1 IH]; intros l2; [reflexivity|].
  cbn [length seq]. rewrite <- fmap_S_seq.
  destruct l2 as [|v l2].
  - simpl zip. rewrite filter_nil.
    rewrite filter_none; [reflexivity|]. intros n [_ ?]. discriminate.
  - simpl zip.
    assert (Htail : length (filter
              (fun n => (u :: l1) !! n = Some x /\ (v :: l2) !! n = Some y)
              (S <$> seq 0 (length l1)))
            = length (filter (eq (x, y)) (zip l1 l2))).
    { rewrite IH. by apply filter_shift. }
    destruct (decide ((x, y) = (u, v))) as [Heq|Hne].
    + injection Heq as -> ->.
      rewrite !filter_cons_True by done. simpl. by rewrite Htail.
    + rewrite !filter_cons_False; [by rewrite Htail| |done].
      simpl. intros [[= ->] [= ->]]. by apply Hne.
Qed.

(** The forward matrix of offset [k] counts the pairs at distance [k]. *)
Lemma occurrences_offset (tokens : list Z) (k : nat) (x y : Z) :
  occurrences (x, y)
    (zip (take (length tokens - k) tokens) (drop k tokens))
  = pair_count tokens k x y.
Proof.
  unfold occurrences, pair_count. f_equal.
  replace (length tokens - k)%nat with (length (drop k tokens))
    by apply length_drop.
  rewrite zip_with_take_l.
  rewrite occurrences_zip. f_equal.
  apply list_filter_iff. intros n. rewrite lookup_drop.
  by replace (k + n)%nat with (n + k)%nat by lia.
Qed.

Lemma index_ok_spec (V : nat) (t : Z) :
  index_ok V t = true <-> 0 <= t < Z.of_nat V.
Proof. unfold index_ok. rewrite andb_true_iff. lia. Qed.

Lemma forallb_index_ok (V : nat) (l : list Z) :
  forallb (index_ok V) l = true <-> in_vocabulary V l.
Proof.
  unfold in_vocabulary. rewrite forallb_forall, Forall_forall.
  split; intros H t Ht.
  - apply index_ok_spec, H. by apply list_elem_of_In.
  - apply index_ok_spec, H. by apply list_elem_of_In.
Qed.

Lemma slices_length (tokens : list Z) (k : nat) :
  length (take (length tokens - k) tokens) = length (drop k tokens).
Proof. rewrite length_take, length_drop. lia. Qed.

(** On vocabulary indices the constructor succeeds, and the forward
    matrix holds the pair counts of the offset. *)
Lemma forward_matrix (tokens : list Z) (V : nat) (k : nat) :
  in_vocabulary V tokens ->
  exists Ck_plus,
    csc_matrix (ones_like (take (length tokens - k) tokens))
      (take (length tokens - k) tokens) (drop k tokens) (V, V)
    = Ok Ck_plus
    /\ shape Ck_plus = (V, V)
    /\ forall x y, entry Ck_plus x y = pair_count tokens k x y.
Proof.
  intros Hv. unfold csc_matrix. simpl fst; simpl snd.
  assert (H1 : forallb (index_ok V) (take (length tokens - k) tokens) = true)
    by (apply forallb_index_ok, Forall_take, Hv).
  assert (H2 : forallb (index_ok V) (drop k tokens) = true)
    by (apply forallb_index_ok, Forall_drop, Hv).
  rewrite H1, H2. unfold ones_like at 1. rewrite length_fmap.
  rewrite slices_length, !Nat.eqb_refl. simpl.
  eexists; split; [reflexivity|]. split; [reflexivity|].
  intros x y. unfold entry; simpl.
  rewrite zip_ones
    by (rewrite length_zip_with, slices_length; lia).
  rewrite sum_duplicates_ones. apply occurrences_offset.
Qed.

End Pair_counting.

(** ** The accumulation loop *)

Section Loop.

#[local] Open Scope Z_scope.

Implicit Types (tokens : list Z) (C : matrix Z) (k : nat) (ks : list nat).

(** What one iteration adds: a forward matrix and its transpose. *)
Lemma step_adds tokens C k C' :
  cooccurrence_step tokens C k = Ok C' ->
  exists F : matrix Z,
    csc_matrix (ones_like (take (length tokens - k) tokens))
      (take (length tokens - k) tokens) (drop k tokens) (shape C) = Ok F
    /\ C' = add C (add F (transpose F)).
Proof.
  unfold cooccurrence_step.
  destruct (csc_matrix _ _ _ _) as [F|e]; simpl; [|discriminate].
  intros [= <-]. by exists F.
Qed.

Lemma step_entry tokens C k C' :
  cooccurrence_step tokens C k = Ok C' ->
  exists F : matrix Z,
    shape C' = shape C
    /\ forall x y, entry C' x y = entry C x y + (entry F x y + entry F y x).
Proof.
  intros (F & _ & ->)%step_adds. exists F. split; [reflexivity|].
  intros x y. by rewrite !entry_add, entry_transpose.
Qed.

Lemma step_vocabulary tokens (V : nat) C k :
  in_vocabulary V tokens -> shape C = (V, V) ->
  exists C', cooccurrence_step tokens C k = Ok C'
    /\ shape C' = (V, V)
    /\ forall x y, entry C' x y
         = entry C x y + (pair_count tokens k x y + pair_count tokens k y x).
Proof.
  intros Hv Hs. destruct (forward_matrix tokens V k Hv) as (F & HF & _ & Hent).
  unfold cooccurrence_step. rewrite Hs, HF. simpl.
  eexists; split; [reflexivity|]. split; [exact Hs|].
  intros x y. by rewrite !entry_add, entry_transpose, !Hent.
Qed.

(** On vocabulary indices the loop returns, and every entry has grown
    by the pair counts of the offsets visited. *)
Lemma loop_entries tokens (V : nat) ks : forall C,
  in_vocabulary V tokens -> shape C = (V, V) ->
  exists C', cooccurrence_loop tokens C ks = Ok C'
    /\ forall x y, entry C' x y
         = entry C x y
           + foldr Z.add 0
               ((fun k => pair_count tokens k x y + pair_count tokens k y x)
                  <$> ks).
Proof.
  induction ks as [|k ks IH]; intros C Hv Hs.
  - exists C. split; [reflexivity|]. intros x y. simpl. lia.
  - destruct (step_vocabulary tokens V C k Hv Hs) as (C1 & HC1 & Hs1 & Hent).
    destruct (IH C1 Hv Hs1) as (C' & HC' & Hent').
    exists C'. split.
    + simpl. rewrite HC1. exact HC'.
    + intros x y. rewrite Hent', Hent, fmap_cons. simpl. lia.
Qed.

(** An invariant of the entries that every iteration keeps is kept by
    the loop. *)
Lemma loop_invariant (P : matrix Z -> Prop) tokens :
  (forall C k C', P C -> cooccurrence_step tokens C k = Ok C' -> P C') ->
  forall ks C C', P C -> cooccurrence_loop tokens C ks = Ok C' -> P C'.
Proof.
  intros Hstep. induction ks as [|k ks IH]; intros C C' HP; simpl.
  - by intros [= <-].
  - destruct (cooccurrence_step tokens C k) as [C1|e] eqn:E; simpl;
      [|discriminate].
    apply IH. by apply (Hstep C k).
Qed.

Lemma loop_symmetric tokens ks C C' :
  (forall x y, entry C x y = entry C y x) ->
  cooccurrence_loop tokens C ks = Ok C' ->
  forall x y, entry C' x y = entry C' y x.
Proof.
  apply (loop_invariant (fun M => forall x y, entry M x y = entry M y x)).
  clear. intros C k C' Hsym (F & _ & Hent)%step_entry x y.
  rewrite !Hent, (Hsym x y). lia.
Qed.

Lemma loop_diagonal_even tokens ks C C' :
  (forall x, Z.Even (entry C x x)) ->
  cooccurrence_loop tokens C ks = Ok C' ->
  forall x, Z.Even (entry C' x x).
Proof.
  apply (loop_invariant (fun M => forall x, Z.Even (entry M x x))).
  clear. intros C k C' Hev (F & _ & Hent)%step_entry x.
  destruct (Hev x) as [h Hh]. exists (h + entry F x x).
  rewrite Hent, Hh. lia.
Qed.

Lemma range1_nonpositive (K : Z) : K <= 0 -> range1 K = [].
Proof. intros HK. unfold range1. by replace (Z.to_nat K) with 0%nat by lia. Qed.

Lemma range1_positive (K : Z) :
  1 <= K -> range1 K = 1%nat :: seq 2 (Z.to_nat K - 1).
Proof.
  intros HK. unfold range1.
  replace (Z.to_nat K) with (S (Z.to_nat K - 1)) at 1 by lia. reflexivity.
Qed.

End Loop.

(** ** Indices outside the vocabulary *)

Section Out_of_vocabulary.

#[local] Open Scope Z_scope.

(** With at least two tokens, the two slices of offset 1 cover the
    stream. *)
Lemma slices_cover (V : nat) (tokens : list Z) :
  (2 <= length tokens)%nat ->
  in_vocabulary V (take (length tokens - 1) tokens) ->
  in_vocabulary V (drop 1 tokens) ->
  in_vocabulary V tokens.
Proof.
  unfold in_vocabulary. rewrite !Forall_lookup. intros Hlen Ht Hd p t Hp.
  destruct (decide (p < length tokens - 1)%nat) as [Hlt|Hge].
  - apply (Ht p). by rewrite lookup_take_lt.
  - apply (Hd (p - 1)%nat). rewrite lookup_drop.
    apply lookup_lt_Some in Hp as Hlt.
    by replace (1 + (p - 1))%nat with p by lia.
Qed.

Lemma step_rejects (V : nat) (tokens : list Z) (C : matrix Z) :
  shape C = (V, V) -> (2 <= length tokens)%nat ->
  ~ in_vocabulary V tokens ->
  cooccurrence_step tokens C 1 = Raise ValueError.
Proof.
  intros Hs Hlen Hbad. unfold cooccurrence_step, csc_matrix.
  rewrite Hs. simpl fst; simpl snd.
  destruct (forallb (index_ok V) (take (length tokens - 1) tokens)) eqn:E1;
    [|by rewrite andb_false_r].
  destruct (forallb (index_ok V) (drop 1 tokens)) eqn:E2;
    [|by rewrite andb_false_r].
  exfalso. apply Hbad, slices_cover; [done| |]; by apply forallb_index_ok.
Qed.

Lemma in_take (x : Z) (n : nat) (l : list Z) : x ∈ take n l -> x ∈ l.
Proof.
  intros [i Hi]%list_elem_of_lookup. apply list_elem_of_lookup.
  exists i. by apply lookup_take_Some in Hi as [? _].
Qed.

Lemma in_drop (x : Z) (n : nat) (l : list Z) : x ∈ drop n l -> x ∈ l.
Proof.
  intros [i Hi]%list_elem_of_lookup. apply list_elem_of_lookup.
  exists (n + i)%nat. by rewrite <- lookup_drop.
Qed.

Lemma forward_coordinates (V : nat) (tokens : list Z) (k : nat)
  (F : matrix Z) :
  csc_matrix (ones_like (take (length tokens - k) tokens))
    (take (length tokens - k) tokens) (drop k tokens) (V, V) = Ok F ->
  coordinates_from V tokens F.
Proof.
  unfold csc_matrix. simpl fst; simpl snd.
  destruct (_ && _) eqn:E; [|discriminate]. intros [= <-] p v Hp. simpl in Hp.
  apply andb_prop in E as [E H2]. apply andb_prop in E as [_ H1].
  apply forallb_index_ok in H1, H2.
  assert (Hin : p ∈ (zip (zip (take (length tokens - k) tokens)
                             (drop k tokens))
                     (ones_like (take (length tokens - k) tokens))).*1)
    by (apply sum_duplicates_stored; eauto).
  apply list_elem_of_fmap in Hin as ([q one] & -> & Hq).
  apply elem_of_zip_l in Hq. destruct q as [x y]. simpl.
  pose proof (elem_of_zip_l _ _ _ _ Hq) as Hx.
  pose proof (elem_of_zip_r _ _ _ _ Hq) as Hy.
  unfold in_vocabulary in H1, H2. rewrite Forall_forall in H1, H2.
  repeat split; try apply (H1 x Hx); try apply (H2 y Hy).
  - eapply in_take; eauto.
  - eapply in_drop; eauto.
Qed.

Lemma step_coordinates (V : nat) (tokens : list Z) C k C' :
  shape C = (V, V) /\ coordinates_from V tokens C ->
  cooccurrence_step tokens C k = Ok C' ->
  shape C' = (V, V) /\ coordinates_from V tokens C'.
Proof.
  intros [Hs HC] (F & HF & ->)%step_adds. split; [exact Hs|].
  rewrite Hs in HF. apply forward_coordinates in HF.
  intros p v [Hp|Hp]%add_stored.
  - destruct Hp as [w Hw]. exact (HC p w Hw).
  - destruct Hp as [w [Hw|Hw]%add_stored].
    + destruct Hw as [u Hu]. exact (HF p u Hu).
    + destruct Hw as [u Hu%transpose_stored].
      destruct (HF _ _ Hu) as ((? & ?) & ? & ?). destruct p; simpl in *.
      tauto.
Qed.

End Out_of_vocabulary.


(** ** The counts are not negative *)

Section Nonnegative_counts.

#[local] Open Scope Z_scope.

Lemma forward_nonneg (vals rows : list Z) (cols : list Z) shp (F : matrix Z) :
  vals = ones_like rows ->
  csc_matrix vals rows cols shp = Ok F ->
  forall x y, 0 <= entry F x y.
Proof.
  intros -> HF x y. unfold csc_matrix in HF.
  destruct (_ && _) eqn:E; [|discriminate]. injection HF as <-.
  apply andb_prop in E as [E _]. apply andb_prop in E as [E _].
  apply andb_prop in E as [E _]. apply Nat.eqb_eq in E.
  unfold entry. cbn [data].
  rewrite zip_ones by (rewrite length_zip_with; lia).
  rewrite sum_duplicates_ones. unfold occurrences. lia.
Qed.

Lemma loop_nonneg tokens ks C C' :
  (forall x y, 0 <= entry C x y) ->
  cooccurrence_loop tokens C ks = Ok C' ->
  forall x y, 0 <= entry C' x y.
Proof.
  apply (loop_invariant (fun M => forall x y, 0 <= entry M x y)).
  clear. intros C k C' Hpos (F & HF & ->)%step_adds x y.
  pose proof (forward_nonneg _ _ _ _ F eq_refl HF) as HFpos.
  rewrite !entry_add, entry_transpose.
  specialize (Hpos x y). pose proof (HFpos x y). pose proof (HFpos y x). lia.
Qed.

(** What [cooccurrence_matrix] returns is a matrix of counts. *)
Lemma cooccurrence_count_matrix (tokens : list Z) (V : nat) (K : Z)
  (C : matrix Z) :
  cooccurrence_matrix tokens V K = Ok C -> count_matrix (to_float64 C).
Proof.
  intros HC [i j] c Hc. unfold to_float64 in Hc. cbn [data] in Hc.
  rewrite lookup_fmap in Hc.
  destruct (data C !! (i, j)) as [z|] eqn:Hz; [|discriminate].
  injection Hc as <-. apply IZR_le.
  assert (Hpos : forall x y, 0 <= entry C x y).
  { apply (loop_nonneg tokens (range1 K) (zeros (V, V))); [|exact HC].
    intros x y. by rewrite entry_zeros. }
  specialize (Hpos i j). unfold entry in Hpos. by rewrite Hz in Hpos.
Qed.

End Nonnegative_counts.

(** ** Sums of non-negative reals *)

Section Real_sums.

#[local] Open Scope R_scope.

Lemma Rsum_nonneg (l : list R) : Forall (Rle 0) l -> 0 <= Rsum l.
Proof.
  induction 1 as [|x l Hx _ IH]; simpl; [lra|]. lra.
Qed.

Lemma Rsum_bounds (l : list R) (x : R) :
  Forall (Rle 0) l -> x ∈ l -> x <= Rsum l.
Proof.
  intros Hl Hx. induction Hl as [|y l Hy Hl IH]; simpl.
  - by apply elem_of_nil in Hx.
  - pose proof (Rsum_nonneg l Hl).
    apply elem_of_cons in Hx as [->|Hx]; [lra|]. specialize (IH Hx). lra.
Qed.

Lemma Rsum_zero (l : list R) :
  Forall (Rle 0) l -> Rsum l = 0 -> Forall (eq 0) l.
Proof.
  induction 1 as [|x l Hx Hl IH]; simpl; intros Hs; [constructor|].
  pose proof (Rsum_nonneg l Hl).
  constructor; [lra|]. apply IH. lra.
Qed.

End Real_sums.

(** ** Marginals of a matrix of counts *)

Section Marginals.

#[local] Open Scope R_scope.

Implicit Types (C : matrix R) (i j : Z) (c : R).

Lemma tocoo_stored C i j c :
  (i, j, c) ∈ F64.tocoo C <-> data C !! (i, j) = Some c.
Proof. unfold F64.tocoo. apply elem_of_map_to_list. Qed.

Lemma tocoo_nonneg C (P : Z * Z * R -> Prop) `{!forall e, Decision (P e)} :
  count_matrix C -> Forall (Rle 0) (filter P (F64.tocoo C)).*2.
Proof.
  intros HC. apply Forall_fmap, Forall_forall. intros [[i j] c] He.
  apply list_elem_of_filter in He as [_ He]. apply tocoo_stored in He.
  exact (HC _ _ He).
Qed.

Lemma sum_all C : F64.sum C = Rsum (filter (fun _ => True) (F64.tocoo C)).*2.
Proof.
  unfold F64.sum. f_equal. f_equal. symmetry.
  induction (F64.tocoo C) as [|e l IH]; [reflexivity|].
  by rewrite filter_cons_True, IH by done.
Qed.

(** A stored count is bounded by its row sum, its column sum and the
    total. *)
Lemma marginal_bounds C i j c :
  count_matrix C -> data C !! (i, j) = Some c ->
  c <= F64.sum_axis1 C i /\ c <= F64.sum_axis0 C j /\ c <= F64.sum C.
Proof.
  intros HC Hc. apply tocoo_stored in Hc.
  assert (Hin : forall (P : Z * Z * R -> Prop) `{!forall e, Decision (P e)},
             P (i, j, c) -> c <= Rsum (filter P (F64.tocoo C)).*2).
  { intros P ? HP. apply Rsum_bounds; [by apply tocoo_nonneg|].
    apply list_elem_of_fmap. exists (i, j, c). split; [reflexivity|].
    by apply list_elem_of_filter. }
  rewrite sum_all. unfold F64.sum_axis1, F64.sum_axis0.
  repeat split; by apply Hin.
Qed.

Lemma count_positive C i j c :
  count_matrix C -> data C !! (i, j) = Some c -> c <> 0 ->
  0 < c /\ 0 < F64.sum_axis1 C i /\ 0 < F64.sum_axis0 C j /\ 0 < F64.sum C.
Proof.
  intros HC Hc Hne. pose proof (HC _ _ Hc) as H0. simpl in H0.
  destruct (marginal_bounds C i j c HC Hc) as (? & ? & ?).
  repeat split; lra.
Qed.

(** A matrix of counts with no mass stores only zeros. *)
Lemma massless_counts C :
  count_matrix C -> F64.sum C = 0 ->
  filter (fun e => e.2 <> 0) (F64.tocoo C) = [].
Proof.
  intros HC HZ. apply filter_none'. intros [[i j] c] He Hne. simpl in Hne.
  apply tocoo_stored in He.
  destruct (count_positive C i j c HC He Hne) as (_ & _ & _ & ?). lra.
Qed.

End Marginals.

(** ** The arrays of [PPMI] *)

Section PPMI_arrays.

#[local] Open Scope R_scope.

Implicit Types (C : matrix R) (i j : Z) (c : R) (nz : list (Z * Z * R)).

Lemma examined_spec C i j c :
  (i, j, c) ∈ examined C <-> data C !! (i, j) = Some c /\ c <> 0.
Proof.
  unfold examined. rewrite list_elem_of_filter, tocoo_stored. simpl. tauto.
Qed.

Lemma examined_NoDup C : NoDup (examined C).*1.
Proof.
  unfold examined, F64.tocoo.
  eapply sublist_NoDup; [apply (NoDup_fst_map_to_list (data C))|].
  apply fmap_sublist, sublist_filter.
Qed.

Lemma getitem_examined C nz :
  Forall (fun e => data C !! e.1 = Some e.2) nz ->
  zip_with (F64.getitem C) nz.*1.*1 nz.*1.*2 = nz.*2.
Proof.
  induction 1 as [|[[i j] c] nz He _ IH]; [reflexivity|].
  simpl in *. unfold F64.getitem at 1. rewrite He. simpl. by f_equal.
Qed.

Lemma denominator_map C nz :
  zip_with Rmult (F64.sum_axis1 C <$> nz.*1.*1) (F64.sum_axis0 C <$> nz.*1.*2)
  = (fun e => F64.sum_axis1 C e.1.1 * F64.sum_axis0 C e.1.2) <$> nz.
Proof. induction nz as [|e nz IH]; [reflexivity|]. simpl. by f_equal. Qed.

Lemma ratio_map C nz :
  zip_with np_div ((fun c => c * F64.sum C) <$> nz.*2)
    ((fun e => F64.sum_axis1 C e.1.1 * F64.sum_axis0 C e.1.2) <$> nz)
  = (fun e => np_div (e.2 * F64.sum C)
                (F64.sum_axis1 C e.1.1 * F64.sum_axis0 C e.1.2)) <$> nz.
Proof. induction nz as [|e nz IH]; [reflexivity|]. simpl. by f_equal. Qed.

Lemma examined_lookup C :
  Forall (fun e => data C !! e.1 = Some e.2) (examined C).
Proof.
  apply Forall_forall. intros [[i j] c] He.
  by apply examined_spec in He as [? _].
Qed.

(** The arrays, as maps over the examined entries. *)
Lemma trace_indices C :
  ii (PPMI_trace C) = (examined C).*1.*1
  /\ jj (PPMI_trace C) = (examined C).*1.*2.
Proof. by split. Qed.

Lemma trace_Cij C : Cij (PPMI_trace C) = (examined C).*2.
Proof. apply getitem_examined, examined_lookup. Qed.

Lemma trace_denominator C :
  denominator (PPMI_trace C)
  = (fun e => F64.sum_axis1 C e.1.1 * F64.sum_axis0 C e.1.2) <$> examined C.
Proof. apply denominator_map. Qed.

Lemma trace_ratio C :
  ratio (PPMI_trace C)
  = (fun e => np_div (e.2 * F64.sum C)
                (F64.sum_axis1 C e.1.1 * F64.sum_axis0 C e.1.2))
      <$> examined C.
Proof.
  change (ratio (PPMI_trace C))
    with (zip_with np_div ((fun c => c * F64.sum C) <$> Cij (PPMI_trace C))
            (denominator (PPMI_trace C))).
  rewrite trace_Cij, trace_denominator. apply ratio_map.
Qed.

Lemma trace_pmi C : pmi (PPMI_trace C) = np_log <$> ratio (PPMI_trace C).
Proof. reflexivity. Qed.

Lemma trace_ppmi C :
  ppmi (PPMI_trace C) = (fun e => ppmi_at C e.1.1 e.1.2 e.2) <$> examined C.
Proof.
  change (ppmi (PPMI_trace C))
    with (np_maximum 0 <$> (np_log <$> ratio (PPMI_trace C))).
  rewrite trace_ratio, <- !list_fmap_compose. reflexivity.
Qed.

Lemma PPMI_data C :
  data (PPMI C)
  = filter (fun e => is_zero e.2 = false)
      (list_to_map ((fun e => (e.1, ppmi_at C e.1.1 e.1.2 e.2)) <$> examined C)
         : gmap (Z * Z) float).
Proof.
  unfold PPMI, F64.eliminate_zeros, F64.csc_matrix. cbn [data].
  destruct (trace_indices C) as [-> ->]. rewrite trace_ppmi.
  f_equal. f_equal. rewrite zip_fst_snd.
  induction (examined C) as [|e nz IH]; [reflexivity|]. simpl. by f_equal.
Qed.

(** The stored entries of the result. *)
Lemma PPMI_stored C i j v :
  data (PPMI C) !! (i, j) = Some v
  <-> exists c, data C !! (i, j) = Some c /\ c <> 0
        /\ v = ppmi_at C i j c /\ is_zero v = false.
Proof.
  rewrite PPMI_data, map_lookup_filter_Some. simpl.
  rewrite <- elem_of_list_to_map.
  - rewrite list_elem_of_fmap. split.
    + intros [([[i' j'] c] & [= <- <- ->] & He) Hz].
      apply examined_spec in He as [? ?]. by exists c.
    + intros (c & Hc & Hne & -> & Hz). split; [|exact Hz].
      exists (i, j, c). split; [reflexivity|]. by apply examined_spec.
  - rewrite <- list_fmap_compose.
    apply examined_NoDup.
Qed.

End PPMI_arrays.

(** ** The value at an examined position *)

Section PPMI_values.

#[local] Open Scope R_scope.

Implicit Types (C : matrix R) (i j : Z) (c : R).

Lemma np_div_nonzero (x y : R) : y <> 0 -> np_div x y = Finite (x / y).
Proof. intros Hy. unfold np_div. by destruct (Req_dec_T y 0). Qed.

Lemma np_log_positive (r : R) : 0 < r -> np_log (Finite r) = Finite (ln r).
Proof. intros Hr. unfold np_log. by destruct (Rlt_dec 0 r). Qed.

Lemma is_zero_spec (x : float) : is_zero x = true <-> x = Finite 0.
Proof.
  destruct x as [r| | |]; simpl; try (split; discriminate).
  destruct (Req_dec_T r 0) as [->|Hne]; split; try done.
  intros [= ->]. by destruct Hne.
Qed.

(** On a matrix of counts the quotient under the logarithm is a positive
    real, and the value is [max(0, log(c * Z / (Zr[i] * Zc[j])))]. *)
Lemma ratio_positive C i j c :
  count_matrix C -> data C !! (i, j) = Some c -> c <> 0 ->
  F64.sum_axis1 C i * F64.sum_axis0 C j <> 0
  /\ 0 < c * F64.sum C / (F64.sum_axis1 C i * F64.sum_axis0 C j)
  /\ np_div (c * F64.sum C) (F64.sum_axis1 C i * F64.sum_axis0 C j)
     = Finite (c * F64.sum C / (F64.sum_axis1 C i * F64.sum_axis0 C j)).
Proof.
  intros HC Hc Hne.
  destruct (count_positive C i j c HC Hc Hne) as (H0 & Hr & Hcol & HZ).
  assert (Hd : 0 < F64.sum_axis1 C i * F64.sum_axis0 C j)
    by (by apply Rmult_lt_0_compat).
  assert (Hn : 0 < c * F64.sum C) by (by apply Rmult_lt_0_compat).
  split; [lra|]. split; [by apply Rdiv_lt_0_compat|].
  apply np_div_nonzero. lra.
Qed.

Lemma ppmi_at_counts C i j c :
  count_matrix C -> data C !! (i, j) = Some c -> c <> 0 ->
  ppmi_at C i j c
  = Finite (Rmax 0 (ln (c * F64.sum C
                        / (F64.sum_axis1 C i * F64.sum_axis0 C j)))).
Proof.
  intros HC Hc Hne.
  destruct (ratio_positive C i j c HC Hc Hne) as (_ & Hpos & Hdiv).
  unfold ppmi_at. by rewrite Hdiv, np_log_positive.
Qed.

(** The entry of the result at a position that stores a non-zero count:
    the value if it is not zero, and nothing if it is. *)
Lemma PPMI_entry_examined C i j c :
  data C !! (i, j) = Some c -> c <> 0 ->
  F64.entry (PPMI C) i j = ppmi_at C i j c
  /\ (ppmi_at C i j c = Finite 0 -> data (PPMI C) !! (i, j) = None).
Proof.
  intros Hc Hne. unfold F64.entry.
  destruct (is_zero (ppmi_at C i j c)) eqn:Hz.
  - assert (Hnone : data (PPMI C) !! (i, j) = None).
    { apply eq_None_not_Some. intros [v Hv].
      apply PPMI_stored in Hv as (c' & Hc' & _ & -> & Hz').
      rewrite Hc in Hc'. injection Hc' as <-. congruence. }
    rewrite Hnone. simpl. apply is_zero_spec in Hz. by rewrite Hz.
  - assert (Hsome : data (PPMI C) !! (i, j) = Some (ppmi_at C i j c))
      by (apply PPMI_stored; by exists c).
    rewrite Hsome. split; [reflexivity|].
    intros H0. apply is_zero_spec in H0. congruence.
Qed.

(** A position that holds zero, stored or not, is absent from the
    result. *)
Lemma PPMI_entry_zero C i j :
  F64.getitem C i j = 0 -> data (PPMI C) !! (i, j) = None.
Proof.
  unfold F64.getitem. intros H0. apply eq_None_not_Some. intros [v Hv].
  apply PPMI_stored in Hv as (c & Hc & Hne & _). rewrite Hc in H0.
  by apply Hne.
Qed.

Lemma pair_counts_count_matrix : count_matrix pair_counts.
Proof.
  intros p c Hp. simpl in Hp.
  apply lookup_insert_Some in Hp as [[_ <-]|[_ Hp]]; [lra|].
  apply lookup_singleton_Some in Hp as [_ <-]. lra.
Qed.

Lemma stored_zero_count_matrix : count_matrix stored_zero.
Proof.
  intros p c Hp. simpl in Hp.
  apply lookup_singleton_Some in Hp as [_ <-]. lra.
Qed.

Lemma stored_zero_sum : F64.sum stored_zero = 0.
Proof.
  unfold F64.sum, F64.tocoo, stored_zero. cbn [data].
  rewrite map_to_list_singleton. simpl. lra.
Qed.

End PPMI_values.

(** ** Examples of the transform *)

Section PPMI_examples.

#[local] Open Scope R_scope.

(** Evaluate the coordinate list of a concrete matrix. *)
Ltac eval_tocoo :=
  unfold F64.sum, F64.sum_axis0, F64.sum_axis1, F64.tocoo;
  cbn [data pair_counts uniform_counts cancelling stored_zero];
  match goal with
  | |- context [map_to_list ?m] =>
      let l := eval vm_compute in (map_to_list m) in
      change (map_to_list m) with l
  end.

Lemma pair_counts_sums :
  F64.sum pair_counts = 2
  /\ F64.sum_axis1 pair_counts 0 = 1 /\ F64.sum_axis0 pair_counts 1 = 1.
Proof.
  split; [|split]; eval_tocoo.
  - simpl. lra.
  - rewrite filter_cons_True, filter_cons_False by (simpl; lia).
    simpl. lra.
  - rewrite filter_cons_True, filter_cons_False by (simpl; lia).
    simpl. lra.
Qed.

(** The two words of [pair_counts] are associated: PMI is [log 2]. *)
Example PPMI_pair_counts :
  F64.entry (PPMI pair_counts) 0 1 = Finite (ln 2)
  /\ F64.entry (PPMI pair_counts) 0 0 = Finite 0.
Proof.
  destruct pair_counts_sums as (HZ & Hr & Hc). split.
  - pose proof (ppmi_at_counts pair_counts 0 1 1 pair_counts_count_matrix)
      as Hat.
    destruct (PPMI_entry_examined pair_counts 0 1 1) as [-> _];
      [reflexivity | lra |].
    rewrite Hat by (reflexivity || lra). rewrite HZ, Hr, Hc. f_equal.
    replace (1 * 2 / (1 * 1)) with 2 by lra.
    apply Rmax_right. rewrite <- ln_1. left. apply ln_increasing; lra.
  - unfold F64.entry. by rewrite PPMI_entry_zero.
Qed.

Lemma uniform_counts_count_matrix : count_matrix uniform_counts.
Proof.
  intros p c Hp. simpl in Hp.
  repeat (apply lookup_insert_Some in Hp as [[_ <-]|[_ Hp]]; [lra|]).
  apply lookup_singleton_Some in Hp as [_ <-]. lra.
Qed.

Lemma uniform_counts_sums :
  F64.sum uniform_counts = 4
  /\ F64.sum_axis1 uniform_counts 0 = 2 /\ F64.sum_axis0 uniform_counts 0 = 2.
Proof.
  split; [|split]; eval_tocoo.
  - simpl. lra.
  - repeat (rewrite filter_cons_True by (simpl; lia)
            || rewrite filter_cons_False by (simpl; lia)).
    simpl. lra.
  - repeat (rewrite filter_cons_True by (simpl; lia)
            || rewrite filter_cons_False by (simpl; lia)).
    simpl. lra.
Qed.

(** Without the sign condition a massless matrix is not mapped to zero:
    the quotient is 0/0. *)
Lemma cancelling_sums :
  F64.sum cancelling = 0 /\ F64.sum_axis1 cancelling 0 = 0.
Proof.
  split; eval_tocoo.
  - simpl. lra.
  - rewrite !filter_cons_True by (simpl; lia). simpl. lra.
Qed.

Example PPMI_cancelling_nan :
  F64.sum cancelling = 0 /\ F64.entry (PPMI cancelling) 0 0 = NaN.
Proof.
  destruct cancelling_sums as [HZ Hr]. split; [exact HZ|].
  destruct (PPMI_entry_examined cancelling 0 0 1) as [-> _];
    [reflexivity | lra |].
  unfold ppmi_at. rewrite HZ, Hr. unfold np_div.
  destruct (Req_dec_T (0 * F64.sum_axis0 cancelling 0) 0) as [_|Hne];
    [|destruct Hne; lra].
  destruct (Req_dec_T (1 * 0) 0) as [_|Hne]; [reflexivity|].
  destruct Hne; lra.
Qed.

End PPMI_examples.

Section PPMI_independence.

#[local] Open Scope R_scope.

(** Independent words: [c * Z = Zr * Zc], PMI is [log 1 = 0] and the entry
    is dropped. *)
Example PPMI_uniform_counts :
  data (PPMI uniform_counts) !! (0%Z, 0%Z) = None
  /\ F64.entry (PPMI uniform_counts) 0 0 = Finite 0.
Proof.
  destruct uniform_counts_sums as (HZ & Hr & Hc).
  assert (Hat : ppmi_at uniform_counts 0 0 1 = Finite 0).
  { rewrite (ppmi_at_counts uniform_counts 0 0 1 uniform_counts_count_matrix)
      by (reflexivity || lra).
    rewrite HZ, Hr, Hc. f_equal.
    replace (1 * 4 / (2 * 2)) with 1 by lra.
    rewrite ln_1. apply Rmax_left. lra. }
  destruct (PPMI_entry_examined uniform_counts 0 0 1) as [Hent Habs];
    [reflexivity | lra |].
  split; [by apply Habs|]. by rewrite Hent.
Qed.

End PPMI_independence.

(** ** Row normalization *)

Section Normalization.

#[local] Open Scope R_scope.

Implicit Types (row : list R) (Wv : list (list R)).

Lemma squares_nonneg row : Forall (Rle 0) ((fun x => x * x) <$> row).
Proof. apply Forall_fmap, Forall_forall. intros x _. simpl. nra. Qed.

Lemma norm_nonneg row : 0 <= norm row.
Proof. apply sqrt_pos. Qed.

(** A row of norm zero is a row of zeros. *)
Lemma norm_zero row : norm row = 0 -> Forall (eq 0) row.
Proof.
  unfold norm. intros H0.
  apply sqrt_eq_0 in H0; [|apply Rsum_nonneg, squares_nonneg].
  apply Rsum_zero in H0; [|apply squares_nonneg].
  rewrite Forall_fmap in H0. eapply Forall_impl; [exact H0|].
  simpl. intros x Hx. nra.
Qed.

Lemma Rsum_scaled row (n : R) :
  n <> 0 ->
  Rsum ((fun x => x * x) <$> ((fun x => x / n) <$> row))
  = Rsum ((fun x => x * x) <$> row) / (n * n).
Proof.
  intros Hn. induction row as [|x row IH].
  - simpl. unfold Rdiv. by rewrite Rmult_0_l.
  - rewrite !fmap_cons. unfold Rsum in *. cbn [foldr]. rewrite IH.
    by field.
Qed.

(** Dividing a row by its non-zero norm gives a row of norm 1. *)
Lemma norm_scaled row :
  norm row <> 0 -> norm ((fun x => x / norm row) <$> row) = 1.
Proof.
  intros Hn. unfold norm at 1. rewrite Rsum_scaled by exact Hn.
  replace (Rsum ((fun x => x * x) <$> row)) with (norm row * norm row)
    by (apply sqrt_sqrt, Rsum_nonneg, squares_nonneg).
  replace (norm row * norm row / (norm row * norm row)) with 1
    by (by field).
  apply sqrt_1.
Qed.

Lemma divide_rows_lookup Wv (r : nat) :
  divide_rows Wv (norm <$> Wv) !! r
  = (fun row => (fun x => np_div x (norm row)) <$> row) <$> Wv !! r.
Proof.
  unfold divide_rows. rewrite zip_with_fmap_r, zip_with_diag.
  apply list_lookup_fmap.
Qed.

Lemma divide_row_nonzero row :
  norm row <> 0 ->
  (fun x => np_div x (norm row)) <$> row
  = (fun x => Finite (x / norm row)) <$> row.
Proof.
  intros Hn. apply list_fmap_ext. intros _ x _. by apply np_div_nonzero.
Qed.

Lemma divide_row_zero row :
  norm row = 0 ->
  (fun x => np_div x (norm row)) <$> row = (fun _ => NaN) <$> row.
Proof.
  intros Hn. pose proof (norm_zero row Hn) as Hz. rewrite Hn. clear Hn.
  induction Hz as [|x row <- _ IH]; [reflexivity|].
  rewrite !fmap_cons. f_equal; [|exact IH].
  unfold np_div. by destruct (Req_dec_T 0 0).
Qed.

End Normalization.

(** * The co-occurrence matrix *)

Section Cooccurrence_claims.

#[local] Open Scope Z_scope.

Lemma toy_in_vocabulary : in_vocabulary 8 toy_token_ids.
Proof. apply forallb_index_ok. reflexivity. Qed.

(** C2.  For a token stream whose values lie in [[0, V)] and a window
    [K >= 1], the matrix returned by [cooccurrence_matrix] is symmetric:
    [C[i,j] = C[j,i]] for every pair of indices. *)
Theorem cooccurrence_matrix_symmetric (token_ids : list Z) (V : nat) (K : Z) :
  in_vocabulary V token_ids -> 1 <= K ->
  exists C, cooccurrence_matrix token_ids V K = Ok C
    /\ forall i j, entry C i j = entry C j i.
Proof.
  intros Hv _. unfold cooccurrence_matrix.
  destruct (loop_entries token_ids V (range1 K) (zeros (V, V)) Hv eq_refl)
    as (C & HC & _).
  exists C. split; [exact HC|].
  apply (loop_symmetric token_ids (range1 K) (zeros (V, V))); [|exact HC].
  intros x y. by rewrite !entry_zeros.
Qed.

Lemma cooccurrence_matrix_symmetric_witness :
  in_vocabulary 8 toy_token_ids /\ 1 <= 2
  /\ exists C, cooccurrence_matrix toy_token_ids 8 2 = Ok C
       /\ forall i j, entry C i j = entry C j i.
Proof.
  split; [exact toy_in_vocabulary|]. split; [lia|].
  apply (cooccurrence_matrix_symmetric toy_token_ids 8 2);
    [exact toy_in_vocabulary | lia].
Defined.

(** C10.  For a token stream whose values lie in [[0, V)] and a window
    [K >= 1], every diagonal entry [C[i,i]] of the matrix returned by
    [cooccurrence_matrix] is even: a self co-occurrence is added once by
    the forward matrix and once by its transpose. *)
Theorem cooccurrence_matrix_diagonal_even
  (token_ids : list Z) (V : nat) (K : Z) :
  in_vocabulary V token_ids -> 1 <= K ->
  exists C, cooccurrence_matrix token_ids V K = Ok C
    /\ forall i, Z.Even (entry C i i).
Proof.
  intros Hv _. unfold cooccurrence_matrix.
  destruct (loop_entries token_ids V (range1 K) (zeros (V, V)) Hv eq_refl)
    as (C & HC & _).
  exists C. split; [exact HC|].
  apply (loop_diagonal_even token_ids (range1 K) (zeros (V, V))); [|exact HC].
  intros x. exists 0. by rewrite entry_zeros.
Qed.

Lemma cooccurrence_matrix_diagonal_even_witness :
  in_vocabulary 2 [1; 1; 0; 1] /\ 1 <= 2
  /\ exists C, cooccurrence_matrix [1; 1; 0; 1] 2 2 = Ok C
       /\ forall i, Z.Even (entry C i i).
Proof.
  assert (Hv : in_vocabulary 2 [1; 1; 0; 1])
    by (apply forallb_index_ok; reflexivity).
  split; [exact Hv|]. split; [lia|].
  apply (cooccurrence_matrix_diagonal_even [1; 1; 0; 1] 2 2); [exact Hv | lia].
Defined.

(** A stream with repeated neighbours has a non-zero, even diagonal. *)
Example diagonal_of_repeats :
  exists C, cooccurrence_matrix [1; 1; 0; 1] 2 2 = Ok C
            /\ entry C 1 1 = 4 /\ entry C 0 0 = 0 /\ entry C 0 1 = 3.
Proof.
  eexists. split; [vm_compute; reflexivity|].
  split; [|split]; vm_compute; reflexivity.
Qed.

(** C7, as the specification words it, fails: with the window [K = 0] the
    loop body never runs and the all-zero matrix is returned. *)
Lemma nonpositive_window_returns :
  0 <= 0
  /\ cooccurrence_matrix [0; 1] 2 0 = Ok (zeros (2%nat, 2%nat))
  /\ ~ fails (cooccurrence_matrix [0; 1] 2 0).
Proof.
  split; [lia|]. split; [reflexivity|]. intros [e He]. discriminate He.
Qed.

(** C7, amended.  For every non-positive window [K <= 0],
    [cooccurrence_matrix] runs no iteration and returns the all-zero
    [V x V] matrix; no error is raised. *)
Theorem cooccurrence_matrix_nonpositive_window
  (token_ids : list Z) (V : nat) (K : Z) :
  K <= 0 -> cooccurrence_matrix token_ids V K = Ok (zeros (V, V)).
Proof.
  intros HK. unfold cooccurrence_matrix. by rewrite range1_nonpositive.
Qed.

Lemma cooccurrence_matrix_nonpositive_window_witness :
  -3 <= 0 /\ cooccurrence_matrix [0; 7; 1] 2 (-3) = Ok (zeros (2%nat, 2%nat)).
Proof.
  split; [lia|].
  apply (cooccurrence_matrix_nonpositive_window [0; 7; 1] 2 (-3)). lia.
Defined.

End Cooccurrence_claims.

(** * The SVD projection *)

Section SVD_claims.

#[local] Open Scope R_scope.

Context {input rng : Type}.
Context (RandomState : Z -> rng).
Context (randomized_svd : input -> nat -> rng -> list (list R) * list R * rng).

(** [SVD] runs the factorization on a generator seeded with 1, divides the
    rows by their norms and leaves the process-wide generator alone. *)
Lemma SVD_unfold (X : input) (d : nat) (global : rng) :
  SVD RandomState randomized_svd X d global
  = (divide_rows (randomized_svd X d (RandomState 1)).1.1
       (norm <$> (randomized_svd X d (RandomState 1)).1.1),
     (randomized_svd X d (RandomState 1)).1.2, global).
Proof.
  unfold SVD, fit_transform. simpl.
  by destruct (randomized_svd X d (RandomState 1)) as [[Wv ev] g'].
Qed.

(** A row whose norm before the division is not zero comes out with
    finite entries and Euclidean norm 1. *)
Lemma SVD_unit_rows (X : input) (d : nat) (global : rng)
  (r : nat) (row : list R) :
  (randomized_svd X d (RandomState 1)).1.1 !! r = Some row ->
  norm row <> 0 ->
  exists out,
    (SVD RandomState randomized_svd X d global).1.1 !! r = Some out
    /\ Forall is_finite out
    /\ norm (finite_part <$> out) = 1.
Proof.
  intros Hrow Hn. rewrite SVD_unfold. cbn [fst].
  rewrite divide_rows_lookup, Hrow. simpl.
  rewrite divide_row_nonzero by exact Hn.
  eexists. split; [reflexivity|]. split.
  - apply Forall_fmap, Forall_forall. by intros x _.
  - rewrite <- list_fmap_compose.
    change (finite_part ∘ (fun x => Finite (x / norm row)))
      with (fun x => x / norm row).
    by apply norm_scaled.
Qed.

(** C5.  The second half of the claim fails on the code: the division is
    not guarded.  A row whose norm before the division is zero is a row of
    zeros, each entry is divided by zero, and the row that [SVD] returns
    holds NaN at every position; no error is raised. *)
Theorem SVD_zero_row_nan (X : input) (d : nat) (global : rng)
  (r : nat) (row : list R) :
  (randomized_svd X d (RandomState 1)).1.1 !! r = Some row ->
  norm row = 0 ->
  (SVD RandomState randomized_svd X d global).1.1 !! r
  = Some ((fun _ => NaN) <$> row).
Proof.
  intros Hrow Hn. rewrite SVD_unfold. cbn [fst].
  rewrite divide_rows_lookup, Hrow. simpl.
  by rewrite divide_row_zero by exact Hn.
Qed.

End SVD_claims.

Section SVD_examples.

#[local] Open Scope R_scope.

Lemma norm_of_zero : norm [0] = 0.
Proof.
  unfold norm. simpl. replace (0 * 0 + 0) with 0 by lra. apply sqrt_0.
Qed.

Lemma SVD_zero_row_nan_witness :
  (first_columns zero_input 1 tt).1.1 !! 0%nat = Some [0]
  /\ norm [0] = 0
  /\ (SVD (fun _ => tt) first_columns zero_input 1 tt).1.1
     !! 0%nat = Some [NaN].
Proof.
  split; [reflexivity|]. split; [exact norm_of_zero|].
  apply (SVD_zero_row_nan (fun _ => tt) first_columns zero_input 1 tt 0 [0]);
    [reflexivity | exact norm_of_zero].
Defined.

(** With a seed of [None] the result would follow the process-wide
    generator; the constant seed is what makes [SVD] reproducible. *)
Example unseeded_follows_global :
  let draw (X : unit) (d : nat) (g : nat) := ([[INR g]], [INR g], S g) in
  (fit_transform (fun _ => 0%nat) draw
     {| n_components := 1; random_state := None |} tt 3%nat).1.2 = [INR 3]
  /\ (fit_transform (fun _ => 0%nat) draw
        {| n_components := 1; random_state := None |} tt 4%nat).1.2 = [INR 4]
  /\ (SVD (fun _ => 0%nat) draw tt 1 3%nat).1.2 = [INR 0]
  /\ (SVD (fun _ => 0%nat) draw tt 1 4%nat).1.2 = [INR 0].
Proof. by repeat split. Qed.

End SVD_examples.

(** * Further properties of the co-occurrence matrix *)

Section Window_size.

#[local] Open Scope Z_scope.

Implicit Types (tokens : list Z) (C : matrix Z) (k : nat) (ks : list nat).

Lemma pair_count_nonneg tokens k i j : 0 <= pair_count tokens k i j.
Proof. unfold pair_count. lia. Qed.

(** An offset that reaches past the end of the stream finds no pair. *)
Lemma pair_count_beyond tokens k i j :
  (length tokens <= k)%nat -> pair_count tokens k i j = 0.
Proof.
  intros Hk. unfold pair_count. rewrite filter_none'; [reflexivity|].
  intros l _ [_ Hl]. apply lookup_lt_Some in Hl. lia.
Qed.

Lemma foldr_add_app (l1 l2 : list Z) :
  foldr Z.add 0 (l1 ++ l2) = foldr Z.add 0 l1 + foldr Z.add 0 l2.
Proof. induction l1 as [|x l1 IH]; simpl; lia. Qed.

Lemma range1_split (K K' : Z) :
  K <= K' ->
  range1 K' = range1 K ++ seq (1 + Z.to_nat K) (Z.to_nat K' - Z.to_nat K).
Proof.
  intros HK. unfold range1. rewrite <- seq_app. f_equal. lia.
Qed.

Lemma window_count_split tokens (K K' : Z) i j :
  K <= K' ->
  window_count tokens K' i j
  = window_count tokens K i j
    + foldr Z.add 0
        ((fun k => pair_count tokens k i j + pair_count tokens k j i)
           <$> seq (1 + Z.to_nat K) (Z.to_nat K' - Z.to_nat K)).
Proof.
  intros HK. unfold window_count.
  by rewrite (range1_split K K' HK), fmap_app, foldr_add_app.
Qed.

Lemma offsets_sum_nonneg tokens ks i j :
  0 <= foldr Z.add 0
         ((fun k => pair_count tokens k i j + pair_count tokens k j i) <$> ks).
Proof.
  induction ks as [|k ks IH]; [simpl; lia|].
  rewrite fmap_cons. cbn [foldr].
  pose proof (pair_count_nonneg tokens k i j).
  pose proof (pair_count_nonneg tokens k j i). lia.
Qed.

Lemma offsets_sum_beyond tokens ks i j :
  Forall (fun k => (length tokens <= k)%nat) ks ->
  foldr Z.add 0
    ((fun k => pair_count tokens k i j + pair_count tokens k j i) <$> ks) = 0.
Proof.
  induction 1 as [|k ks Hk _ IH]; [reflexivity|].
  rewrite fmap_cons. cbn [foldr].
  rewrite !pair_count_beyond by exact Hk. lia.
Qed.

(** The result of the loop has the shape of the accumulator and stores
    no zero. *)
Lemma loop_shape tokens ks C C' :
  cooccurrence_loop tokens C ks = Ok C' -> shape C' = shape C.
Proof.
  intros H.
  apply (loop_invariant (fun M => shape M = shape C) tokens) in H; [done| |done].
  clear. intros C1 k C2 Hs (F & _ & ->)%step_adds. exact Hs.
Qed.

Lemma add_no_stored_zero (a b : matrix Z) : no_stored_zero (add a b).
Proof.
  intros p v. unfold add. cbn [data]. rewrite lookup_merge.
  destruct (data a !! p) as [x|], (data b !! p) as [y|]; simpl;
    try discriminate;
    match goal with
    | |- context [(?s =? 0)] => destruct (Z.eqb_spec s 0)
    end; intros [= <-]; done.
Qed.

Lemma loop_no_stored_zero tokens ks C C' :
  no_stored_zero C ->
  cooccurrence_loop tokens C ks = Ok C' -> no_stored_zero C'.
Proof.
  apply (loop_invariant no_stored_zero).
  clear. intros C k C' _ (F & _ & ->)%step_adds. apply add_no_stored_zero.
Qed.

(** Two matrices of one shape that store no zero and agree on every entry
    are the same matrix. *)
Lemma matrix_ext (A B : matrix Z) :
  shape A = shape B -> no_stored_zero A -> no_stored_zero B ->
  (forall i j, entry A i j = entry B i j) -> A = B.
Proof.
  destruct A as [sa da], B as [sb db]. cbn [shape]. intros -> HA HB Hent.
  f_equal. apply map_eq. intros [i j]. specialize (Hent i j).
  unfold entry in Hent. cbn [data] in Hent.
  specialize (HA (i, j)). specialize (HB (i, j)). cbn [data] in HA, HB.
  destruct (da !! (i, j)) as [x|], (db !! (i, j)) as [y|]; simpl in Hent.
  - by subst.
  - by destruct (HA x).
  - by destruct (HB y).
  - reflexivity.
Qed.

Lemma cooccurrence_matrix_canonical tokens (V : nat) (K : Z) C :
  cooccurrence_matrix tokens V K = Ok C ->
  shape C = (V, V) /\ no_stored_zero C.
Proof.
  unfold cooccurrence_matrix. intros H. split.
  - by apply loop_shape in H.
  - eapply loop_no_stored_zero; [|exact H].
    intros p v Hp. cbn in Hp. by rewrite lookup_empty in Hp.
Qed.

(** On vocabulary indices the function returns the matrix of the window
    counts. *)
Lemma cooccurrence_matrix_returns tokens (V : nat) (K : Z) :
  in_vocabulary V tokens ->
  exists C, cooccurrence_matrix tokens V K = Ok C
    /\ forall i j, entry C i j = window_count tokens K i j.
Proof.
  intros Hv. unfold cooccurrence_matrix, window_count.
  destruct (loop_entries tokens V (range1 K) (zeros (V, V)) Hv eq_refl)
    as (C & HC & Hent).
  exists C. split; [exact HC|]. intros i j.
  rewrite Hent, entry_zeros. lia.
Qed.

(** X1.  Widening the window never lowers a count: for tokens in the
    vocabulary and [K <= K'], every entry of the matrix built with [K] is
    at most the entry of the matrix built with [K']. *)
Theorem cooccurrence_matrix_window_monotone tokens (V : nat) (K K' : Z) :
  in_vocabulary V tokens -> K <= K' ->
  exists C C',
    cooccurrence_matrix tokens V K = Ok C
    /\ cooccurrence_matrix tokens V K' = Ok C'
    /\ forall i j, entry C i j <= entry C' i j.
Proof.
  intros Hv HK.
  destruct (cooccurrence_matrix_returns tokens V K Hv) as (C & HC & Hent).
  destruct (cooccurrence_matrix_returns tokens V K' Hv) as (C' & HC' & Hent').
  exists C, C'. split; [exact HC|]. split; [exact HC'|]. intros i j.
  rewrite Hent, Hent', (window_count_split tokens K K' i j HK).
  pose proof (offsets_sum_nonneg tokens
                (seq (1 + Z.to_nat K) (Z.to_nat K' - Z.to_nat K)) i j).
  lia.
Qed.

Lemma cooccurrence_matrix_window_monotone_witness :
  in_vocabulary 8 toy_token_ids /\ 1 <= 3
  /\ exists C C',
       cooccurrence_matrix toy_token_ids 8 1 = Ok C
       /\ cooccurrence_matrix toy_token_ids 8 3 = Ok C'
       /\ forall i j, entry C i j <= entry C' i j.
Proof.
  split; [exact toy_in_vocabulary|]. split; [lia|].
  apply (cooccurrence_matrix_window_monotone toy_token_ids 8 1 3);
    [exact toy_in_vocabulary | lia].
Defined.

(** X2.  A window as wide as the stream is saturated: for tokens in the
    vocabulary and [len(tokens) - 1 <= K <= K'], the two windows give the
    same matrix. *)
Theorem cooccurrence_matrix_window_saturates tokens (V : nat) (K K' : Z) :
  in_vocabulary V tokens ->
  Z.of_nat (length tokens) - 1 <= K -> K <= K' ->
  cooccurrence_matrix tokens V K' = cooccurrence_matrix tokens V K.
Proof.
  intros Hv Hn HK.
  destruct (cooccurrence_matrix_returns tokens V K Hv) as (C & HC & Hent).
  destruct (cooccurrence_matrix_returns tokens V K' Hv) as (C' & HC' & Hent').
  rewrite HC, HC'. f_equal.
  destruct (cooccurrence_matrix_canonical tokens V K C HC) as [Hs Hz].
  destruct (cooccurrence_matrix_canonical tokens V K' C' HC') as [Hs' Hz'].
  apply matrix_ext; [congruence|done|done|]. intros i j.
  rewrite Hent, Hent', (window_count_split tokens K K' i j HK).
  rewrite offsets_sum_beyond; [lia|].
  apply Forall_forall. intros k Hk%elem_of_seq. lia.
Qed.

Lemma cooccurrence_matrix_window_saturates_witness :
  in_vocabulary 2 [1; 1; 0; 1] /\ Z.of_nat (length [1; 1; 0; 1]) - 1 <= 3
  /\ 3 <= 50
  /\ cooccurrence_matrix [1; 1; 0; 1] 2 50
     = cooccurrence_matrix [1; 1; 0; 1] 2 3.
Proof.
  assert (Hv : in_vocabulary 2 [1; 1; 0; 1])
    by (apply forallb_index_ok; reflexivity).
  split; [exact Hv|]. split; [simpl; lia|]. split; [lia|].
  apply (cooccurrence_matrix_window_saturates [1; 1; 0; 1] 2 3 50);
    [exact Hv | simpl; lia | lia].
Defined.

End Window_size.

Section Streams.

#[local] Open Scope Z_scope.

Implicit Types (tokens : list Z) (C : matrix Z) (k : nat) (ks : list nat).

Lemma step_short tokens (shp : nat * nat) k :
  (length tokens <= 1)%nat -> (1 <= k)%nat ->
  cooccurrence_step tokens (zeros shp) k = Ok (zeros shp).
Proof.
  intros Hn Hk. unfold cooccurrence_step.
  replace (length tokens - k)%nat with 0%nat by lia.
  rewrite take_0, drop_ge by lia.
  change (csc_matrix (ones_like []) [] [] shp)
    with (Ok (Matrix shp (∅ : gmap (Z * Z) Z))).
  reflexivity.
Qed.

Lemma loop_short tokens (shp : nat * nat) ks :
  (length tokens <= 1)%nat -> Forall (fun k => (1 <= k)%nat) ks ->
  cooccurrence_loop tokens (zeros shp) ks = Ok (zeros shp).
Proof.
  intros Hn. induction 1 as [|k ks Hk _ IH]; [reflexivity|].
  simpl. by rewrite step_short.
Qed.

(** X3.  A stream of fewer than two tokens holds no pair: whatever the
    token, the vocabulary size and the window, [cooccurrence_matrix]
    returns the all-zero matrix, and raises nothing. *)
Theorem cooccurrence_matrix_short_stream tokens (V : nat) (K : Z) :
  (length tokens <= 1)%nat ->
  cooccurrence_matrix tokens V K = Ok (zeros (V, V)).
Proof.
  intros Hn. unfold cooccurrence_matrix. apply loop_short; [exact Hn|].
  apply Forall_forall. intros k Hk%elem_of_seq. lia.
Qed.

Lemma cooccurrence_matrix_short_stream_witness :
  (length [(-4)%Z] <= 1)%nat
  /\ cooccurrence_matrix [-4] 3 7 = Ok (zeros (3%nat, 3%nat)).
Proof.
  split; [simpl; lia|].
  apply (cooccurrence_matrix_short_stream [-4] 3 7). simpl. lia.
Defined.

(** Renumbering the tokens renumbers the pairs. *)
Lemma pair_count_fmap (f : Z -> Z) `{!Inj (=) (=) f} tokens k i j :
  pair_count (f <$> tokens) k (f i) (f j) = pair_count tokens k i j.
Proof.
  unfold pair_count. rewrite length_fmap. do 2 f_equal.
  apply list_filter_iff. intros l. rewrite !list_lookup_fmap.
  split; intros [H1 H2]; split.
  - destruct (tokens !! l) as [x|]; [|discriminate].
    injection H1 as H1. by apply (inj f) in H1 as ->.
  - destruct (tokens !! (l + k)%nat) as [x|]; [|discriminate].
    injection H2 as H2. by apply (inj f) in H2 as ->.
  - by rewrite H1.
  - by rewrite H2.
Qed.

(** X5.  The numbering of the vocabulary does not matter: if the tokens
    are renumbered by an injective map [f], the count of [(f i, f j)] in
    the new matrix is the count of [(i, j)] in the old one. *)
Theorem cooccurrence_matrix_renumbering (f : Z -> Z) `{!Inj (=) (=) f}
  tokens (V V' : nat) (K : Z) :
  in_vocabulary V tokens -> in_vocabulary V' (f <$> tokens) ->
  exists C C',
    cooccurrence_matrix tokens V K = Ok C
    /\ cooccurrence_matrix (f <$> tokens) V' K = Ok C'
    /\ forall i j, entry C' (f i) (f j) = entry C i j.
Proof.
  intros Hv Hv'.
  destruct (cooccurrence_matrix_returns tokens V K Hv) as (C & HC & Hent).
  destruct (cooccurrence_matrix_returns (f <$> tokens) V' K Hv')
    as (C' & HC' & Hent').
  exists C, C'. split; [exact HC|]. split; [exact HC'|]. intros i j.
  rewrite Hent, Hent'. unfold window_count. f_equal.
  apply list_fmap_ext. intros _ k _. by rewrite !pair_count_fmap.
Qed.

End Streams.

Section Reading_direction.

#[local] Open Scope Z_scope.

Implicit Types (tokens : list Z) (A B : list Z).

Lemma succ_inj : Inj (=) (=) Z.succ.
Proof. intros x y H. lia. Qed.

Lemma cooccurrence_matrix_renumbering_witness :
  Inj (=) (=) Z.succ
  /\ in_vocabulary 2 [0; 1; 0] /\ in_vocabulary 3 (Z.succ <$> [0; 1; 0])
  /\ exists C C',
       cooccurrence_matrix [0; 1; 0] 2 2 = Ok C
       /\ cooccurrence_matrix (Z.succ <$> [0; 1; 0]) 3 2 = Ok C'
       /\ forall i j, entry C' (Z.succ i) (Z.succ j) = entry C i j.
Proof.
  assert (H1 : in_vocabulary 2 [0; 1; 0])
    by (apply forallb_index_ok; reflexivity).
  assert (H2 : in_vocabulary 3 (Z.succ <$> [0; 1; 0]))
    by (apply forallb_index_ok; reflexivity).
  split; [exact succ_inj|]. split; [exact H1|]. split; [exact H2|].
  exact (@cooccurrence_matrix_renumbering Z.succ succ_inj [0; 1; 0] 2 3 2
           H1 H2).
Defined.

Lemma zip_reverse A B :
  length A = length B -> zip (reverse A) (reverse B) = reverse (zip A B).
Proof.
  revert B. induction A as [|a A IH]; intros [|b B] Hlen;
    simpl in Hlen; try discriminate; [reflexivity|].
  cbn [zip_with]. rewrite !reverse_cons.
  rewrite zip_with_app by (rewrite !length_reverse; lia).
  rewrite IH by lia. reflexivity.
Qed.

Lemma occurrences_swap A B (x y : Z) :
  occurrences (x, y) (zip A B) = occurrences (y, x) (zip B A).
Proof.
  unfold occurrences. f_equal.
  revert B. induction A as [|a A IH]; intros [|b B]; try reflexivity.
  cbn [zip_with].
  destruct (decide ((x, y) = (a, b))) as [[= -> ->]|Hne].
  - rewrite !filter_cons_True by done. simpl. by rewrite IH.
  - rewrite !filter_cons_False; [apply IH| |done].
    intros [= -> ->]. by apply Hne.
Qed.

Lemma occurrences_reverse (p : Z * Z) (ps : list (Z * Z)) :
  occurrences p (reverse ps) = occurrences p ps.
Proof. unfold occurrences. by rewrite filter_reverse, length_reverse. Qed.

(** Read backwards, a pair at distance [k] is the mirrored pair. *)
Lemma pair_count_reverse tokens (k : nat) (i j : Z) :
  pair_count (reverse tokens) k i j = pair_count tokens k j i.
Proof.
  rewrite <- !occurrences_offset. rewrite length_reverse.
  rewrite take_reverse, drop_reverse.
  replace (drop (length tokens - (length tokens - k)) tokens)
    with (drop k tokens).
  2:{ destruct (decide (k <= length tokens)%nat).
      - f_equal. lia.
      - rewrite !drop_ge by lia. reflexivity. }
  rewrite zip_reverse by (rewrite length_drop, length_take; lia).
  rewrite occurrences_reverse. apply occurrences_swap.
Qed.

(** X6.  The reading direction does not matter: for tokens in the
    vocabulary, the stream read backwards gives the same matrix. *)
Theorem cooccurrence_matrix_reverse tokens (V : nat) (K : Z) :
  in_vocabulary V tokens ->
  cooccurrence_matrix (reverse tokens) V K = cooccurrence_matrix tokens V K.
Proof.
  intros Hv.
  assert (Hv' : in_vocabulary V (reverse tokens)).
  { unfold in_vocabulary in *. rewrite Forall_forall in *.
    intros t Ht. apply Hv. by apply elem_of_reverse. }
  destruct (cooccurrence_matrix_returns tokens V K Hv) as (C & HC & Hent).
  destruct (cooccurrence_matrix_returns (reverse tokens) V K Hv')
    as (C' & HC' & Hent').
  rewrite HC, HC'. f_equal.
  destruct (cooccurrence_matrix_canonical _ _ _ _ HC) as [Hs Hz].
  destruct (cooccurrence_matrix_canonical _ _ _ _ HC') as [Hs' Hz'].
  apply matrix_ext; [congruence|done|done|]. intros i j.
  rewrite Hent, Hent'. unfold window_count. f_equal.
  apply list_fmap_ext. intros _ k _. rewrite !pair_count_reverse. lia.
Qed.

Lemma cooccurrence_matrix_reverse_witness :
  in_vocabulary 8 toy_token_ids
  /\ cooccurrence_matrix (reverse toy_token_ids) 8 2
     = cooccurrence_matrix toy_token_ids 8 2.
Proof.
  split; [exact toy_in_vocabulary|].
  apply (cooccurrence_matrix_reverse toy_token_ids 8 2).
  exact toy_in_vocabulary.
Defined.

End Reading_direction.

(** * Further properties of the PPMI transform *)

Section PPMI_any_input.

#[local] Open Scope R_scope.

Implicit Types (C : matrix R) (i j : Z) (c : R).

(** X7.  Whatever the matrix, counts or not, [PPMI] stores an entry only
    where its argument is not zero, and what it stores is never negative
    and never -inf: it is a strictly positive real, +inf, or NaN. *)
Theorem PPMI_stored_values C i j (v : float) :
  data (PPMI C) !! (i, j) = Some v ->
  F64.getitem C i j <> 0
  /\ (v = NaN \/ v = PosInf \/ exists r, v = Finite r /\ 0 < r).
Proof.
  intros (c & Hc & Hne & -> & Hz)%PPMI_stored. split.
  - unfold F64.getitem. by rewrite Hc.
  - unfold ppmi_at in *.
    destruct (np_log _) as [r| | |]; simpl in *.
    + right. right. exists (Rmax 0 r). split; [reflexivity|].
      destruct (Req_dec_T (Rmax 0 r) 0) as [|Hr]; [discriminate|].
      pose proof (Rmax_l 0 r). lra.
    + right. by left.
    + destruct (Req_dec_T 0 0) as [|Hr]; [discriminate|]. by destruct Hr.
    + by left.
Qed.

Lemma PPMI_stored_values_witness :
  data (PPMI pair_counts) !! (0%Z, 1%Z) = Some (Finite (ln 2))
  /\ F64.getitem pair_counts 0 1 <> 0
  /\ (Finite (ln 2) = NaN \/ Finite (ln 2) = PosInf
      \/ exists r, Finite (ln 2) = Finite r /\ 0 < r).
Proof.
  assert (Hln : 0 < ln 2) by (rewrite <- ln_1; apply ln_increasing; lra).
  assert (H : data (PPMI pair_counts) !! (0%Z, 1%Z) = Some (Finite (ln 2))).
  { destruct PPMI_pair_counts as [He _]. unfold F64.entry in He.
    destruct (data (PPMI pair_counts) !! (0%Z, 1%Z)) as [v|] eqn:Hv;
      simpl in He; [by rewrite He|].
    injection He as He. lra. }
  split; [exact H|].
  exact (PPMI_stored_values pair_counts 0 1 (Finite (ln 2)) H).
Defined.

End PPMI_any_input.

Section PPMI_symmetry.

#[local] Open Scope R_scope.

Implicit Types (C : matrix R) (i j : Z) (c : R).

Lemma Rsum_perm (l l' : list R) : l ≡ₚ l' -> Rsum l = Rsum l'.
Proof.
  induction 1 as [|x l l' _ IH|x y l|l l' l'' _ IH1 _ IH2]; simpl.
  - reflexivity.
  - by rewrite IH.
  - lra.
  - by rewrite IH1.
Qed.

Lemma filter_fmap {A B : Type} (f : A -> B) (P : B -> Prop)
  `{!forall y, Decision (P y)} (l : list A) :
  filter P (f <$> l) = f <$> filter (fun x => P (f x)) l.
Proof.
  induction l as [|x l IH]; [reflexivity|]. rewrite fmap_cons.
  destruct (decide (P (f x))) as [HP|HP].
  - rewrite !filter_cons_True by done. by rewrite fmap_cons, IH.
  - rewrite !filter_cons_False by done. exact IH.
Qed.

Lemma matrix_eq {A : Type} (M N : matrix A) :
  shape M = shape N -> data M = data N -> M = N.
Proof. destruct M, N. simpl. by intros -> ->. Qed.

Lemma symmetric_tocoo C :
  symmetric C -> F64.tocoo C ≡ₚ prod_map prod_swap id <$> F64.tocoo C.
Proof.
  intros Hsym. unfold F64.tocoo.
  rewrite <- (map_to_list_kmap prod_swap (data C)).
  replace (kmap prod_swap (data C)) with (data C); [reflexivity|].
  apply map_eq. intros [i j]. change (i, j) with (prod_swap (j, i)).
  rewrite (lookup_kmap prod_swap). apply Hsym.
Qed.

(** The row sums and the column sums of a symmetric matrix agree. *)
Lemma symmetric_marginals C i :
  symmetric C -> F64.sum_axis0 C i = F64.sum_axis1 C i.
Proof.
  intros Hsym. unfold F64.sum_axis0, F64.sum_axis1.
  rewrite (Rsum_perm _ ((filter (fun e => e.1.2 = i)
             (prod_map prod_swap id <$> F64.tocoo C)).*2)).
  - rewrite filter_fmap, <- list_fmap_compose. f_equal.
  - apply fmap_Permutation, filter_Permutation. by apply symmetric_tocoo.
Qed.





End PPMI_symmetry.

(** * From tokens to PPMI *)

Section Pipeline.

#[local] Open Scope R_scope.

Lemma to_float64_symmetric (C : matrix Z) :
  no_stored_zero C -> (forall i j, entry C i j = entry C j i) ->
  symmetric (to_float64 C).
Proof.
  intros Hz Hsym i j. unfold to_float64. cbn [data]. rewrite !lookup_fmap.
  specialize (Hsym i j). unfold entry in Hsym.
  pose proof (Hz (i, j)) as Hij. pose proof (Hz (j, i)) as Hji.
  destruct (data C !! (i, j)) as [x|], (data C !! (j, i)) as [y|];
    simpl in *; try reflexivity.
  - by subst.
  - by destruct (Hij x).
  - by destruct (Hji y).
Qed.

End Pipeline.

(** * The release script *)

Section Release_examples.

Example marked_line_selected :
  search SOLUTION (list_ascii_of_string "    y = f(x)  #--SOLUTION--") = true
  /\ search SOLUTION (list_ascii_of_string "  'y = 2 #--SOLUTION--\n',") = true
  /\ search SOLUTION (list_ascii_of_string "#--SOLUTION-- above") = true
  /\ search SOLUTION (list_ascii_of_string "# SOLUTION") = false.
Proof. repeat split; vm_compute; reflexivity. Qed.

Example paths_selected :
  removed (list_ascii_of_string "../a1/model.npy") = true
  /\ removed (list_ascii_of_string "../a1/hw-solution/notes.txt") = true
  /\ removed (list_ascii_of_string "../a1/npy.txt") = false
  /\ cleaned (list_ascii_of_string "../a1/NeuralBOW.ipynb") = true
  /\ cleaned (list_ascii_of_string "../a1/numpy") = true
  /\ scrubbed (list_ascii_of_string "../a1/utils.py") = false.
Proof. repeat split; vm_compute; reflexivity. Qed.

End Release_examples.

(** ** The matcher computes the words of a pattern *)

Section Matcher.

Implicit Types (r : regex) (c : ascii) (s u v : list ascii).

Lemma lang_void s : ~ lang Void s.
Proof. intros H. inversion H. Qed.

Lemma lang_eps_inv s : lang Eps s -> s = [].
Proof. intros H. by inversion H. Qed.

Lemma lang_cat_inv r1 r2 s :
  lang (Cat r1 r2) s -> exists u v, s = u ++ v /\ lang r1 u /\ lang r2 v.
Proof. intros H. inversion H; subst. eauto. Qed.

Lemma lang_alt_inv r1 r2 s : lang (Alt r1 r2) s -> lang r1 s \/ lang r2 s.
Proof. intros H. inversion H; subst; auto. Qed.

Lemma existsb_eqb c (cs : list ascii) :
  existsb (Ascii.eqb c) cs = true <-> c ∈ cs.
Proof.
  rewrite existsb_exists. split.
  - intros (x & Hx & Heq). apply Ascii.eqb_eq in Heq as ->.
    by apply list_elem_of_In.
  - intros Hc. exists c. split; [by apply list_elem_of_In|].
    apply Ascii.eqb_refl.
Qed.

Lemma nullable_lang r : nullable r = true <-> lang r [].
Proof.
  split.
  - induction r as [| | | | |r1 IH1 r2 IH2|r1 IH1 r2 IH2|r IH]; simpl;
      try discriminate; intros H.
    + constructor.
    + apply andb_prop in H as [H1 H2].
      change (@nil ascii) with (@nil ascii ++ []). constructor; auto.
    + apply orb_prop in H as [H|H]; [apply lang_alt_l|apply lang_alt_r]; auto.
    + constructor.
  - intros H. remember (@nil ascii) as w eqn:Hw.
    induction H as [| | | |r1 r2 u v _ IH1 _ IH2|r1 r2 u _ IH|r1 r2 u _ IH
                   |r|r u v _ _ _ _]; simpl; try discriminate; try reflexivity.
    + apply app_eq_nil in Hw as [-> ->]. by rewrite IH1, IH2.
    + by rewrite IH.
    + rewrite IH by done. apply orb_true_r.
Qed.

Lemma deriv_sound c r : forall s, lang (deriv c r) s -> lang r (c :: s).
Proof.
  induction r as [| | |c'|cs|r1 IH1 r2 IH2|r1 IH1 r2 IH2|r IH];
    intros s H; simpl in H.
  - by apply lang_void in H.
  - by apply lang_void in H.
  - apply lang_eps_inv in H as ->. constructor.
  - destruct (Ascii.eqb_spec c c') as [<-|_]; [|by apply lang_void in H].
    apply lang_eps_inv in H as ->. constructor.
  - destruct (existsb (Ascii.eqb c) cs) eqn:E; [|by apply lang_void in H].
    apply lang_eps_inv in H as ->. constructor. by apply existsb_eqb.
  - assert (Hcat : lang (Cat (deriv c r1) r2) s -> lang (Cat r1 r2) (c :: s)).
    { intros (u & v & -> & Hu & Hv)%lang_cat_inv.
      change (c :: u ++ v) with ((c :: u) ++ v). constructor; auto. }
    destruct (nullable r1) eqn:E; [|by apply Hcat].
    apply lang_alt_inv in H as [H|H]; [by apply Hcat|].
    change (c :: s) with ([] ++ c :: s). constructor; [|by apply IH2].
    by apply nullable_lang.
  - apply lang_alt_inv in H as [H|H];
      [apply lang_alt_l|apply lang_alt_r]; auto.
  - apply lang_cat_inv in H as (u & v & -> & Hu & Hv).
    change (c :: u ++ v) with ((c :: u) ++ v). constructor; auto.
Qed.

Lemma deriv_complete c r s : lang r (c :: s) -> lang (deriv c r) s.
Proof.
  intros H. remember (c :: s) as w eqn:Hw. revert s Hw.
  induction H as [|c0|c0|c0 cs Hin|r1 r2 u v H1 IH1 H2 IH2|r1 r2 u _ IH
                 |r1 r2 u _ IH|r|r u v H1 IH1 H2 IH2]; intros s Hw; simpl.
  - discriminate.
  - injection Hw as -> <-. constructor.
  - injection Hw as -> <-. rewrite Ascii.eqb_refl. constructor.
  - injection Hw as -> <-.
    apply existsb_eqb in Hin. rewrite Hin. constructor.
  - destruct u as [|c1 u].
    + simpl in Hw. subst v. apply nullable_lang in H1. rewrite H1.
      apply lang_alt_r. by apply IH2.
    + injection Hw as -> <-.
      assert (Hcat : lang (Cat (deriv c r1) r2) (u ++ v))
        by (constructor; auto).
      destruct (nullable r1); [by apply lang_alt_l|done].
  - apply lang_alt_l. by apply IH.
  - apply lang_alt_r. by apply IH.
  - discriminate.
  - destruct u as [|c1 u].
    + simpl in Hw. subst v. by apply (IH2 s).
    + injection Hw as -> <-. constructor; auto.
Qed.

(** The matcher decides membership. *)
Lemma matches_lang r s : matches r s = true <-> lang r s.
Proof.
  revert r. induction s as [|c s IH]; intros r; simpl.
  - apply nullable_lang.
  - rewrite IH. split; [apply deriv_sound|apply deriv_complete].
Qed.

Lemma lang_lit (w : string) s : lang (lit w) s <-> s = list_ascii_of_string w.
Proof.
  unfold lit. revert s.
  induction (list_ascii_of_string w) as [|c l IH]; intros s; simpl.
  - split; [apply lang_eps_inv|intros ->; constructor].
  - split.
    + intros (u & v & -> & Hu & Hv)%lang_cat_inv.
      inversion Hu; subst. apply IH in Hv as ->. reflexivity.
    + intros ->. change (c :: l) with ([c] ++ l).
      constructor; [constructor|by apply IH].
Qed.

Lemma lang_any s : lang (Star Dot) s.
Proof.
  induction s as [|c s IH]; [constructor|].
  change (c :: s) with ([c] ++ s). constructor; [constructor|exact IH].
Qed.

(** What [search] decides. *)
Lemma search_spec (p : pattern) s :
  search p s = true
  <-> exists pre m post,
        s = pre ++ m ++ post /\ lang (body p) m
        /\ (at_end p = true -> post = []).
Proof.
  unfold search. rewrite matches_lang. split.
  - intros (pre & rest & -> & _ & H)%lang_cat_inv.
    apply lang_cat_inv in H as (m & post & -> & Hm & Hpost).
    exists pre, m, post. split; [reflexivity|]. split; [exact Hm|].
    intros He. rewrite He in Hpost. by apply lang_eps_inv.
  - intros (pre & m & post & -> & Hm & Hend).
    constructor; [apply lang_any|]. constructor; [exact Hm|].
    destruct (at_end p); [|apply lang_any].
    rewrite Hend by reflexivity. constructor.
Qed.

End Matcher.

(** ** Which lines are deleted, which files are touched *)

Section Release_script.

Implicit Types (line fname : list ascii) (lines : list (list ascii)).

(** The address of the [sed] commands selects a line exactly when the
    marker occurs somewhere in it. *)
Lemma SOLUTION_selects line :
  search SOLUTION line = true <-> contains "#--SOLUTION--" line.
Proof.
  rewrite search_spec. unfold SOLUTION, contains. cbn [body at_end]. split.
  - intros (pre & m & post & -> & Hm & _).
    apply lang_cat_inv in Hm as (a & m' & -> & _ & Hm').
    apply lang_cat_inv in Hm' as (w & trail & -> & Hw & _).
    apply lang_lit in Hw as ->.
    exists (pre ++ a), (trail ++ post). by rewrite <- !app_assoc.
  - intros (pre & post & ->).
    exists pre, (list_ascii_of_string "#--SOLUTION--"), post.
    split; [reflexivity|]. split; [|discriminate].
    change (list_ascii_of_string "#--SOLUTION--")
      with ([] ++ list_ascii_of_string "#--SOLUTION--" ++ []) at 1.
    constructor; [constructor|]. constructor; [|constructor].
    by apply lang_lit.
Qed.

Lemma sed_d_elem lines line :
  line ∈ sed_d SOLUTION lines
  <-> line ∈ lines /\ ~ contains "#--SOLUTION--" line.
Proof.
  unfold sed_d. rewrite list_elem_of_filter, <- SOLUTION_selects.
  destruct (search SOLUTION line); split; intros [H1 H2]; split;
    done || by destruct H2.
Qed.

(** X15.  The address of the two [sed] commands selects a line exactly when
    the marker [#--SOLUTION--] occurs somewhere in it: at its end, as the
    header of the script says, and in its middle as well.  Cleaning a file
    keeps, in their order, exactly the lines without the marker, and the
    report printed beside it lists exactly the lines that were dropped; a
    file without the marker is left as it is, and cleaning twice changes
    nothing more. *)
Theorem sed_d_cleans lines :
  (forall line, search SOLUTION line = true
     <-> contains "#--SOLUTION--" line)
  /\ (forall line, line ∈ sed_d SOLUTION lines
     <-> line ∈ lines /\ ~ contains "#--SOLUTION--" line)
  /\ (forall line, line ∈ sed_n_p SOLUTION lines
        <-> line ∈ lines /\ contains "#--SOLUTION--" line)
  /\ sed_d SOLUTION lines `sublist_of` lines
  /\ length (sed_d SOLUTION lines) + length (sed_n_p SOLUTION lines)
     = length lines
  /\ sed_d SOLUTION (sed_d SOLUTION lines) = sed_d SOLUTION lines
  /\ sed_n_p SOLUTION (sed_d SOLUTION lines) = []
  /\ ((forall line, line ∈ lines -> ~ contains "#--SOLUTION--" line) ->
      sed_d SOLUTION lines = lines).
Proof.
  split; [apply SOLUTION_selects|].
  split; [apply sed_d_elem|]. split; [|split; [|split; [|split; [|split]]]].
  - intros line. unfold sed_n_p.
    by rewrite list_elem_of_filter, SOLUTION_selects, (and_comm (contains _ _)).
  - apply sublist_filter.
  - unfold sed_d, sed_n_p. induction lines as [|l lines IH]; [reflexivity|].
    destruct (search SOLUTION l) eqn:E.
    + rewrite filter_cons_False, filter_cons_True by (by rewrite E).
      simpl. lia.
    + rewrite filter_cons_True, filter_cons_False by (by rewrite E).
      simpl. lia.
  - unfold sed_d. rewrite list_filter_filter.
    apply list_filter_iff. tauto.
  - unfold sed_d, sed_n_p. rewrite list_filter_filter.
    apply filter_none. intros l [H1 H2]. congruence.
  - intros Hno. unfold sed_d. induction lines as [|l lines IH]; [reflexivity|].
    rewrite filter_cons_True.
    + f_equal. apply IH. intros line Hl. apply Hno. by right.
    + destruct (search SOLUTION l) eqn:E; [|reflexivity].
      apply SOLUTION_selects in E. destruct (Hno l); [by left|done].
Qed.

Lemma search_ends_with (w : string) fname :
  search {| body := lit w; at_end := true |} fname = true
  <-> ends_with w fname.
Proof.
  rewrite search_spec. cbn [body at_end]. unfold ends_with. split.
  - intros (pre & m & post & -> & ->%lang_lit & Hend).
    exists pre. by rewrite Hend, app_nil_r.
  - intros (pre & ->). exists pre, (list_ascii_of_string w), [].
    rewrite app_nil_r. split; [reflexivity|]. split; [by apply lang_lit|done].
Qed.

Lemma search_contains (w : string) fname :
  search {| body := Cat (Star Dot) (Cat (lit w) (Star Dot));
            at_end := false |} fname = true
  <-> contains w fname.
Proof.
  rewrite search_spec. cbn [body at_end]. unfold contains. split.
  - intros (pre & m & post & -> & Hm & _).
    apply lang_cat_inv in Hm as (a & m' & -> & _ & Hm').
    apply lang_cat_inv in Hm' as (w' & b & -> & ->%lang_lit & _).
    exists (pre ++ a), (b ++ post). by rewrite <- !app_assoc.
  - intros (pre & post & ->).
    exists pre, (list_ascii_of_string w), post.
    split; [reflexivity|]. split; [|discriminate].
    change (list_ascii_of_string w)
      with ([] ++ list_ascii_of_string w) at 1.
    constructor; [constructor|].
    rewrite <- (app_nil_r (list_ascii_of_string w)).
    constructor; [by apply lang_lit|constructor].
Qed.

(** X16.  A path is removed from the release exactly when it ends in
    [.pyc] or in [.npy], or when [-solution] occurs anywhere in it, the
    names of its directories included. *)
Theorem removed_paths fname :
  removed fname = true
  <-> ends_with ".pyc" fname \/ ends_with ".npy" fname
      \/ contains "-solution" fname.
Proof.
  unfold removed, patterns. cbn [existsb].
  rewrite !orb_true_iff, search_ends_with, search_ends_with, search_contains.
  intuition discriminate.
Qed.

Lemma cleaned_spec fname :
  cleaned fname = true <-> ends_with "py" fname \/ ends_with "pynb" fname.
Proof.
  unfold cleaned. rewrite search_spec. cbn [body at_end py_or_ipynb].
  unfold ends_with. split.
  - intros (pre & m & post & -> & Hm & Hend). rewrite Hend by done.
    apply lang_cat_inv in Hm as (a & m' & -> & _ & Hm').
    apply lang_cat_inv in Hm' as (w & b & -> & ->%lang_lit & Hb).
    apply lang_alt_inv in Hb as [->%lang_lit| ->%lang_eps_inv].
    + right. exists (pre ++ a). by rewrite !app_nil_r, <- !app_assoc.
    + left. exists (pre ++ a). by rewrite !app_nil_r, <- !app_assoc.
  - intros [(pre & ->)|(pre & ->)].
    + exists pre, (list_ascii_of_string "py"), [].
      rewrite app_nil_r. split; [reflexivity|]. split; [|done].
      change (list_ascii_of_string "py")
        with ([] ++ list_ascii_of_string "py" ++ []) at 1.
      constructor; [constructor|]. constructor; [by apply lang_lit|].
      apply lang_alt_r. constructor.
    + exists pre, (list_ascii_of_string "pynb"), [].
      rewrite app_nil_r. split; [reflexivity|]. split; [|done].
      change (list_ascii_of_string "pynb")
        with ([] ++ list_ascii_of_string "py" ++ list_ascii_of_string "nb").
      constructor; [constructor|]. constructor; [by apply lang_lit|].
      apply lang_alt_l. by apply lang_lit.
Qed.

Lemma scrubbed_spec fname :
  scrubbed fname = true <-> ends_with "ipynb" fname.
Proof.
  unfold scrubbed. rewrite search_spec. cbn [body at_end ipynb].
  unfold ends_with. split.
  - intros (pre & m & post & -> & Hm & Hend). rewrite Hend by done.
    apply lang_cat_inv in Hm as (a & w & -> & _ & ->%lang_lit).
    exists (pre ++ a). by rewrite !app_nil_r, <- !app_assoc.
  - intros (pre & ->). exists pre, (list_ascii_of_string "ipynb"), [].
    rewrite app_nil_r. split; [reflexivity|]. split; [|done].
    change (list_ascii_of_string "ipynb")
      with ([] ++ list_ascii_of_string "ipynb") at 1.
    constructor; [constructor|by apply lang_lit].
Qed.

Lemma ends_with_longer (w w' : string) fname :
  (exists k, list_ascii_of_string w' = k ++ list_ascii_of_string w) ->
  ends_with w' fname -> ends_with w fname.
Proof.
  intros (k & Hk) (pre & ->). exists (pre ++ k). by rewrite Hk, app_assoc.
Qed.

(** X17.  The marked lines are deleted from the files whose path ends in
    [py] or [pynb], with or without a dot before it; the output cells are
    cleared in the files whose path ends in [ipynb].  So every [.py] file
    is cleaned, and every notebook is both cleaned and cleared. *)
Theorem cleaned_and_scrubbed fname :
  (cleaned fname = true <-> ends_with "py" fname \/ ends_with "pynb" fname)
  /\ (scrubbed fname = true <-> ends_with "ipynb" fname)
  /\ (ends_with ".py" fname -> cleaned fname = true)
  /\ (scrubbed fname = true -> cleaned fname = true).
Proof.
  split; [apply cleaned_spec|]. split; [apply scrubbed_spec|]. split.
  - intros H. apply cleaned_spec. left.
    apply (ends_with_longer "py" ".py"); [|exact H]. by exists ["."%char].
  - intros H%scrubbed_spec. apply cleaned_spec. right.
    apply (ends_with_longer "pynb" "ipynb"); [|exact H]. by exists ["i"%char].
Qed.

Lemma plain_file :
  forall line, line ∈ [list_ascii_of_string "x = 1"]
    -> ~ contains "#--SOLUTION--" line.
Proof.
  intros line ->%list_elem_of_singleton Hc%SOLUTION_selects.
  vm_compute in Hc. discriminate.
Qed.

Lemma sed_d_cleans_witness :
  (forall line, line ∈ [list_ascii_of_string "x = 1"]
     -> ~ contains "#--SOLUTION--" line)
  /\ sed_d SOLUTION [list_ascii_of_string "x = 1"]
     = [list_ascii_of_string "x = 1"].
Proof.
  split; [exact plain_file|].
  destruct (sed_d_cleans [list_ascii_of_string "x = 1"])
    as (_ & _ & _ & _ & _ & _ & _ & H).
  exact (H plain_file).
Defined.

Lemma cleaned_and_scrubbed_witness :
  ends_with ".py" (list_ascii_of_string "../a1/utils.py")
  /\ cleaned (list_ascii_of_string "../a1/utils.py") = true
  /\ scrubbed (list_ascii_of_string "../a1/NeuralBOW.ipynb") = true
  /\ cleaned (list_ascii_of_string "../a1/NeuralBOW.ipynb") = true.
Proof.
  assert (Hpy : ends_with ".py" (list_ascii_of_string "../a1/utils.py"))
    by (by exists (list_ascii_of_string "../a1/utils")).
  assert (Hnb : scrubbed (list_ascii_of_string "../a1/NeuralBOW.ipynb") = true)
    by (vm_compute; reflexivity).
  split; [exact Hpy|].
  destruct (cleaned_and_scrubbed (list_ascii_of_string "../a1/utils.py"))
    as (_ & _ & H1 & _).
  destruct (cleaned_and_scrubbed
              (list_ascii_of_string "../a1/NeuralBOW.ipynb"))
    as (_ & _ & _ & H2).
  split; [exact (H1 Hpy)|]. split; [exact Hnb | exact (H2 Hnb)].
Defined.

End Release_script.

(** * Which pairs are counted, and how many *)

Section Support.

#[local] Open Scope Z_scope.

Implicit Types (tokens : list Z) (k l : nat) (ks : list nat).

Lemma pair_count_positive tokens k i j :
  0 < pair_count tokens k i j
  <-> exists l, tokens !! l = Some i /\ tokens !! (l + k)%nat = Some j.
Proof.
  unfold pair_count. split.
  - intros Hpos.
    destruct (filter _ (seq 0 (length tokens))) as [|l rest] eqn:E;
      [simpl in Hpos; lia|].
    assert (Hl : l ∈ l :: rest) by left. rewrite <- E in Hl.
    apply list_elem_of_filter in Hl as [Hl _]. by exists l.
  - intros (l & Hi & Hj).
    assert (Hl : l ∈ filter
              (fun l => tokens !! l = Some i /\ tokens !! (l + k)%nat = Some j)
              (seq 0 (length tokens))).
    { apply list_elem_of_filter. split; [done|].
      apply elem_of_seq. apply lookup_lt_Some in Hi. lia. }
    destruct (filter _ _) as [|? ?]; [by apply elem_of_nil in Hl|].
    simpl. lia.
Qed.

Lemma offsets_sum_positive tokens ks i j :
  0 < foldr Z.add 0
        ((fun k => pair_count tokens k i j + pair_count tokens k j i) <$> ks)
  <-> exists k, k ∈ ks
        /\ (0 < pair_count tokens k i j \/ 0 < pair_count tokens k j i).
Proof.
  induction ks as [|k ks IH].
  - simpl. split; [lia|]. intros (k & Hk & _). by apply elem_of_nil in Hk.
  - rewrite fmap_cons. cbn [foldr].
    pose proof (pair_count_nonneg tokens k i j).
    pose proof (pair_count_nonneg tokens k j i).
    pose proof (offsets_sum_nonneg tokens ks i j) as Hrest.
    split.
    + intros Hpos.
      destruct (decide (0 < pair_count tokens k i j + pair_count tokens k j i))
        as [Hk|Hk].
      * exists k. split; [left|lia].
      * assert (Hks : 0 < foldr Z.add 0
                  ((fun k => pair_count tokens k i j + pair_count tokens k j i)
                     <$> ks)) by lia.
        apply IH in Hks as (k' & Hk' & Hp). exists k'. split; [by right|done].
    + intros (k' & [->|Hk']%elem_of_cons & Hp); [lia|].
      assert (0 < foldr Z.add 0
                ((fun k => pair_count tokens k i j + pair_count tokens k j i)
                   <$> ks)) by (apply IH; eauto).
      lia.
Qed.

(** X18.  For tokens in the vocabulary, the entry [(i, j)] of the matrix
    is not zero exactly when [i] and [j] stand, in one order or the other,
    at two positions of the stream that are [k] apart for some [k] between
    1 and [K]; and those are exactly the entries that are stored. *)
Theorem cooccurrence_matrix_support tokens (V : nat) (K : Z) :
  in_vocabulary V tokens ->
  exists C,
    cooccurrence_matrix tokens V K = Ok C
    /\ forall i j,
         (entry C i j <> 0
          <-> exists k l,
                (1 <= k)%nat /\ Z.of_nat k <= K
                /\ ((tokens !! l = Some i /\ tokens !! (l + k)%nat = Some j)
                    \/ (tokens !! l = Some j
                        /\ tokens !! (l + k)%nat = Some i)))
         /\ (is_Some (data C !! (i, j)) <-> entry C i j <> 0).
Proof.
  intros Hv.
  destruct (cooccurrence_matrix_returns tokens V K Hv) as (C & HC & Hent).
  destruct (cooccurrence_matrix_canonical tokens V K C HC) as [_ Hz].
  exists C. split; [exact HC|]. intros i j. split.
  - rewrite Hent. unfold window_count.
    pose proof (offsets_sum_nonneg tokens (range1 K) i j) as H0.
    transitivity (0 < foldr Z.add 0
        ((fun k => pair_count tokens k i j + pair_count tokens k j i)
           <$> range1 K)); [lia|].
    rewrite offsets_sum_positive. unfold range1. split.
    + intros (k & Hk%elem_of_seq & Hp). rewrite !pair_count_positive in Hp.
      destruct Hp as [(l & Hl)|(l & Hl)]; exists k, l;
        (split; [lia|]); (split; [lia|]); tauto.
    + intros (k & l & Hk1 & Hk2 & Hp). exists k. split.
      * apply elem_of_seq. lia.
      * rewrite !pair_count_positive. destruct Hp; eauto.
  - unfold entry. split.
    + intros [v Hv']. rewrite Hv'. simpl. by apply (Hz (i, j)).
    + destruct (data C !! (i, j)); [eauto|done].
Qed.

Lemma cooccurrence_matrix_support_witness :
  in_vocabulary 8 toy_token_ids
  /\ exists C,
       cooccurrence_matrix toy_token_ids 8 1 = Ok C
       /\ forall i j,
            (entry C i j <> 0
             <-> exists k l,
                   (1 <= k)%nat /\ Z.of_nat k <= 1
                   /\ ((toy_token_ids !! l = Some i
                        /\ toy_token_ids !! (l + k)%nat = Some j)
                       \/ (toy_token_ids !! l = Some j
                           /\ toy_token_ids !! (l + k)%nat = Some i)))
            /\ (is_Some (data C !! (i, j)) <-> entry C i j <> 0).
Proof.
  split; [exact toy_in_vocabulary|].
  apply (cooccurrence_matrix_support toy_token_ids 8 1).
  exact toy_in_vocabulary.
Defined.

End Support.

Section Total_mass.

#[local] Open Scope Z_scope.

Implicit Types (tokens : list Z) (k : nat) (ks : list nat)
  (keys ps : list (Z * Z)).

Lemma Rsum_IZR (l : list Z) : Rsum (IZR <$> l) = IZR (foldr Z.add 0 l).
Proof.
  induction l as [|x l IH]; [reflexivity|].
  rewrite fmap_cons. unfold Rsum in *. cbn [foldr]. by rewrite IH, plus_IZR.
Qed.

(** The total of the matrix read as floats is the total of its counts. *)
Lemma sum_to_float64 (C : matrix Z) :
  F64.sum (to_float64 C) = IZR (total C).
Proof.
  unfold F64.sum, F64.tocoo, to_float64, total. cbn [data].
  rewrite map_to_list_fmap, <- Rsum_IZR. f_equal.
  rewrite <- !list_fmap_compose. reflexivity.
Qed.

Lemma stored_total (C : matrix Z) :
  foldr Z.add 0 (map_to_list (data C)).*2
  = foldr Z.add 0 ((fun p => entry C p.1 p.2) <$> (map_to_list (data C)).*1).
Proof.
  f_equal. rewrite <- list_fmap_compose. apply list_fmap_ext.
  intros n [[i j] v] Hn. simpl. unfold entry.
  apply list_elem_of_lookup_2, elem_of_map_to_list in Hn. by rewrite Hn.
Qed.

Lemma sum_plus {A : Type} (f g : A -> Z) (l : list A) :
  foldr Z.add 0 ((fun x => f x + g x) <$> l)
  = foldr Z.add 0 (f <$> l) + foldr Z.add 0 (g <$> l).
Proof. induction l as [|x l IH]; [reflexivity|]. rewrite !fmap_cons. simpl. lia. Qed.

Lemma sum_swap {A : Type} (g : nat -> A -> Z) ks (l : list A) :
  foldr Z.add 0 ((fun x => foldr Z.add 0 ((fun k => g k x) <$> ks)) <$> l)
  = foldr Z.add 0 ((fun k => foldr Z.add 0 (g k <$> l)) <$> ks).
Proof.
  induction ks as [|k ks IH].
  - simpl. induction l as [|x l IHl]; [reflexivity|].
    rewrite fmap_cons. simpl. lia.
  - rewrite fmap_cons. cbn [foldr]. rewrite <- IH, <- sum_plus.
    f_equal.
Qed.

Lemma indicator_total (g : Z * Z -> Z * Z) `{!Inj (=) (=) g} keys (q : Z * Z) :
  NoDup keys -> (exists p, p ∈ keys /\ g p = q) ->
  foldr Z.add 0 ((fun p => if decide (g p = q) then 1 else 0) <$> keys) = 1.
Proof.
  induction 1 as [|p keys Hp _ IH]; intros (p0 & Hp0 & Hg).
  - by apply elem_of_nil in Hp0.
  - rewrite fmap_cons. cbn [foldr]. destruct (decide (g p = q)) as [Hq|Hq].
    + assert (Hrest : foldr Z.add 0
                ((fun p => if decide (g p = q) then 1 else 0) <$> keys) = 0).
      { clear IH Hp0. induction keys as [|p' keys IH']; [reflexivity|].
        rewrite fmap_cons. cbn [foldr].
        destruct (decide (g p' = q)) as [Hq'|_].
        - destruct Hp. assert (p' = p) as -> by (apply (inj g); congruence).
          left.
        - rewrite IH'; [reflexivity|]. intros Hin. apply Hp. by right. }
      lia.
    + apply elem_of_cons in Hp0 as [->|Hp0]; [done|].
      rewrite IH by eauto. lia.
Qed.

(** Summed over keys that cover a list without repetition, the
    occurrences add up to the length of the list. *)
Lemma occurrences_total (g : Z * Z -> Z * Z) `{!Inj (=) (=) g} keys ps :
  NoDup keys -> (forall q, q ∈ ps -> exists p, p ∈ keys /\ g p = q) ->
  foldr Z.add 0 ((fun p => occurrences (g p) ps) <$> keys)
  = Z.of_nat (length ps).
Proof.
  intros Hnd. induction ps as [|q ps IH]; intros Hcover.
  - clear. induction keys as [|p keys IHk]; [reflexivity|].
    rewrite fmap_cons. cbn [foldr]. rewrite IHk. reflexivity.
  - transitivity (foldr Z.add 0
      ((fun p => (if decide (g p = q) then 1 else 0) + occurrences (g p) ps)
         <$> keys)).
    + f_equal. apply list_fmap_ext. intros _ p _. unfold occurrences.
      destruct (decide (g p = q)) as [Hq|Hq].
      * rewrite filter_cons_True by done. simpl length. lia.
      * rewrite filter_cons_False by done. lia.
    + rewrite sum_plus.
      rewrite (indicator_total g keys q Hnd) by (apply Hcover; by left).
      rewrite IH by (intros q' Hq'; apply Hcover; by right).
      simpl length. lia.
Qed.

Lemma occurrences_positive (p : Z * Z) ps : p ∈ ps -> 0 < occurrences p ps.
Proof.
  intros Hp. unfold occurrences.
  assert (Hin : p ∈ filter (eq p) ps) by (by apply list_elem_of_filter).
  destruct (filter (eq p) ps); [by apply elem_of_nil in Hin|]. simpl. lia.
Qed.

(** The total mass of the matrix depends on nothing but the length of
    the stream and the window: twice the sum over the offsets [k] in
    [1..K] of [max(0, n - k)]. *)
Lemma window_total tokens (V : nat) (K : Z) (C : matrix Z) :
  in_vocabulary V tokens ->
  cooccurrence_matrix tokens V K = Ok C ->
  total C
  = 2 * foldr Z.add 0
          ((fun k => Z.of_nat (length tokens - k)) <$> range1 K).
Proof.
  intros Hv HC.
  destruct (cooccurrence_matrix_returns tokens V K Hv) as (C0 & HC0 & Hent).
  rewrite HC in HC0. injection HC0 as <-.
  unfold total. rewrite stored_total.
  set (keys := (map_to_list (data C)).*1).
  assert (Hnd : NoDup keys) by apply NoDup_fst_map_to_list.
  assert (Hkeys : forall i j, 0 < entry C i j -> (i, j) ∈ keys).
  { intros i j Hpos. unfold entry in Hpos.
    destruct (data C !! (i, j)) as [v|] eqn:Hv'; [|simpl in Hpos; lia].
    apply list_elem_of_fmap. exists (i, j, v). split; [reflexivity|].
    by apply elem_of_map_to_list. }
  transitivity (foldr Z.add 0
    ((fun p => foldr Z.add 0
        ((fun k => pair_count tokens k p.1 p.2 + pair_count tokens k p.2 p.1)
           <$> range1 K)) <$> keys)).
  { f_equal. apply list_fmap_ext. intros _ p _. apply Hent. }
  rewrite (sum_swap
    (fun k p => pair_count tokens k p.1 p.2 + pair_count tokens k p.2 p.1)).
  assert (Hper : forall k, k ∈ range1 K ->
            foldr Z.add 0
              ((fun p => pair_count tokens k p.1 p.2
                         + pair_count tokens k p.2 p.1) <$> keys)
            = 2 * Z.of_nat (length tokens - k)).
  { intros k Hk.
    set (ps := zip (take (length tokens - k) tokens) (drop k tokens)).
    assert (Hlen : length ps = (length tokens - k)%nat).
    { unfold ps. rewrite length_zip_with, length_take, length_drop. lia. }
    assert (Hin : forall a b, (a, b) ∈ ps ->
              0 < entry C a b /\ 0 < entry C b a).
    { intros a b Hab. apply occurrences_positive in Hab.
      unfold ps in Hab. rewrite occurrences_offset in Hab.
      rewrite !Hent. unfold window_count.
      split; apply offsets_sum_positive; exists k; (split; [done|]); auto. }
    rewrite sum_plus.
    assert (E1 : (fun p => pair_count tokens k p.1 p.2) <$> keys
                 = (fun p => occurrences (Datatypes.id p) ps) <$> keys)
      by (apply list_fmap_ext; intros _ [a b] _; symmetry;
          apply occurrences_offset).
    assert (E2 : (fun p => pair_count tokens k p.2 p.1) <$> keys
                 = (fun p => occurrences (prod_swap p) ps) <$> keys)
      by (apply list_fmap_ext; intros _ [a b] _; symmetry;
          apply occurrences_offset).
    rewrite E1, E2.
    rewrite (occurrences_total Datatypes.id keys ps Hnd).
    2:{ intros [a b] Hab. exists (a, b). split; [|reflexivity].
        apply Hkeys. by destruct (Hin a b Hab). }
    rewrite (occurrences_total prod_swap keys ps Hnd).
    2:{ intros [a b] Hab. exists (b, a). split; [|reflexivity].
        apply Hkeys. by destruct (Hin a b Hab). }
    lia. }
  clear Hent Hkeys.
  induction (range1 K) as [|k ks IH]; [reflexivity|].
  rewrite !fmap_cons. cbn [foldr].
  rewrite Hper by left. rewrite IH; [lia|].
  intros k' Hk'. apply Hper. by right.
Qed.

End Total_mass.

(** * The co-occurrence matrix, as it runs *)

(** ** Rounded sums *)

Section Rounded_sums.

#[local] Open Scope Z_scope.

Implicit Types (tokens : list Z) (C : matrix Z) (k : nat) (ks : list nat).

(** Up to 2^24 an integer is a [float32]. *)
Lemma float32_exact (z : Z) : Z.abs z <= 2 ^ 24 -> Run.float32 z = z.
Proof.
  intros Hz. unfold Run.float32.
  destruct (Z.leb_spec (Z.abs z) (2 ^ 24)); [reflexivity|lia].
Qed.

Lemma ones_sum_exact (n : nat) :
  Z.of_nat n <= 2 ^ 24 -> Run.ones_sum n = Z.of_nat n.
Proof.
  induction n as [|n IH]; intros Hn; [reflexivity|].
  unfold Run.ones_sum in *. rewrite Nat.iter_succ, IH by lia.
  rewrite float32_exact; lia.
Qed.

Lemma run_sum_duplicates_cons (pv : Z * Z * Z) (l : list (Z * Z * Z)) :
  Run.sum_duplicates (pv :: l)
  = <[pv.1 := Run.float32 (pv.2 + default 0 (Run.sum_duplicates l !! pv.1))]>
      (Run.sum_duplicates l).
Proof. reflexivity. Qed.

(** A coordinate given [n] times holds the rounded sum of [n] ones. *)
Lemma run_sum_duplicates_ones (ps : list (Z * Z)) (p : Z * Z) :
  default 0 (Run.sum_duplicates ((fun q => (q, 1)) <$> ps) !! p)
  = Run.ones_sum (length (filter (eq p) ps)).
Proof.
  induction ps as [|q ps IH].
  - simpl. by rewrite lookup_empty.
  - rewrite fmap_cons, run_sum_duplicates_cons. cbn [fst snd].
    destruct (decide (p = q)) as [->|Hne].
    + rewrite lookup_insert_eq, filter_cons_True by done.
      cbn [length]. simpl default. rewrite IH.
      unfold Run.ones_sum. by rewrite Nat.iter_succ.
    + rewrite lookup_insert_ne, filter_cons_False by done. exact IH.
Qed.

Lemma run_sum_duplicates_stored (l : list (Z * Z * Z)) (p : Z * Z) :
  is_Some (Run.sum_duplicates l !! p) -> p ∈ l.*1.
Proof.
  induction l as [|[q v] l IH].
  - simpl. rewrite lookup_empty. by intros [? ?].
  - rewrite run_sum_duplicates_cons, fmap_cons. cbn [fst snd].
    destruct (decide (q = p)) as [->|Hne]; [left|].
    rewrite lookup_insert_ne by done. right. auto.
Qed.

Lemma run_zip_ones (ps : list (Z * Z)) (xs : list Z) :
  length ps = length xs ->
  zip ps (Run.float32 <$> ones_like xs) = (fun p => (p, 1)) <$> ps.
Proof.
  revert xs. induction ps as [|p ps IH]; intros [|x xs] Hlen;
    simpl in *; try discriminate; [reflexivity|].
  f_equal. apply IH. lia.
Qed.

Lemma run_entry_add (a b : matrix Z) (i j : Z) :
  entry (Run.add a b) i j = Run.float32 (entry a i j + entry b i j).
Proof.
  unfold entry, Run.add; simpl. rewrite lookup_merge.
  destruct (data a !! (i, j)) as [x|], (data b !! (i, j)) as [y|];
    simpl; try reflexivity;
    match goal with
    | |- context [(?s =? 0)] =>
        destruct (Z.eqb_spec s 0) as [E|E]; simpl; [by rewrite E|reflexivity]
    end.
Qed.

Lemma run_add_stored (a b : matrix Z) p v :
  data (Run.add a b) !! p = Some v ->
  is_Some (data a !! p) \/ is_Some (data b !! p).
Proof.
  unfold Run.add; simpl. rewrite lookup_merge.
  destruct (data a !! p), (data b !! p); simpl; eauto.
Qed.

Lemma run_add_no_stored_zero (a b : matrix Z) : no_stored_zero (Run.add a b).
Proof.
  intros p v. unfold Run.add. cbn [data]. rewrite lookup_merge.
  destruct (data a !! p) as [x|], (data b !! p) as [y|]; simpl;
    try discriminate;
    match goal with
    | |- context [(?s =? 0)] => destruct (Z.eqb_spec s 0)
    end; intros [= <-]; done.
Qed.

End Rounded_sums.

(** ** The conversion of the tokens to indices *)

Section Index_arrays.

#[local] Open Scope Z_scope.

Implicit Types (tokens l : list Z) (C : matrix Z) (k : nat) (V : nat).

Lemma forallb_int64 l :
  forallb Run.int64 l = true <-> Forall (fun t => Run.int64 t = true) l.
Proof.
  rewrite forallb_forall, Forall_forall.
  split; intros H t Ht; apply H; by apply list_elem_of_In.
Qed.

Lemma as_index_converts shp l :
  Forall (fun t => Run.int64 t = true) l ->
  Run.as_index shp l = Ok (Run.stored_index shp <$> l).
Proof.
  intros Hl%forallb_int64. unfold Run.as_index. by rewrite Hl.
Qed.

Lemma as_index_overflows shp l :
  ~ Forall (fun t => Run.int64 t = true) l ->
  Run.as_index shp l = Raise OverflowError.
Proof.
  intros Hl. unfold Run.as_index.
  destruct (forallb Run.int64 l) eqn:E; [|reflexivity].
  by apply forallb_int64 in E.
Qed.

(** An index array of 32-bit integers keeps the tokens that fit 32 bits;
    one of 64-bit integers keeps every token. *)
Lemma stored_index_int32 shp (t : Z) :
  - 2 ^ 31 <= t < 2 ^ 31 -> Run.stored_index shp t = t.
Proof.
  intros Ht. unfold Run.stored_index, Run.int32_wrap.
  destruct (Run.int32_indices shp); [|reflexivity].
  rewrite Z.mod_small by lia. lia.
Qed.

Lemma stored_index_vocabulary V (t : Z) :
  0 <= t < Z.of_nat V -> Run.stored_index (V, V) t = t.
Proof.
  intros Ht. unfold Run.stored_index, Run.int32_indices. cbn [fst snd].
  destruct (Z.leb_spec (Z.of_nat (V `max` V)) (2 ^ 31 - 1)); [|reflexivity].
  unfold Run.int32_wrap. rewrite Z.mod_small by lia. lia.
Qed.

(** The tokens of a vocabulary that fits an array dimension are accepted,
    and stored as they are. *)
Lemma vocabulary_accepted V tokens :
  in_vocabulary V tokens -> Z.of_nat V <= 2 ^ 63 ->
  accepted V tokens /\ Run.stored_index (V, V) <$> tokens = tokens.
Proof.
  intros Hv HV.
  assert (Hid : Run.stored_index (V, V) <$> tokens = tokens).
  { rewrite <- (list_fmap_id tokens) at 2. apply list_fmap_ext.
    intros n t Hn. apply stored_index_vocabulary.
    unfold in_vocabulary in Hv. rewrite Forall_lookup in Hv.
    exact (Hv n t Hn). }
  split; [|exact Hid]. split; [|by rewrite Hid].
  eapply Forall_impl; [exact Hv|]. simpl. intros t Ht.
  unfold Run.int64. apply andb_true_iff. lia.
Qed.

(** With at least two tokens, the two slices of offset 1 cover the
    stream. *)
Lemma Forall_slices (P : Z -> Prop) tokens :
  (2 <= length tokens)%nat ->
  Forall P (take (length tokens - 1) tokens) ->
  Forall P (drop 1 tokens) ->
  Forall P tokens.
Proof.
  rewrite !Forall_lookup. intros Hlen Ht Hd p t Hp.
  destruct (decide (p < length tokens - 1)%nat) as [Hlt|Hge].
  - apply (Ht p). by rewrite lookup_take_lt.
  - apply (Hd (p - 1)%nat). rewrite lookup_drop.
    apply lookup_lt_Some in Hp as Hlt.
    by replace (1 + (p - 1))%nat with p by lia.
Qed.

End Index_arrays.

(** ** The loop *)

Section Run_loop.

#[local] Open Scope Z_scope.

Implicit Types (tokens : list Z) (C : matrix Z) (k : nat) (ks : list nat)
  (V : nat).

(** On accepted tokens the constructor succeeds, and the forward matrix
    holds, for each pair of stored indices, the rounded sum of as many
    ones as the pair has occurrences at the offset. *)
Lemma run_forward_matrix tokens V k :
  accepted V tokens ->
  exists F,
    Run.csc_matrix (ones_like (take (length tokens - k) tokens))
      (take (length tokens - k) tokens) (drop k tokens) (V, V)
    = Ok F
    /\ shape F = (V, V)
    /\ forall x y,
         entry F x y
         = Run.ones_sum
             (Z.to_nat
                (pair_count (Run.stored_index (V, V) <$> tokens) k x y)).
Proof.
  intros [H64 Hv]. unfold Run.csc_matrix.
  rewrite !as_index_converts by (by apply Forall_take || by apply Forall_drop).
  simpl bind. rewrite !fmap_take, !fmap_drop.
  set (stored := Run.stored_index (V, V) <$> tokens) in *.
  assert (Hlen : length tokens = length stored)
    by (unfold stored; by rewrite length_fmap).
  rewrite Hlen. cbn [fst snd].
  assert (H1 : forallb (index_ok V) (take (length stored - k) stored) = true)
    by (apply forallb_index_ok, Forall_take, Hv).
  assert (H2 : forallb (index_ok V) (drop k stored) = true)
    by (apply forallb_index_ok, Forall_drop, Hv).
  rewrite H1, H2. unfold ones_like at 1. rewrite length_fmap.
  rewrite !length_take, length_drop, Hlen.
  replace ((length stored - k) `min` length stored)%nat
    with (length stored - k)%nat by lia.
  rewrite !Nat.eqb_refl. simpl.
  eexists; split; [reflexivity|]. split; [reflexivity|].
  intros x y. unfold entry; simpl.
  rewrite run_zip_ones
    by (rewrite length_zip_with, !length_take, length_drop; lia).
  rewrite run_sum_duplicates_ones. f_equal.
  rewrite <- (occurrences_offset stored k x y). unfold occurrences.
  by rewrite Nat2Z.id.
Qed.

(** What one iteration does to an entry. *)
Lemma run_step tokens V C k :
  accepted V tokens -> shape C = (V, V) ->
  exists C', Run.cooccurrence_step tokens C k = Ok C'
    /\ shape C' = (V, V) /\ no_stored_zero C'
    /\ forall x y,
         entry C' x y
         = Run.float32
             (entry C x y
              + rounded_pairs (Run.stored_index (V, V) <$> tokens) k x y).
Proof.
  intros Ha Hs.
  destruct (run_forward_matrix tokens V k Ha) as (F & HF & _ & Hent).
  unfold Run.cooccurrence_step. rewrite Hs, HF. simpl.
  eexists; split; [reflexivity|]. split; [exact Hs|].
  split; [apply run_add_no_stored_zero|].
  intros x y. unfold rounded_pairs.
  by rewrite !run_entry_add, entry_transpose, !Hent.
Qed.

(** On accepted tokens the loop returns, and every entry is the rounded
    accumulation of the rounded pair counts of the offsets visited. *)
Lemma run_loop tokens V ks : forall C,
  accepted V tokens -> shape C = (V, V) -> no_stored_zero C ->
  exists C', Run.cooccurrence_loop tokens C ks = Ok C'
    /\ shape C' = (V, V) /\ no_stored_zero C'
    /\ forall x y,
         entry C' x y
         = accumulate (Run.stored_index (V, V) <$> tokens) x y
             (entry C x y) ks.
Proof.
  induction ks as [|k ks IH]; intros C Ha Hs Hz.
  - exists C. by repeat split.
  - destruct (run_step tokens V C k Ha Hs) as (C1 & HC1 & Hs1 & Hz1 & Hent).
    destruct (IH C1 Ha Hs1 Hz1) as (C' & HC' & Hs' & Hz' & Hent').
    exists C'. split; [|split; [exact Hs'|split; [exact Hz'|]]].
    + simpl. rewrite HC1. exact HC'.
    + intros x y. rewrite Hent', Hent. reflexivity.
Qed.

Lemma run_returns tokens V (K : Z) :
  accepted V tokens ->
  exists C, Run.cooccurrence_matrix tokens V K = Ok C
    /\ shape C = (V, V) /\ no_stored_zero C
    /\ forall i j,
         entry C i j
         = accumulate (Run.stored_index (V, V) <$> tokens) i j 0 (range1 K).
Proof.
  intros Ha. unfold Run.cooccurrence_matrix.
  destruct (run_loop tokens V (range1 K) (zeros (V, V)) Ha eq_refl)
    as (C & HC & Hs & Hz & Hent).
  { intros p v Hp. cbn in Hp. by rewrite lookup_empty in Hp. }
  exists C. split; [exact HC|]. split; [exact Hs|]. split; [exact Hz|].
  intros i j. by rewrite Hent, entry_zeros.
Qed.

(** While the sum stays within 2^24 no addition rounds. *)
Lemma rounded_pairs_exact tokens k i j :
  pair_count tokens k i j + pair_count tokens k j i <= 2 ^ 24 ->
  rounded_pairs tokens k i j
  = pair_count tokens k i j + pair_count tokens k j i.
Proof.
  intros Hb. unfold rounded_pairs.
  pose proof (pair_count_nonneg tokens k i j).
  pose proof (pair_count_nonneg tokens k j i).
  rewrite !ones_sum_exact by lia. rewrite !Z2Nat.id by lia.
  apply float32_exact. lia.
Qed.

Lemma accumulate_exact tokens i j ks : forall c,
  0 <= c ->
  c + foldr Z.add 0
        ((fun k => pair_count tokens k i j + pair_count tokens k j i) <$> ks)
  <= 2 ^ 24 ->
  accumulate tokens i j c ks
  = c + foldr Z.add 0
          ((fun k => pair_count tokens k i j + pair_count tokens k j i)
             <$> ks).
Proof.
  induction ks as [|k ks IH]; intros c Hc Hb.
  - simpl. lia.
  - rewrite fmap_cons in *. cbn [foldr accumulate] in *.
    pose proof (pair_count_nonneg tokens k i j).
    pose proof (pair_count_nonneg tokens k j i).
    pose proof (offsets_sum_nonneg tokens ks i j).
    rewrite rounded_pairs_exact by lia.
    rewrite float32_exact by lia.
    rewrite IH by lia. lia.
Qed.

(** Below 2^24 the rounded function and the exact one return the same
    matrix. *)
Lemma run_agrees tokens V (K : Z) :
  in_vocabulary V tokens -> Z.of_nat V <= 2 ^ 63 ->
  (forall i j, window_count tokens K i j <= 2 ^ 24) ->
  Run.cooccurrence_matrix tokens V K = cooccurrence_matrix tokens V K.
Proof.
  intros Hv HV Hb.
  destruct (vocabulary_accepted V tokens Hv HV) as [Ha Hid].
  destruct (run_returns tokens V K Ha) as (C & HC & Hs & Hz & Hent).
  destruct (cooccurrence_matrix_returns tokens V K Hv) as (C' & HC' & Hent').
  destruct (cooccurrence_matrix_canonical tokens V K C' HC') as [Hs' Hz'].
  rewrite HC, HC'. f_equal.
  apply matrix_ext; [congruence|done|done|]. intros i j.
  rewrite Hent, Hent', Hid.
  rewrite accumulate_exact; [reflexivity|lia|]. apply (Hb i j).
Qed.

End Run_loop.

(** ** A stream of one repeated token *)

Section Constant_stream.

#[local] Open Scope Z_scope.

Lemma filter_replicate (p : Z * Z) (n : nat) :
  filter (eq p) (replicate n p) = replicate n p.
Proof.
  induction n as [|n IH]; [reflexivity|].
  simpl replicate. by rewrite filter_cons_True, IH by done.
Qed.

Lemma pair_count_constant (n k : nat) :
  pair_count (replicate n 0) k 0 0 = Z.of_nat (n - k).
Proof.
  rewrite <- occurrences_offset.
  rewrite length_replicate, take_replicate, drop_replicate.
  replace ((n - k) `min` n)%nat with (n - k)%nat by lia.
  rewrite zip_with_replicate. unfold occurrences.
  by rewrite filter_replicate, length_replicate.
Qed.

Lemma accumulate_fold tokens i j (f : nat -> Z) ks : forall c,
  (forall k, k ∈ ks -> rounded_pairs tokens k i j = f k) ->
  accumulate tokens i j c ks
  = fold_left (fun c k => Run.float32 (c + f k)) ks c.
Proof.
  induction ks as [|k ks IH]; intros c Hf; [reflexivity|].
  cbn [accumulate fold_left]. rewrite (Hf k) by left.
  apply IH. intros k' Hk'. apply Hf. by right.
Qed.

(** The count of the pair (0, 0) in a stream of [n] zeros: what the code
    accumulates, and what the definition of the count gives. *)
Lemma constant_stream (n : nat) (K : Z) :
  Z.of_nat n <= 2 ^ 23 ->
  in_vocabulary 1 (replicate n 0)
  /\ exists C,
       Run.cooccurrence_matrix (replicate n 0) 1 K = Ok C
       /\ entry C 0 0
          = fold_left
              (fun c k => Run.float32 (c + Run.float32 (2 * Z.of_nat (n - k))))
              (range1 K) 0
       /\ window_count (replicate n 0) K 0 0
          = foldr Z.add 0 ((fun k => 2 * Z.of_nat (n - k)) <$> range1 K).
Proof.
  intros Hn.
  assert (Hv : in_vocabulary 1 (replicate n 0)).
  { apply Forall_forall. intros t Ht%elem_of_replicate. lia. }
  split; [exact Hv|].
  destruct (vocabulary_accepted 1 _ Hv) as [Ha Hid]; [lia|].
  destruct (run_returns (replicate n 0) 1 K Ha) as (C & HC & _ & _ & Hent).
  exists C. split; [exact HC|]. split.
  - rewrite Hent, Hid. apply accumulate_fold. intros k _.
    unfold rounded_pairs. rewrite !pair_count_constant, Nat2Z.id.
    rewrite ones_sum_exact by lia. f_equal. lia.
  - unfold window_count. f_equal. apply list_fmap_ext. intros _ k _.
    rewrite pair_count_constant. lia.
Qed.

End Constant_stream.

(** ** Tokens that the constructor does not accept *)

Section Rejected_tokens.

#[local] Open Scope Z_scope.

Implicit Types (tokens : list Z) (C : matrix Z) (k : nat) (ks : list nat)
  (V : nat).

Lemma run_step_overflows tokens C :
  (2 <= length tokens)%nat ->
  ~ Forall (fun t => Run.int64 t = true) tokens ->
  Run.cooccurrence_step tokens C 1 = Raise OverflowError.
Proof.
  intros Hlen Hbad. unfold Run.cooccurrence_step, Run.csc_matrix, Run.as_index.
  destruct (forallb Run.int64 (take (length tokens - 1) tokens)) eqn:E1;
    [|reflexivity].
  simpl bind.
  destruct (forallb Run.int64 (drop 1 tokens)) eqn:E2; [|reflexivity].
  exfalso. apply Hbad, Forall_slices; [done| |]; by apply forallb_int64.
Qed.

Lemma run_step_rejects V tokens C :
  shape C = (V, V) -> (2 <= length tokens)%nat ->
  Forall (fun t => Run.int64 t = true) tokens ->
  ~ in_vocabulary V (Run.stored_index (V, V) <$> tokens) ->
  Run.cooccurrence_step tokens C 1 = Raise ValueError.
Proof.
  intros Hs Hlen H64 Hbad. unfold Run.cooccurrence_step, Run.csc_matrix.
  rewrite !as_index_converts by (by apply Forall_take || by apply Forall_drop).
  simpl bind. rewrite Hs. cbn [fst snd]. rewrite !fmap_take, !fmap_drop.
  set (stored := Run.stored_index (V, V) <$> tokens) in *.
  assert (Hl : length tokens = length stored)
    by (unfold stored; by rewrite length_fmap).
  rewrite Hl.
  destruct (forallb (index_ok V) (take (length stored - 1) stored)) eqn:E1;
    [|by rewrite andb_false_r].
  destruct (forallb (index_ok V) (drop 1 stored)) eqn:E2;
    [|by rewrite andb_false_r].
  exfalso. apply Hbad. unfold in_vocabulary.
  apply Forall_slices; [lia| |]; by apply forallb_index_ok.
Qed.

Lemma run_forward_coordinates V tokens k (F : matrix Z) :
  Run.csc_matrix (ones_like (take (length tokens - k) tokens))
    (take (length tokens - k) tokens) (drop k tokens) (V, V) = Ok F ->
  coordinates_from V (Run.stored_index (V, V) <$> tokens) F.
Proof.
  unfold Run.csc_matrix, Run.as_index.
  destruct (forallb Run.int64 (take (length tokens - k) tokens));
    [|discriminate].
  simpl bind.
  destruct (forallb Run.int64 (drop k tokens)); [|discriminate].
  simpl bind. cbn [fst snd].
  destruct (_ && _) eqn:E; [|discriminate]. intros [= <-] p v Hp.
  simpl in Hp.
  apply andb_prop in E as [E H2]. apply andb_prop in E as [_ H1].
  apply forallb_index_ok in H1, H2.
  apply mk_is_Some, run_sum_duplicates_stored in Hp.
  apply list_elem_of_fmap in Hp as ([q one] & -> & Hq).
  apply elem_of_zip_l in Hq. destruct q as [x y]. simpl.
  pose proof (elem_of_zip_l _ _ _ _ Hq) as Hx.
  pose proof (elem_of_zip_r _ _ _ _ Hq) as Hy.
  unfold in_vocabulary in H1, H2. rewrite Forall_forall in H1, H2.
  repeat split; try apply (H1 x Hx); try apply (H2 y Hy).
  - rewrite fmap_take in Hx. eapply in_take; eauto.
  - rewrite fmap_drop in Hy. eapply in_drop; eauto.
Qed.

Lemma run_step_adds tokens C k C' :
  Run.cooccurrence_step tokens C k = Ok C' ->
  exists F : matrix Z,
    Run.csc_matrix (ones_like (take (length tokens - k) tokens))
      (take (length tokens - k) tokens) (drop k tokens) (shape C) = Ok F
    /\ C' = Run.add C (Run.add F (transpose F)).
Proof.
  unfold Run.cooccurrence_step.
  destruct (Run.csc_matrix _ _ _ _) as [F|e]; simpl; [|discriminate].
  intros [= <-]. by exists F.
Qed.

Lemma run_step_coordinates V tokens C k C' :
  shape C = (V, V)
  /\ coordinates_from V (Run.stored_index (V, V) <$> tokens) C ->
  Run.cooccurrence_step tokens C k = Ok C' ->
  shape C' = (V, V)
  /\ coordinates_from V (Run.stored_index (V, V) <$> tokens) C'.
Proof.
  intros [Hs HC] (F & HF & ->)%run_step_adds. split; [exact Hs|].
  rewrite Hs in HF. apply run_forward_coordinates in HF.
  intros p v [Hp|Hp]%run_add_stored.
  - destruct Hp as [w Hw]. exact (HC p w Hw).
  - destruct Hp as [w [Hw|Hw]%run_add_stored].
    + destruct Hw as [u Hu]. exact (HF p u Hu).
    + destruct Hw as [u Hu%transpose_stored].
      destruct (HF _ _ Hu) as ((? & ?) & ? & ?). destruct p; simpl in *.
      tauto.
Qed.

Lemma run_loop_invariant (P : matrix Z -> Prop) tokens :
  (forall C k C', P C -> Run.cooccurrence_step tokens C k = Ok C' -> P C') ->
  forall ks C C', P C -> Run.cooccurrence_loop tokens C ks = Ok C' -> P C'.
Proof.
  intros Hstep. induction ks as [|k ks IH]; intros C C' HP; simpl.
  - by intros [= <-].
  - destruct (Run.cooccurrence_step tokens C k) as [C1|e] eqn:E; simpl;
      [|discriminate].
    apply IH. by apply (Hstep C k).
Qed.

(** On a stream of at least two tokens and a window [K >= 1], the first
    iteration decides. *)
Lemma run_rejects tokens V (K : Z) :
  (2 <= length tokens)%nat -> 1 <= K ->
  (~ Forall (fun t => Run.int64 t = true) tokens ->
   Run.cooccurrence_matrix tokens V K = Raise OverflowError)
  /\ (Forall (fun t => Run.int64 t = true) tokens ->
      ~ in_vocabulary V (Run.stored_index (V, V) <$> tokens) ->
      Run.cooccurrence_matrix tokens V K = Raise ValueError).
Proof.
  intros Hlen HK. unfold Run.cooccurrence_matrix.
  rewrite range1_positive by done. simpl. split.
  - intros Hbad. by rewrite run_step_overflows.
  - intros H64 Hbad. by rewrite (run_step_rejects V).
Qed.

End Rejected_tokens.

(** * Claims on the co-occurrence matrix *)

Section Cooccurrence_as_run.

#[local] Open Scope Z_scope.

Implicit Types (tokens : list Z) (C : matrix Z) (k : nat) (V : nat).

(** A count is at most twice the length of the stream for each offset of
    the window. *)
Lemma pair_count_le tokens k i j :
  pair_count tokens k i j <= Z.of_nat (length tokens).
Proof.
  unfold pair_count.
  pose proof (length_filter
    (fun l => tokens !! l = Some i /\ tokens !! (l + k)%nat = Some j)
    (seq 0 (length tokens))) as H.
  rewrite length_seq in H. lia.
Qed.

Lemma window_count_le tokens (K : Z) i j :
  window_count tokens K i j
  <= 2 * Z.of_nat (length tokens) * Z.of_nat (length (range1 K)).
Proof.
  unfold window_count. induction (range1 K) as [|k ks IH]; [simpl; lia|].
  rewrite fmap_cons. cbn [foldr length].
  pose proof (pair_count_le tokens k i j).
  pose proof (pair_count_le tokens k j i). lia.
Qed.

(** C1, as the specification words it, fails: the counts are [float32]
    numbers, and past 2^24 an addition rounds.  In a stream of 5794 equal
    tokens with the window 5793 the pair (0, 0) is counted 33564642 times,
    and the entry that the code accumulates is 33564744. *)
Lemma float32_counts_round :
  in_vocabulary 1 (repeated 5794)
  /\ exists C,
       Run.cooccurrence_matrix (repeated 5794) 1 5793 = Ok C
       /\ entry C 0 0 = 33564744
       /\ window_count (repeated 5794) 5793 0 0 = 33564642.
Proof.
  unfold repeated.
  destruct (constant_stream (Z.to_nat 5794) 5793) as (Hv & C & HC & Hent & Hw).
  { apply Z.leb_le. vm_compute. reflexivity. }
  split; [exact Hv|]. exists C. split; [exact HC|]. split.
  - rewrite Hent. vm_compute. reflexivity.
  - rewrite Hw. vm_compute. reflexivity.
Qed.

(** C1, amended.  For a token stream whose values lie in [[0, V)], a
    window [K >= 1], and as long as no count exceeds 2^24 = 16777216,
    [cooccurrence_matrix] returns a matrix [C] in which every entry
    [C[i,j]] is the sum, over the offsets [k] in [1..K], of the number of
    positions [l] with [token[l] = i] and [token[l+k] = j] plus the number
    of positions [l] with [token[l] = j] and [token[l+k] = i].  ([V] is an
    array dimension: it is at most 2^63.) *)
Theorem cooccurrence_matrix_exact_counts tokens V (K : Z) :
  in_vocabulary V tokens -> Z.of_nat V <= 2 ^ 63 -> 1 <= K ->
  (forall i j, window_count tokens K i j <= 2 ^ 24) ->
  exists C, Run.cooccurrence_matrix tokens V K = Ok C
    /\ forall i j, entry C i j = window_count tokens K i j.
Proof.
  intros Hv HV _ Hb. rewrite run_agrees by done.
  by apply cooccurrence_matrix_returns.
Qed.

Lemma cooccurrence_matrix_exact_counts_witness :
  in_vocabulary 8 toy_token_ids /\ Z.of_nat 8 <= 2 ^ 63 /\ 1 <= 1
  /\ (forall i j, window_count toy_token_ids 1 i j <= 2 ^ 24)
  /\ exists C, Run.cooccurrence_matrix toy_token_ids 8 1 = Ok C
       /\ forall i j, entry C i j = window_count toy_token_ids 1 i j.
Proof.
  assert (Hb : forall i j, window_count toy_token_ids 1 i j <= 2 ^ 24).
  { intros i j. pose proof (window_count_le toy_token_ids 1 i j) as H.
    change (2 * Z.of_nat (length toy_token_ids) * Z.of_nat (length (range1 1)))
      with 24 in H.
    lia. }
  split; [exact toy_in_vocabulary|]. split; [lia|]. split; [lia|].
  split; [exact Hb|].
  apply (cooccurrence_matrix_exact_counts toy_token_ids 8 1);
    [exact toy_in_vocabulary | lia | lia | exact Hb].
Defined.

(** C8, as the specification words it, fails twice.  A stream of a single
    token forms no pair: the constructor checks no index, and the all-zero
    matrix is returned although the token is outside the vocabulary.  And
    the constructor checks the indices after their conversion to 32-bit
    integers: the token 2^32 + 2 becomes the index 2, and its pair is
    counted there. *)
Lemma out_of_vocabulary_not_rejected :
  (~ in_vocabulary 3 [5]
   /\ Run.cooccurrence_matrix [5] 3 1 = Ok (zeros (3%nat, 3%nat)))
  /\ (~ in_vocabulary 3 [1; 2 ^ 32 + 2]
      /\ exists C, Run.cooccurrence_matrix [1; 2 ^ 32 + 2] 3 1 = Ok C
           /\ entry C 1 2 = 1 /\ entry C 2 1 = 1).
Proof.
  split; split.
  - intros H. apply Forall_inv in H. lia.
  - reflexivity.
  - intros H. apply Forall_inv_tail, Forall_inv in H. lia.
  - eexists. split; [vm_compute; reflexivity|]. split; reflexivity.
Qed.

(** C8, amended.  For a token stream of at least two tokens and a window
    [K >= 1]: if some token does not fit a signed 64-bit integer,
    [cooccurrence_matrix] raises [OverflowError]; otherwise each token is
    stored as an index of the index type of the matrix (for [V < 2^31],
    the token reduced modulo 2^32 into [[-2^31, 2^31)]) and
    [cooccurrence_matrix] raises [ValueError] if some stored index lies
    outside [[0, V)]; in particular it does so when the tokens fit 32 bits
    and one of them is outside [[0, V)].  Whenever a matrix is returned,
    every stored coordinate is the stored index of a token of the stream
    and lies in [[0, V)]. *)
Theorem cooccurrence_matrix_index_check tokens V (K : Z) :
  ((2 <= length tokens)%nat -> 1 <= K ->
   (~ Forall (fun t => Run.int64 t = true) tokens ->
    Run.cooccurrence_matrix tokens V K = Raise OverflowError)
   /\ (Forall (fun t => Run.int64 t = true) tokens ->
       ~ in_vocabulary V (Run.stored_index (V, V) <$> tokens) ->
       Run.cooccurrence_matrix tokens V K = Raise ValueError)
   /\ (Forall (fun t => - 2 ^ 31 <= t < 2 ^ 31) tokens ->
       ~ in_vocabulary V tokens ->
       Run.cooccurrence_matrix tokens V K = Raise ValueError))
  /\ (forall C, Run.cooccurrence_matrix tokens V K = Ok C ->
      coordinates_from V (Run.stored_index (V, V) <$> tokens) C).
Proof.
  split.
  - intros Hlen HK. destruct (run_rejects tokens V K Hlen HK) as [Ho Hr].
    split; [exact Ho|]. split; [exact Hr|]. intros H32 Hbad.
    assert (Hid : Run.stored_index (V, V) <$> tokens = tokens).
    { rewrite <- (list_fmap_id tokens) at 2. apply list_fmap_ext.
      intros n t Hn. apply stored_index_int32.
      rewrite Forall_lookup in H32. exact (H32 n t Hn). }
    apply Hr; [|by rewrite Hid].
    eapply Forall_impl; [exact H32|]. simpl. intros t Ht.
    unfold Run.int64. apply andb_true_iff. lia.
  - intros C HC. unfold Run.cooccurrence_matrix in HC.
    apply (run_loop_invariant
             (fun M => shape M = (V, V)
                       /\ coordinates_from V
                            (Run.stored_index (V, V) <$> tokens) M)
             tokens (run_step_coordinates V tokens)
             (range1 K) (zeros (V, V)) C); [|exact HC].
    split; [reflexivity|]. intros p v Hp. simpl in Hp.
    by rewrite lookup_empty in Hp.
Qed.

Lemma cooccurrence_matrix_index_check_witness :
  ((2 <= length [0; 5])%nat /\ 1 <= 1
   /\ Forall (fun t => - 2 ^ 31 <= t < 2 ^ 31) [0; 5]
   /\ ~ in_vocabulary 3 [0; 5]
   /\ Run.cooccurrence_matrix [0; 5] 3 1 = Raise ValueError)
  /\ ((2 <= length [1; 2 ^ 63])%nat /\ 1 <= 1
      /\ ~ Forall (fun t => Run.int64 t = true) [1; 2 ^ 63]
      /\ Run.cooccurrence_matrix [1; 2 ^ 63] 3 1 = Raise OverflowError)
  /\ (forall C, Run.cooccurrence_matrix [0; 2; 1] 3 1 = Ok C ->
      coordinates_from 3 (Run.stored_index (3%nat, 3%nat) <$> [0; 2; 1]) C).
Proof.
  assert (Hbad : ~ in_vocabulary 3 [0; 5]).
  { intros H. apply Forall_inv_tail, Forall_inv in H. lia. }
  assert (H32 : Forall (fun t => - 2 ^ 31 <= t < 2 ^ 31) [0; 5]).
  { repeat constructor; lia. }
  assert (H64 : ~ Forall (fun t => Run.int64 t = true) [1; 2 ^ 63]).
  { intros H. apply Forall_inv_tail, Forall_inv in H. discriminate H. }
  split; [|split].
  - split; [simpl; lia|]. split; [lia|]. split; [exact H32|].
    split; [exact Hbad|].
    destruct (cooccurrence_matrix_index_check [0; 5] 3 1) as [H _].
    destruct H as (_ & _ & H); [simpl; lia | lia |].
    exact (H H32 Hbad).
  - split; [simpl; lia|]. split; [lia|]. split; [exact H64|].
    destruct (cooccurrence_matrix_index_check [1; 2 ^ 63] 3 1) as [H _].
    destruct H as (H & _); [simpl; lia | lia |].
    exact (H H64).
  - apply (cooccurrence_matrix_index_check [0; 2; 1] 3 1).
Defined.

(** X4.  With at least two tokens and a window [K >= 1], the function
    returns a matrix exactly when every token fits a signed 64-bit integer
    and has its stored index in [[0, V)]. *)
Theorem cooccurrence_matrix_returns_iff tokens V (K : Z) :
  (2 <= length tokens)%nat -> 1 <= K ->
  ((exists C, Run.cooccurrence_matrix tokens V K = Ok C)
   <-> accepted V tokens).
Proof.
  intros Hlen HK. destruct (run_rejects tokens V K Hlen HK) as [Ho Hr].
  split.
  - intros [C HC]. unfold accepted.
    destruct (forallb Run.int64 tokens) eqn:E1.
    + apply forallb_int64 in E1. split; [exact E1|].
      destruct (forallb (index_ok V) (Run.stored_index (V, V) <$> tokens))
        eqn:E2; [by apply forallb_index_ok|].
      rewrite Hr in HC; [discriminate|exact E1|].
      intros Hv%forallb_index_ok. congruence.
    + rewrite Ho in HC; [discriminate|].
      intros H64%forallb_int64. congruence.
  - intros Ha.
    destruct (run_returns tokens V K Ha) as (C & HC & _). by exists C.
Qed.

Lemma cooccurrence_matrix_returns_iff_witness :
  (2 <= length toy_token_ids)%nat /\ 1 <= 2
  /\ ((exists C, Run.cooccurrence_matrix toy_token_ids 5 2 = Ok C)
      <-> accepted 5 toy_token_ids).
Proof.
  split; [simpl; lia|]. split; [lia|].
  apply (cooccurrence_matrix_returns_iff toy_token_ids 5 2); [simpl; lia|lia].
Defined.

(** X20.  Rounding does not break the symmetry: whatever the length of
    the stream and the size of the counts, the matrix that
    [cooccurrence_matrix] returns on accepted tokens has [C[i,j] = C[j,i]]
    for every pair of indices. *)
Theorem cooccurrence_matrix_rounded_symmetric tokens V (K : Z) :
  accepted V tokens ->
  exists C, Run.cooccurrence_matrix tokens V K = Ok C
    /\ forall i j, entry C i j = entry C j i.
Proof.
  intros Ha.
  destruct (run_returns tokens V K Ha) as (C & HC & _ & _ & Hent).
  exists C. split; [exact HC|]. intros i j. rewrite !Hent. clear Hent.
  assert (Hrp : forall k,
            rounded_pairs (Run.stored_index (V, V) <$> tokens) k i j
            = rounded_pairs (Run.stored_index (V, V) <$> tokens) k j i)
    by (intros k; unfold rounded_pairs; f_equal; lia).
  generalize 0. induction (range1 K) as [|k ks IH]; intros c.
  - reflexivity.
  - cbn [accumulate]. rewrite Hrp. apply IH.
Qed.

Lemma cooccurrence_matrix_rounded_symmetric_witness :
  accepted 8 toy_token_ids
  /\ exists C, Run.cooccurrence_matrix toy_token_ids 8 2 = Ok C
       /\ forall i j, entry C i j = entry C j i.
Proof.
  assert (Ha : accepted 8 toy_token_ids)
    by (apply vocabulary_accepted; [exact toy_in_vocabulary|lia]).
  split; [exact Ha|].
  exact (cooccurrence_matrix_rounded_symmetric toy_token_ids 8 2 Ha).
Defined.

(** A [float32] above 2^24 is an even integer. *)
Lemma float32_even (z : Z) : Z.Even z -> Z.Even (Run.float32 z).
Proof.
  intros Hz. unfold Run.float32.
  destruct (Z.leb_spec (Z.abs z) (2 ^ 24)) as [|Hbig]; [exact Hz|].
  assert (Hlog : 24 <= Z.log2 (Z.abs z)).
  { change 24 with (Z.log2 (2 ^ 24)). apply Z.log2_le_mono. lia. }
  set (q' := if _ <? _ then _ else _).
  replace (Z.log2 (Z.abs z) - 23) with (Z.succ (Z.log2 (Z.abs z) - 24))
    by lia.
  rewrite Z.pow_succ_r by lia.
  exists (Z.sgn z * (q' * 2 ^ (Z.log2 (Z.abs z) - 24))). lia.
Qed.

(** X21.  Rounding does not break the parity of the diagonal: whatever
    the size of the counts, every diagonal entry [C[i,i]] of the matrix
    that [cooccurrence_matrix] returns on accepted tokens is even. *)
Theorem cooccurrence_matrix_rounded_diagonal_even tokens V (K : Z) :
  accepted V tokens ->
  exists C, Run.cooccurrence_matrix tokens V K = Ok C
    /\ forall i, Z.Even (entry C i i).
Proof.
  intros Ha.
  destruct (run_returns tokens V K Ha) as (C & HC & _ & _ & Hent).
  exists C. split; [exact HC|]. intros i. rewrite Hent. clear Hent.
  assert (H0 : Z.Even 0) by (by exists 0).
  revert H0. generalize 0. induction (range1 K) as [|k ks IH]; intros c Hc.
  - exact Hc.
  - cbn [accumulate]. apply IH. apply float32_even.
    assert (Hr : Z.Even (rounded_pairs (Run.stored_index (V, V) <$> tokens)
                           k i i)).
    { unfold rounded_pairs. apply float32_even.
      eexists. rewrite Z.add_diag. reflexivity. }
    destruct Hc as [a ->], Hr as [b ->]. exists (a + b). lia.
Qed.

Lemma cooccurrence_matrix_rounded_diagonal_even_witness :
  accepted 2 [1; 1; 0; 1]
  /\ exists C, Run.cooccurrence_matrix [1; 1; 0; 1] 2 2 = Ok C
       /\ forall i, Z.Even (entry C i i).
Proof.
  assert (Ha : accepted 2 [1; 1; 0; 1]).
  { apply vocabulary_accepted; [|lia]. apply forallb_index_ok. reflexivity. }
  split; [exact Ha|].
  exact (cooccurrence_matrix_rounded_diagonal_even [1; 1; 0; 1] 2 2 Ha).
Defined.

(** X22.  Below 2^24 no addition rounds and no index is converted: for
    tokens in the vocabulary and as long as no count exceeds 2^24, the
    function as it runs and its reading in exact arithmetic return the
    same matrix, stored entries included. *)
Theorem cooccurrence_matrix_exact_reading tokens V (K : Z) :
  in_vocabulary V tokens -> Z.of_nat V <= 2 ^ 63 ->
  (forall i j, window_count tokens K i j <= 2 ^ 24) ->
  Run.cooccurrence_matrix tokens V K = cooccurrence_matrix tokens V K
  /\ exists C, cooccurrence_matrix tokens V K = Ok C
       /\ forall i j, entry C i j <= 2 ^ 24.
Proof.
  intros Hv HV Hb. split; [by apply run_agrees|].
  destruct (cooccurrence_matrix_returns tokens V K Hv) as (C & HC & Hent).
  exists C. split; [exact HC|]. intros i j. rewrite Hent. apply Hb.
Qed.

Lemma cooccurrence_matrix_exact_reading_witness :
  in_vocabulary 8 toy_token_ids /\ Z.of_nat 8 <= 2 ^ 63
  /\ (forall i j, window_count toy_token_ids 2 i j <= 2 ^ 24)
  /\ Run.cooccurrence_matrix toy_token_ids 8 2
     = cooccurrence_matrix toy_token_ids 8 2.
Proof.
  assert (Hb : forall i j, window_count toy_token_ids 2 i j <= 2 ^ 24).
  { intros i j. pose proof (window_count_le toy_token_ids 2 i j) as H.
    change (2 * Z.of_nat (length toy_token_ids) * Z.of_nat (length (range1 2)))
      with 48 in H.
    lia. }
  split; [exact toy_in_vocabulary|]. split; [lia|]. split; [exact Hb|].
  apply (cooccurrence_matrix_exact_reading toy_token_ids 8 2);
    [exact toy_in_vocabulary | lia | exact Hb].
Defined.

End Cooccurrence_as_run.

(** * The PPMI transform, as it runs *)

(** ** The range of [float64] *)

Section Float64_range.

#[local] Open Scope R_scope.

Lemma pow2_pos (n : nat) : 0 < 2 ^ n.
Proof. apply pow_lt. lra. Qed.

Lemma overflow_threshold : 2 ^ 970 <= 2 ^ 1024 - 2 ^ 970.
Proof.
  assert (H1 : 2 ^ 1024 = 2 ^ 54 * 2 ^ 970)
    by (rewrite <- pow_add; reflexivity).
  assert (H2 : 2 ^ 1 <= 2 ^ 54) by (apply Rle_pow; [lra|lia]).
  pose proof (pow2_pos 970). rewrite H1. simpl in H2. nra.
Qed.

Lemma underflow_threshold : / 2 ^ 1075 < 1.
Proof.
  assert (H1 : 1 < 2 ^ 1075) by (apply Rlt_pow_R1; [lra|lia]).
  assert (H2 : 0 < / 2 ^ 1075) by (apply Rinv_0_lt_compat; lra).
  assert (H3 : / 2 ^ 1075 * 2 ^ 1075 = 1) by (apply Rinv_l; lra).
  nra.
Qed.

(** A positive integer below 2^48 is in the range, and so kept. *)
Lemma float64_integer (n : Z) :
  (1 <= n <= 2 ^ 48)%Z -> Run.float64 (IZR n) = Finite (IZR n).
Proof.
  intros [H1 H2]. apply IZR_le in H1, H2.
  change (2 ^ 48)%Z with (2 ^ Z.of_nat 48)%Z in H2.
  rewrite <- pow_IZR in H2.
  assert (H3 : 2 ^ 48 < 2 ^ 970) by (apply Rlt_pow; [lra|lia]).
  pose proof overflow_threshold. pose proof underflow_threshold.
  unfold Run.float64. rewrite Rabs_pos_eq by lra.
  destruct (Rle_dec (2 ^ 1024 - 2 ^ 970) (IZR n)); [lra|].
  destruct (Rle_dec (IZR n) (/ 2 ^ 1075)); [lra|]. reflexivity.
Qed.

(** A number of magnitude 2^1024 or more overflows. *)
Lemma float64_overflow (x : R) : 2 ^ 1024 <= x -> Run.float64 x = PosInf.
Proof.
  intros Hx. pose proof (pow2_pos 970). pose proof (pow2_pos 1024).
  unfold Run.float64. rewrite Rabs_pos_eq by lra.
  destruct (Rle_dec (2 ^ 1024 - 2 ^ 970) x); [|lra].
  destruct (Rlt_dec 0 x); [reflexivity|lra].
Qed.

End Float64_range.

(** ** Matrices of integer counts *)

Section Integer_counts.

#[local] Open Scope Z_scope.

Implicit Types (C : matrix Z) (i j c : Z) (l : list (Z * Z * Z)).

Lemma stored_nonneg C :
  counts C -> Forall (fun e => 0 <= e.2) (map_to_list (data C)).
Proof.
  intros HC. apply Forall_forall. intros [p v] He.
  apply elem_of_map_to_list in He. exact (HC p v He).
Qed.

Lemma sum_nonneg l :
  Forall (fun e => 0 <= e.2) l -> 0 <= foldr Z.add 0 l.*2.
Proof.
  induction 1 as [|e l He _ IH]; [simpl; lia|].
  rewrite fmap_cons. cbn [foldr]. lia.
Qed.

Lemma sum_bounds l e :
  Forall (fun e => 0 <= e.2) l -> e ∈ l -> e.2 <= foldr Z.add 0 l.*2.
Proof.
  intros Hl He. induction Hl as [|e' l He' Hl IH].
  - by apply elem_of_nil in He.
  - rewrite fmap_cons. cbn [foldr]. pose proof (sum_nonneg l Hl).
    apply elem_of_cons in He as [->|He]; [lia|]. specialize (IH He). lia.
Qed.

Lemma sum_filter_le (P : Z * Z * Z -> Prop) `{!forall e, Decision (P e)} l :
  Forall (fun e => 0 <= e.2) l ->
  foldr Z.add 0 (filter P l).*2 <= foldr Z.add 0 l.*2.
Proof.
  induction 1 as [|e l He _ IH]; [reflexivity|].
  destruct (decide (P e)).
  - rewrite filter_cons_True by done. rewrite !fmap_cons. cbn [foldr]. lia.
  - rewrite filter_cons_False by done. rewrite fmap_cons. cbn [foldr]. lia.
Qed.

(** A stored count is at most the total of its row and of its column,
    and these are at most the total of the matrix. *)
Lemma totals_bounds C i j c :
  counts C -> data C !! (i, j) = Some c ->
  c <= row_total C i <= total C /\ c <= col_total C j <= total C.
Proof.
  intros HC Hc. pose proof (stored_nonneg C HC) as Hl.
  apply elem_of_map_to_list in Hc.
  assert (Hin : forall (P : Z * Z * Z -> Prop) `{!forall e, Decision (P e)},
             P (i, j, c) ->
             c <= foldr Z.add 0 (filter P (map_to_list (data C))).*2).
  { intros P ? HP.
    apply (sum_bounds (filter P (map_to_list (data C))) (i, j, c)).
    - apply Forall_forall. intros e [_ He]%list_elem_of_filter.
      rewrite Forall_forall in Hl. by apply Hl.
    - by apply list_elem_of_filter. }
  unfold row_total, col_total, total.
  repeat split; try (by apply Hin); by apply sum_filter_le.
Qed.

Lemma to_float64_counts C : counts C -> count_matrix (to_float64 C).
Proof.
  intros HC p x Hx. unfold to_float64 in Hx. cbn [data] in Hx.
  rewrite lookup_fmap in Hx.
  destruct (data C !! p) as [v|] eqn:Hv; [|discriminate].
  injection Hx as <-. apply IZR_le. exact (HC p v Hv).
Qed.

Lemma tocoo_to_float64 C :
  F64.tocoo (to_float64 C)
  = fmap (M:=list) (prod_map Datatypes.id IZR) (map_to_list (data C)).
Proof. unfold F64.tocoo, to_float64. cbn [data]. apply map_to_list_fmap. Qed.

Lemma sum_axis1_to_float64 C i :
  F64.sum_axis1 (to_float64 C) i = IZR (row_total C i).
Proof.
  unfold F64.sum_axis1, row_total.
  rewrite tocoo_to_float64, filter_fmap, <- Rsum_IZR. f_equal.
  rewrite <- !list_fmap_compose. reflexivity.
Qed.

Lemma sum_axis0_to_float64 C j :
  F64.sum_axis0 (to_float64 C) j = IZR (col_total C j).
Proof.
  unfold F64.sum_axis0, col_total.
  rewrite tocoo_to_float64, filter_fmap, <- Rsum_IZR. f_equal.
  rewrite <- !list_fmap_compose. reflexivity.
Qed.

Lemma lookup_to_float64 C i j (x : R) :
  data (to_float64 C) !! (i, j) = Some x
  <-> exists c, data C !! (i, j) = Some c /\ x = IZR c.
Proof.
  unfold to_float64. cbn [data]. rewrite lookup_fmap.
  destruct (data C !! (i, j)) as [v|]; simpl; split.
  - intros [= <-]. by exists v.
  - intros (c & [= <-] & ->). reflexivity.
  - discriminate.
  - intros (c & H & _). discriminate.
Qed.

End Integer_counts.

(** ** The arrays of [PPMI] *)

Section Run_PPMI_arrays.

#[local] Open Scope R_scope.

Context (fdiv : R -> R -> float) (flog : R -> R).

Implicit Types (C : matrix R) (i j : Z) (c : R) (nz : list (Z * Z * R)).

Lemma run_trace_indices C :
  Run.ii (Run.PPMI_trace fdiv flog C) = (examined C).*1.*1
  /\ Run.jj (Run.PPMI_trace fdiv flog C) = (examined C).*1.*2.
Proof. by split. Qed.

Lemma run_trace_Cij C :
  Run.Cij (Run.PPMI_trace fdiv flog C) = (examined C).*2.
Proof. apply getitem_examined, examined_lookup. Qed.

Lemma run_trace_numerator C :
  Run.numerator (Run.PPMI_trace fdiv flog C)
  = (fun e => Run.np_multiply e.2 (F64.sum C)) <$> examined C.
Proof.
  change (Run.numerator (Run.PPMI_trace fdiv flog C))
    with ((fun c => Run.np_multiply c (F64.sum C))
            <$> Run.Cij (Run.PPMI_trace fdiv flog C)).
  by rewrite run_trace_Cij, <- list_fmap_compose.
Qed.

Lemma run_denominator_map C nz :
  zip_with Run.np_multiply
    (F64.sum_axis1 C <$> nz.*1.*1) (F64.sum_axis0 C <$> nz.*1.*2)
  = (fun e => Run.np_multiply (F64.sum_axis1 C e.1.1) (F64.sum_axis0 C e.1.2))
      <$> nz.
Proof. induction nz as [|e nz IH]; [reflexivity|]. simpl. by f_equal. Qed.

Lemma run_trace_denominator C :
  Run.denominator (Run.PPMI_trace fdiv flog C)
  = (fun e => Run.np_multiply (F64.sum_axis1 C e.1.1) (F64.sum_axis0 C e.1.2))
      <$> examined C.
Proof. apply run_denominator_map. Qed.

Lemma run_trace_ratio C :
  Run.ratio (Run.PPMI_trace fdiv flog C)
  = (fun e => Run.np_divide fdiv
                (Run.np_multiply e.2 (F64.sum C))
                (Run.np_multiply (F64.sum_axis1 C e.1.1)
                   (F64.sum_axis0 C e.1.2)))
      <$> examined C.
Proof.
  change (Run.ratio (Run.PPMI_trace fdiv flog C))
    with (zip_with (Run.np_divide fdiv)
            (Run.numerator (Run.PPMI_trace fdiv flog C))
            (Run.denominator (Run.PPMI_trace fdiv flog C))).
  rewrite run_trace_numerator, run_trace_denominator.
  by rewrite zip_with_fmap_l, zip_with_fmap_r, zip_with_diag.
Qed.

Lemma run_trace_pmi C :
  Run.pmi (Run.PPMI_trace fdiv flog C)
  = Run.np_log flog <$> Run.ratio (Run.PPMI_trace fdiv flog C).
Proof. reflexivity. Qed.

Lemma run_trace_ppmi C :
  Run.ppmi (Run.PPMI_trace fdiv flog C)
  = (fun e => Run.ppmi_at fdiv flog C e.1.1 e.1.2 e.2) <$> examined C.
Proof.
  change (Run.ppmi (Run.PPMI_trace fdiv flog C))
    with (np_maximum 0
            <$> (Run.np_log flog <$> Run.ratio (Run.PPMI_trace fdiv flog C))).
  rewrite run_trace_ratio, <- !list_fmap_compose. reflexivity.
Qed.

(** With nothing to examine, [PPMI] raises. *)
Lemma run_PPMI_empty C :
  examined C = [] -> Run.PPMI fdiv flog C = Raise ValueError.
Proof.
  intros He. unfold Run.PPMI.
  destruct (run_trace_indices C) as [-> _]. by rewrite He.
Qed.

(** Otherwise it returns, and the stored entries of the result are the
    values at the examined positions that are not zero. *)
Lemma run_PPMI_stored C :
  examined C <> [] ->
  exists P, Run.PPMI fdiv flog C = Ok P
    /\ shape P = shape C
    /\ forall i j v,
         data P !! (i, j) = Some v
         <-> exists c, data C !! (i, j) = Some c /\ c <> 0
               /\ v = Run.ppmi_at fdiv flog C i j c /\ is_zero v = false.
Proof.
  intros He. unfold Run.PPMI.
  destruct (run_trace_indices C) as [Hii Hjj]. rewrite Hii, Hjj.
  clear Hii Hjj.
  destruct ((examined C).*1.*1) as [|i0 rest] eqn:E.
  { destruct (examined C); [done|discriminate]. }
  rewrite <- E. clear E i0 rest.
  eexists. split; [reflexivity|]. split; [reflexivity|].
  intros i j v. unfold F64.eliminate_zeros, F64.csc_matrix. cbn [data].
  rewrite run_trace_ppmi, zip_fst_snd.
  rewrite zip_with_fmap_l, zip_with_fmap_r, zip_with_diag.
  rewrite map_lookup_filter_Some. cbn [snd].
  rewrite <- elem_of_list_to_map.
  - rewrite list_elem_of_fmap. split.
    + intros [([[i' j'] c] & [= <- <- ->] & Hin) Hz].
      apply examined_spec in Hin as [? ?]. by exists c.
    + intros (c & Hc & Hne & -> & Hz). split; [|exact Hz].
      exists (i, j, c). split; [reflexivity|]. by apply examined_spec.
  - rewrite <- list_fmap_compose. apply examined_NoDup.
Qed.

End Run_PPMI_arrays.

(** ** The value at an examined position *)

Section Run_PPMI_values.

#[local] Open Scope R_scope.

Context (fdiv : R -> R -> float) (flog : R -> R).
Context (Hdiv : Run.float64_division fdiv) (Hlog : Run.float64_logarithm flog).

Implicit Types (C : matrix Z) (i j c : Z).

(** On integer counts whose total is at most 2^24, the two products are
    exact, positive and in the range, and the quotient lies on the side
    of 1 that the two products tell. *)
Lemma run_products C i j c :
  counts C -> (total C <= 2 ^ 24)%Z ->
  data C !! (i, j) = Some c -> c <> 0%Z ->
  ((0 < c)%Z /\ (0 < row_total C i)%Z /\ (0 < col_total C j)%Z)
  /\ (0 < c * total C <= 2 ^ 48)%Z
  /\ (0 < row_total C i * col_total C j <= 2 ^ 48)%Z
  /\ Run.np_multiply (IZR c) (F64.sum (to_float64 C))
     = Finite (IZR (c * total C))
  /\ Run.np_multiply (F64.sum_axis1 (to_float64 C) i)
       (F64.sum_axis0 (to_float64 C) j)
     = Finite (IZR (row_total C i * col_total C j)).
Proof.
  intros HC HT Hc Hne.
  destruct (totals_bounds C i j c HC Hc) as [[Hr1 Hr2] [Hc1 Hc2]].
  pose proof (HC _ _ Hc) as H0.
  assert (Hn : (0 < c * total C <= 2 ^ 48)%Z) by nia.
  assert (Hd : (0 < row_total C i * col_total C j <= 2 ^ 48)%Z) by nia.
  split; [lia|]. split; [exact Hn|]. split; [exact Hd|].
  unfold Run.np_multiply.
  rewrite sum_to_float64, sum_axis1_to_float64, sum_axis0_to_float64.
  rewrite <- !mult_IZR. split; apply float64_integer; lia.
Qed.

Lemma run_quotient (n d : Z) :
  (0 < n <= 2 ^ 48)%Z -> (0 < d <= 2 ^ 48)%Z ->
  exists q, fdiv (IZR n) (IZR d) = Finite q /\ 0 < q
    /\ Run.np_divide fdiv (Finite (IZR n)) (Finite (IZR d)) = Finite q
    /\ Run.np_log flog (Finite q) = Finite (flog q)
    /\ ((n <= d)%Z -> Rmax 0 (flog q) = 0)
    /\ ((d < n)%Z -> Rmax 0 (flog q) = flog q /\ 0 < flog q).
Proof.
  intros Hn Hd.
  assert (Hq : exists q, fdiv (IZR n) (IZR d) = Finite q /\ 0 < q
             /\ ((n <= d)%Z -> flog q <= 0) /\ ((d < n)%Z -> 0 < flog q)).
  { destruct (Z.lt_trichotomy n d) as [Hlt|[Heq|Hgt]].
    - destruct (Run.div_below fdiv Hdiv n d) as (q & Hq & Hq0 & Hq1);
        [lia|lia|].
      exists q. split; [exact Hq|]. split; [exact Hq0|]. split; [|lia].
      intros _. left. by apply (Run.log_below flog Hlog).
    - subst d. exists 1. split; [apply (Run.div_same fdiv Hdiv); lia|].
      split; [lra|]. split; [|lia]. intros _.
      rewrite (Run.log_one flog Hlog). lra.
    - destruct (Run.div_above fdiv Hdiv n d) as (q & Hq & Hq1); [lia|lia|].
      exists q. split; [exact Hq|]. split; [lra|]. split; [lia|].
      intros _. by apply (Run.log_above flog Hlog). }
  destruct Hq as (q & Hq & Hq0 & Hle & Hgt).
  exists q. split; [exact Hq|]. split; [exact Hq0|].
  assert (Hd0 : IZR d <> 0) by (apply not_0_IZR; lia).
  split; [|split; [|split]].
  - unfold Run.np_divide. by destruct (Req_dec_T (IZR d) 0).
  - unfold Run.np_log. by destruct (Rlt_dec 0 q).
  - intros H. apply Rmax_left. by apply Hle.
  - intros H. specialize (Hgt H). split; [|exact Hgt].
    apply Rmax_right. lra.
Qed.

(** The value computed at a position that holds a non-zero count. *)
Lemma run_ppmi_at_counts C i j c :
  counts C -> (total C <= 2 ^ 24)%Z ->
  data C !! (i, j) = Some c -> c <> 0%Z ->
  exists q,
    fdiv (IZR (c * total C)) (IZR (row_total C i * col_total C j)) = Finite q
    /\ 0 < q
    /\ Run.ppmi_at fdiv flog (to_float64 C) i j (IZR c)
       = Finite (Rmax 0 (flog q))
    /\ ((c * total C <= row_total C i * col_total C j)%Z ->
        Rmax 0 (flog q) = 0)
    /\ ((row_total C i * col_total C j < c * total C)%Z ->
        0 < Rmax 0 (flog q)).
Proof.
  intros HC HT Hc Hne.
  destruct (run_products C i j c HC HT Hc Hne) as (_ & Hn & Hd & Hnum & Hden).
  destruct (run_quotient _ _ Hn Hd) as (q & Hq & Hq0 & Hquo & Hlg & Hle & Hgt).
  exists q. split; [exact Hq|]. split; [exact Hq0|]. split; [|split].
  - unfold Run.ppmi_at. by rewrite Hnum, Hden, Hquo, Hlg.
  - exact Hle.
  - intros H. destruct (Hgt H) as [-> ?]. done.
Qed.

End Run_PPMI_values.

(** ** The entries of the result *)

Section Run_PPMI_entries.

#[local] Open Scope R_scope.

Context (fdiv : R -> R -> float) (flog : R -> R).

Implicit Types (C : matrix R) (P : matrix float) (i j : Z) (c : R).

Lemma run_entry_examined C P i j c :
  stores fdiv flog C P -> data C !! (i, j) = Some c -> c <> 0 ->
  F64.entry P i j = Run.ppmi_at fdiv flog C i j c
  /\ (Run.ppmi_at fdiv flog C i j c = Finite 0 -> data P !! (i, j) = None)
  /\ (Run.ppmi_at fdiv flog C i j c <> Finite 0 ->
      data P !! (i, j) = Some (Run.ppmi_at fdiv flog C i j c)).
Proof.
  intros Hst Hc Hne. unfold F64.entry.
  destruct (is_zero (Run.ppmi_at fdiv flog C i j c)) eqn:Hz.
  - assert (Hnone : data P !! (i, j) = None).
    { apply eq_None_not_Some. intros [v Hv].
      apply Hst in Hv as (c' & Hc' & _ & -> & Hz').
      rewrite Hc in Hc'. injection Hc' as <-. congruence. }
    rewrite Hnone. simpl. apply is_zero_spec in Hz. rewrite Hz.
    split; [reflexivity|]. split; [done|]. by intros H.
  - assert (Hsome : data P !! (i, j)
                    = Some (Run.ppmi_at fdiv flog C i j c))
      by (apply Hst; by exists c).
    rewrite Hsome. split; [reflexivity|]. split; [|done].
    intros H0. apply is_zero_spec in H0. congruence.
Qed.

Lemma run_entry_zero C P i j :
  stores fdiv flog C P -> F64.getitem C i j = 0 -> data P !! (i, j) = None.
Proof.
  unfold F64.getitem. intros Hst H0. apply eq_None_not_Some. intros [v Hv].
  apply Hst in Hv as (c & Hc & Hne & _). rewrite Hc in H0. by apply Hne.
Qed.

Lemma run_stored_nonzero C P i j v :
  stores fdiv flog C P -> data P !! (i, j) = Some v -> v <> Finite 0.
Proof.
  intros Hst Hv ->. apply Hst in Hv as (c & _ & _ & _ & Hz). simpl in Hz.
  by destruct (Req_dec_T 0 0).
Qed.

(** The result of a symmetric matrix is symmetric. *)
Lemma run_mirrored C P i j :
  symmetric C -> stores fdiv flog C P -> data P !! (i, j) = data P !! (j, i).
Proof.
  intros Hsym Hst.
  assert (Hat : forall x y c,
            Run.ppmi_at fdiv flog C x y c = Run.ppmi_at fdiv flog C y x c).
  { intros x y c. unfold Run.ppmi_at, Run.np_multiply.
    rewrite !(symmetric_marginals C _ Hsym).
    by rewrite (Rmult_comm (F64.sum_axis1 C x)). }
  apply option_eq. intros v. rewrite !(Hst _ _ v).
  split; intros (c & Hc & Hne & -> & Hz); exists c.
  - rewrite <- (Hsym i j), <- (Hat i j c). by rewrite Hc.
  - rewrite (Hsym i j), (Hat i j c). by rewrite Hc.
Qed.

End Run_PPMI_entries.

Section Run_PPMI_counts.

#[local] Open Scope R_scope.

Context (fdiv : R -> R -> float) (flog : R -> R).
Context (Hdiv : Run.float64_division fdiv) (Hlog : Run.float64_logarithm flog).

Implicit Types (C : matrix Z) (P : matrix float) (i j c : Z).

Lemma examined_to_float64 C (e : Z * Z * R) :
  e ∈ examined (to_float64 C)
  <-> exists c, data C !! e.1 = Some c /\ e.2 = IZR c /\ c <> 0%Z.
Proof.
  destruct e as [[i j] x]. rewrite examined_spec, lookup_to_float64. simpl.
  split.
  - intros [(c & Hc & ->) Hne]. exists c. split; [done|]. split; [done|].
    intros ->. by apply Hne.
  - intros (c & Hc & -> & Hne). split; [by exists c|]. by apply not_0_IZR.
Qed.

Lemma getitem_to_float64 C i j :
  F64.getitem (to_float64 C) i j = IZR (entry C i j).
Proof.
  unfold F64.getitem, entry, to_float64. cbn [data]. rewrite lookup_fmap.
  by destruct (data C !! (i, j)).
Qed.

(** [PPMI] on integer counts whose total is at most 2^24 and that are not
    all zero. *)
Lemma run_PPMI_counts C :
  counts C -> (total C <= 2 ^ 24)%Z ->
  (exists i j, entry C i j <> 0%Z) ->
  exists P, Run.PPMI fdiv flog (to_float64 C) = Ok P
    /\ shape P = shape C
    /\ stores fdiv flog (to_float64 C) P
    /\ forall i j,
         (forall c, data C !! (i, j) = Some c -> c <> 0%Z ->
          exists q,
            fdiv (IZR (c * total C)) (IZR (row_total C i * col_total C j))
            = Finite q
            /\ 0 < q
            /\ F64.entry P i j = Finite (Rmax 0 (flog q))
            /\ ((c * total C <= row_total C i * col_total C j)%Z ->
                data P !! (i, j) = None)
            /\ ((row_total C i * col_total C j < c * total C)%Z ->
                data P !! (i, j) = Some (Finite (Rmax 0 (flog q)))
                /\ 0 < Rmax 0 (flog q)))
         /\ (entry C i j = 0%Z ->
             data P !! (i, j) = None /\ F64.entry P i j = Finite 0).
Proof.
  intros HC HT (i0 & j0 & Hnz).
  assert (Hex : examined (to_float64 C) <> []).
  { unfold entry in Hnz.
    destruct (data C !! (i0, j0)) as [c|] eqn:Hc; [|done].
    assert (Hin : (i0, j0, IZR c) ∈ examined (to_float64 C))
      by (apply examined_to_float64; by exists c).
    intros Hnil. rewrite Hnil in Hin. by apply elem_of_nil in Hin. }
  destruct (run_PPMI_stored fdiv flog _ Hex) as (P & HP & Hs & Hst).
  exists P. split; [exact HP|]. split; [exact Hs|]. split; [exact Hst|].
  intros i j. split.
  - intros c Hc Hne.
    destruct (run_ppmi_at_counts fdiv flog Hdiv Hlog C i j c HC HT Hc Hne)
      as (q & Hq & Hq0 & Hat & Hle & Hgt).
    assert (Hc' : data (to_float64 C) !! (i, j) = Some (IZR c))
      by (apply lookup_to_float64; by exists c).
    assert (Hne' : IZR c <> 0) by (by apply not_0_IZR).
    destruct (run_entry_examined fdiv flog _ P i j _ Hst Hc' Hne')
      as (Hent & Hnone & Hsome).
    rewrite Hat in Hent, Hnone, Hsome.
    exists q. split; [exact Hq|]. split; [exact Hq0|]. split; [exact Hent|].
    split.
    + intros H. apply Hnone. by rewrite (Hle H).
    + intros H. specialize (Hgt H). split; [|exact Hgt].
      apply Hsome. intros [= H0]. lra.
  - intros H0.
    assert (Hnone : data P !! (i, j) = None).
    { apply (run_entry_zero fdiv flog (to_float64 C)); [exact Hst|].
      by rewrite getitem_to_float64, H0. }
    split; [exact Hnone|]. unfold F64.entry. by rewrite Hnone.
Qed.

(** Every entry of that result is a finite number, and not negative. *)
Lemma run_PPMI_counts_nonneg C P :
  counts C -> (total C <= 2 ^ 24)%Z ->
  stores fdiv flog (to_float64 C) P ->
  forall i j, exists r, F64.entry P i j = Finite r /\ 0 <= r.
Proof.
  intros HC HT Hst i j.
  destruct (data P !! (i, j)) as [v|] eqn:Hv.
  - apply Hst in Hv as Hv'. destruct Hv' as (x & Hx & Hne & -> & _).
    apply lookup_to_float64 in Hx as (c & Hc & ->).
    assert (Hne' : c <> 0%Z) by (intros ->; by apply Hne).
    destruct (run_ppmi_at_counts fdiv flog Hdiv Hlog C i j c HC HT Hc Hne')
      as (q & _ & _ & Hat & _).
    unfold F64.entry. rewrite Hv. simpl. rewrite Hat.
    eexists. split; [reflexivity|]. apply Rmax_l.
  - exists 0. unfold F64.entry. rewrite Hv. split; [reflexivity|lra].
Qed.

End Run_PPMI_counts.

(** ** A count beyond the range *)

Section Huge_count.

#[local] Open Scope R_scope.

Lemma single_count_count_matrix (x : R) :
  0 < x -> count_matrix (single_count x).
Proof.
  intros Hx p c Hp. unfold single_count in Hp. cbn [data] in Hp.
  apply lookup_singleton_Some in Hp as [_ <-]. lra.
Qed.

Lemma single_count_examined (x : R) :
  0 < x -> examined (single_count x) = [(0%Z, 0%Z, x)].
Proof.
  intros Hx. unfold examined, F64.tocoo, single_count. cbn [data].
  rewrite map_to_list_singleton. rewrite filter_cons_True; [reflexivity|].
  cbn [snd]. lra.
Qed.

Lemma single_count_sums (x : R) :
  F64.sum (single_count x) = x
  /\ F64.sum_axis1 (single_count x) 0 = x
  /\ F64.sum_axis0 (single_count x) 0 = x.
Proof.
  unfold F64.sum, F64.sum_axis1, F64.sum_axis0, F64.tocoo, single_count.
  cbn [data]. rewrite map_to_list_singleton.
  rewrite !filter_cons_True by reflexivity. rewrite !filter_nil.
  rewrite !fmap_cons, !fmap_nil. unfold Rsum. cbn [foldr snd].
  repeat split; lra.
Qed.

Lemma huge_count_count_matrix : count_matrix huge_count.
Proof. apply single_count_count_matrix, pow2_pos. Qed.

Lemma huge_count_examined : examined huge_count = [(0%Z, 0%Z, 2 ^ 700)].
Proof. apply single_count_examined, pow2_pos. Qed.

(** The two products overflow, and infinity over infinity is NaN. *)
Lemma huge_count_ratio (fdiv : R -> R -> float) :
  Run.np_divide fdiv
    (Run.np_multiply (2 ^ 700) (F64.sum huge_count))
    (Run.np_multiply (F64.sum_axis1 huge_count 0)
       (F64.sum_axis0 huge_count 0))
  = NaN.
Proof.
  unfold huge_count.
  destruct (single_count_sums (2 ^ 700)) as (-> & -> & ->).
  unfold Run.np_multiply. rewrite float64_overflow; [reflexivity|].
  rewrite <- pow_add. apply Rle_pow; [lra|lia].
Qed.

End Huge_count.

(** * Claims on the PPMI transform *)

Section PPMI_as_run.

#[local] Open Scope R_scope.

Lemma exact_division_spec : Run.float64_division Run.exact_division.
Proof.
  split; unfold Run.exact_division.
  - intros a Ha. f_equal. field. apply not_0_IZR. lia.
  - intros a b Hab Hb. eexists. split; [reflexivity|].
    assert (0 < IZR a) by (apply (IZR_lt 0); lia).
    assert (IZR a < IZR b) by (apply IZR_lt; lia).
    split.
    + apply Rdiv_lt_0_compat; lra.
    + apply (Rmult_lt_reg_r (IZR b)); [lra|].
      unfold Rdiv. rewrite Rmult_assoc, Rinv_l by lra. lra.
  - intros a b Hab Ha. eexists. split; [reflexivity|].
    assert (0 < IZR b) by (apply (IZR_lt 0); lia).
    assert (IZR b < IZR a) by (apply IZR_lt; lia).
    apply (Rmult_lt_reg_r (IZR b)); [lra|].
    unfold Rdiv. rewrite Rmult_assoc, Rinv_l by lra. lra.
Qed.

Lemma ln_spec : Run.float64_logarithm ln.
Proof.
  split.
  - exact ln_1.
  - intros q [H0 H1]. rewrite <- ln_1. by apply ln_increasing.
  - intros q H1. rewrite <- ln_1. apply ln_increasing; lra.
Qed.

Lemma pair_counts_Z_counts : counts pair_counts_Z.
Proof.
  intros p c Hp. simpl in Hp.
  apply lookup_insert_Some in Hp as [[_ <-]|[_ Hp]]; [lia|].
  apply lookup_singleton_Some in Hp as [_ <-]. lia.
Qed.

Lemma pair_counts_Z_total : (total pair_counts_Z <= 2 ^ 24)%Z.
Proof. apply Z.leb_le. vm_compute. reflexivity. Qed.

Lemma pair_counts_Z_nonzero : exists i j, entry pair_counts_Z i j <> 0%Z.
Proof. exists 0%Z, 1%Z. vm_compute. discriminate. Qed.

(** C3, as the specification words it, fails twice.  On the all-zero
    matrix [PPMI] selects nothing and raises [ValueError]: there is no
    result whose entries would be zero.  And the counts are [float64]
    numbers: on the matrix with the one count 2^700 the two products
    overflow, and the entry of the result is NaN, which is not [>= 0]. *)
Lemma PPMI_entries_degenerate :
  (count_matrix (zeros (2%nat, 2%nat))
   /\ Run.PPMI Run.exact_division ln (zeros (2%nat, 2%nat))
      = Raise ValueError)
  /\ (count_matrix huge_count
      /\ exists P, Run.PPMI Run.exact_division ln huge_count = Ok P
           /\ F64.entry P 0 0 = NaN
           /\ ~ nonneg (F64.entry P 0 0)).
Proof.
  split; split.
  - intros p c Hp. simpl in Hp. by rewrite lookup_empty in Hp.
  - apply run_PPMI_empty. unfold examined, F64.tocoo, zeros. cbn [data].
    by rewrite map_to_list_empty.
  - exact huge_count_count_matrix.
  - destruct (run_PPMI_stored Run.exact_division ln huge_count)
      as (P & HP & _ & Hst); [by rewrite huge_count_examined|].
    exists P. split; [exact HP|].
    assert (Hne : 2 ^ 700 <> 0) by (pose proof (pow2_pos 700); lra).
    destruct (run_entry_examined Run.exact_division ln huge_count P 0 0
                (2 ^ 700) Hst) as (Hent & _); [reflexivity|exact Hne|].
    unfold Run.ppmi_at in Hent. rewrite huge_count_ratio in Hent.
    rewrite Hent. split; [reflexivity|]. simpl. tauto.
Qed.

(** C3, amended.  Let [C] be a matrix of integer counts, none negative,
    not all zero, whose sum [Z] is at most 2^24 (so that the sums of the
    code, taken in [float32], are exact), and let the division and the
    logarithm behave as those of [float64].  Then [PPMI(C)] returns, and
    every entry of the result is [>= 0]; at a position [(i, j)] that holds
    a non-zero count [c] the entry is [max(0, log(c * Z / (Zr[i] *
    Zc[j])))], quotient and logarithm as the machine computes them; it is
    absent from the result when [c * Z <= Zr[i] * Zc[j]], in particular
    for independent words, and stored and positive otherwise; no stored
    entry of the result is zero; and a position that is zero in [C] is
    absent from the result, so zero in it. *)
Theorem PPMI_entries_of_counts (fdiv : R -> R -> float) (flog : R -> R)
  (C : matrix Z) :
  Run.float64_division fdiv -> Run.float64_logarithm flog ->
  counts C -> (total C <= 2 ^ 24)%Z ->
  (exists i j, entry C i j <> 0%Z) ->
  exists P, Run.PPMI fdiv flog (to_float64 C) = Ok P
    /\ forall i j,
         nonneg (F64.entry P i j)
         /\ (forall c, data C !! (i, j) = Some c -> c <> 0%Z ->
             exists q,
               fdiv (IZR (c * total C)) (IZR (row_total C i * col_total C j))
               = Finite q
               /\ F64.entry P i j = Finite (Rmax 0 (flog q))
               /\ ((c * total C <= row_total C i * col_total C j)%Z ->
                   data P !! (i, j) = None)
               /\ ((row_total C i * col_total C j < c * total C)%Z ->
                   exists r, data P !! (i, j) = Some (Finite r) /\ 0 < r))
         /\ (forall v, data P !! (i, j) = Some v -> v <> Finite 0)
         /\ (entry C i j = 0%Z ->
             data P !! (i, j) = None /\ F64.entry P i j = Finite 0).
Proof.
  intros Hdiv Hlog HC HT Hnz.
  destruct (run_PPMI_counts fdiv flog Hdiv Hlog C HC HT Hnz)
    as (P & HP & _ & Hst & Hent).
  exists P. split; [exact HP|]. intros i j.
  destruct (Hent i j) as [Hex Hzero].
  split; [|split; [|split]].
  - destruct (run_PPMI_counts_nonneg fdiv flog Hdiv Hlog C P HC HT Hst i j)
      as (r & -> & Hr). exact Hr.
  - intros c Hc Hne.
    destruct (Hex c Hc Hne) as (q & Hq & _ & He & Hle & Hgt).
    exists q. split; [exact Hq|]. split; [exact He|]. split; [exact Hle|].
    intros H. destruct (Hgt H) as [Hs Hpos]. eauto.
  - intros v Hv. exact (run_stored_nonzero fdiv flog _ P i j v Hst Hv).
  - exact Hzero.
Qed.

Lemma PPMI_entries_of_counts_witness :
  Run.float64_division Run.exact_division /\ Run.float64_logarithm ln
  /\ counts pair_counts_Z /\ (total pair_counts_Z <= 2 ^ 24)%Z
  /\ (exists i j, entry pair_counts_Z i j <> 0%Z)
  /\ exists P, Run.PPMI Run.exact_division ln (to_float64 pair_counts_Z) = Ok P
       /\ nonneg (F64.entry P 0 1)
       /\ (entry pair_counts_Z 1 1 = 0%Z ->
           data P !! (1%Z, 1%Z) = None /\ F64.entry P 1 1 = Finite 0).
Proof.
  split; [exact exact_division_spec|]. split; [exact ln_spec|].
  split; [exact pair_counts_Z_counts|]. split; [exact pair_counts_Z_total|].
  split; [exact pair_counts_Z_nonzero|].
  destruct (PPMI_entries_of_counts Run.exact_division ln pair_counts_Z
              exact_division_spec ln_spec pair_counts_Z_counts
              pair_counts_Z_total pair_counts_Z_nonzero) as (P & HP & H).
  exists P. split; [exact HP|].
  destruct (H 0%Z 1%Z) as (Hnn & _). destruct (H 1%Z 1%Z) as (_ & _ & _ & Hz).
  split; [exact Hnn | exact Hz].
Defined.

(** C4, as the specification words it, fails: the products are [float64]
    numbers.  On the matrix with the one count 2^700 both marginals are
    positive, the two products overflow to infinity, their quotient is NaN
    and so is the value of the logarithm. *)
Lemma PPMI_overflow_nan :
  count_matrix huge_count
  /\ Forall (fun i => 0 < Run.Zr (Run.PPMI_trace Run.exact_division ln
                                     huge_count) i)
       (Run.ii (Run.PPMI_trace Run.exact_division ln huge_count))
  /\ Run.ratio (Run.PPMI_trace Run.exact_division ln huge_count) = [NaN]
  /\ Run.pmi (Run.PPMI_trace Run.exact_division ln huge_count) = [NaN].
Proof.
  split; [exact huge_count_count_matrix|].
  assert (Hr : Run.ratio (Run.PPMI_trace Run.exact_division ln huge_count)
               = [NaN]).
  { rewrite run_trace_ratio, huge_count_examined.
    rewrite fmap_cons, fmap_nil. cbn [fst snd]. by rewrite huge_count_ratio. }
  split; [|split; [exact Hr|]].
  - destruct (run_trace_indices Run.exact_division ln huge_count) as [-> _].
    rewrite huge_count_examined. rewrite !fmap_cons, !fmap_nil.
    cbn [fst snd]. constructor; [|constructor].
    change (0 < F64.sum_axis1 huge_count 0). unfold huge_count.
    destruct (single_count_sums (2 ^ 700)) as (_ & -> & _). apply pow2_pos.
  - by rewrite run_trace_pmi, Hr.
Qed.

(** C4, amended.  Let [C] be a matrix of integer counts, none negative,
    whose sum is at most 2^24, and let the division and the logarithm
    behave as those of [float64].  The positions that [PPMI] examines are
    the positions where [C] is not zero; at each of them the row marginal
    and the column marginal are strictly positive, the divisor
    [Zr[i] * Zc[j]] is a finite positive number, the quotient handed to
    the logarithm is a finite, strictly positive number, and the PMI value
    is finite: neither the division by zero nor the logarithm of a
    non-positive number is reached, and no NaN arises. *)
Theorem PPMI_marginals_of_counts (fdiv : R -> R -> float) (flog : R -> R)
  (C : matrix Z) :
  Run.float64_division fdiv -> Run.float64_logarithm flog ->
  counts C -> (total C <= 2 ^ 24)%Z ->
  let t := Run.PPMI_trace fdiv flog (to_float64 C) in
  (forall i j, (i, j) ∈ zip (Run.ii t) (Run.jj t) <-> entry C i j <> 0%Z)
  /\ Forall (fun i => 0 < Run.Zr t i) (Run.ii t)
  /\ Forall (fun j => 0 < Run.Zc t j) (Run.jj t)
  /\ Forall (fun d => exists r, d = Finite r /\ 0 < r) (Run.denominator t)
  /\ Forall (fun x => exists q, x = Finite q /\ 0 < q) (Run.ratio t)
  /\ Forall is_finite (Run.pmi t).
Proof.
  intros Hdiv Hlog HC HT t.
  assert (Hpos : forall e, e ∈ examined (to_float64 C) ->
            0 < F64.sum_axis1 (to_float64 C) e.1.1
            /\ 0 < F64.sum_axis0 (to_float64 C) e.1.2
            /\ (exists r,
                 Run.np_multiply (F64.sum_axis1 (to_float64 C) e.1.1)
                   (F64.sum_axis0 (to_float64 C) e.1.2) = Finite r
                 /\ 0 < r)
            /\ exists q,
                 Run.np_divide fdiv
                   (Run.np_multiply e.2 (F64.sum (to_float64 C)))
                   (Run.np_multiply (F64.sum_axis1 (to_float64 C) e.1.1)
                      (F64.sum_axis0 (to_float64 C) e.1.2)) = Finite q
                 /\ 0 < q
                 /\ Run.np_log flog (Finite q) = Finite (flog q)).
  { intros [[i j] x] (c & Hc & Hx & Hne)%examined_to_float64.
    simpl in Hc, Hx. subst x. cbn [fst snd].
    destruct (run_products C i j c HC HT Hc Hne)
      as ((_ & Hr & Hcol) & Hn & Hd & Hnum & Hden).
    destruct (run_quotient fdiv flog Hdiv Hlog _ _ Hn Hd)
      as (q & _ & Hq0 & Hquo & Hlg & _).
    rewrite sum_axis1_to_float64, sum_axis0_to_float64.
    split; [by apply (IZR_lt 0)|]. split; [by apply (IZR_lt 0)|].
    rewrite <- sum_axis1_to_float64, <- sum_axis0_to_float64.
    split.
    - rewrite Hden. eexists. split; [reflexivity|]. apply (IZR_lt 0). lia.
    - exists q. by rewrite Hnum, Hden. }
  subst t. rewrite run_trace_pmi, run_trace_ratio, run_trace_denominator.
  destruct (run_trace_indices fdiv flog (to_float64 C)) as [-> ->].
  change (Run.Zr (Run.PPMI_trace fdiv flog (to_float64 C)))
    with (F64.sum_axis1 (to_float64 C)).
  change (Run.Zc (Run.PPMI_trace fdiv flog (to_float64 C)))
    with (F64.sum_axis0 (to_float64 C)).
  rewrite !Forall_fmap, !Forall_forall. repeat split.
  - rewrite zip_fst_snd. intros ([p x] & [= <-] & He)%list_elem_of_fmap.
    apply examined_to_float64 in He as (c & Hc & _ & Hne). simpl in Hc.
    unfold entry. by rewrite Hc.
  - intros Hne. unfold entry in Hne. rewrite zip_fst_snd.
    destruct (data C !! (i, j)) as [c|] eqn:Hc; [|by destruct Hne].
    apply list_elem_of_fmap. exists (i, j, IZR c). split; [reflexivity|].
    apply examined_to_float64. by exists c.
  - intros e He. simpl. by apply Hpos.
  - intros e He. simpl. by apply Hpos.
  - intros e He. simpl. by apply Hpos.
  - intros e He. simpl. destruct (Hpos e He) as (_ & _ & _ & q & Hq & ? & _).
    eauto.
  - intros e He. simpl. destruct (Hpos e He) as (_ & _ & _ & q & -> & _ & ->).
    exact I.
Qed.

Lemma PPMI_marginals_of_counts_witness :
  Run.float64_division Run.exact_division /\ Run.float64_logarithm ln
  /\ counts pair_counts_Z /\ (total pair_counts_Z <= 2 ^ 24)%Z
  /\ Forall (fun d => exists r, d = Finite r /\ 0 < r)
       (Run.denominator
          (Run.PPMI_trace Run.exact_division ln (to_float64 pair_counts_Z)))
  /\ Forall is_finite
       (Run.pmi
          (Run.PPMI_trace Run.exact_division ln (to_float64 pair_counts_Z))).
Proof.
  split; [exact exact_division_spec|]. split; [exact ln_spec|].
  split; [exact pair_counts_Z_counts|]. split; [exact pair_counts_Z_total|].
  destruct (PPMI_marginals_of_counts Run.exact_division ln pair_counts_Z
              exact_division_spec ln_spec pair_counts_Z_counts
              pair_counts_Z_total) as (_ & _ & _ & Hd & _ & Hf).
  split; [exact Hd | exact Hf].
Defined.

(** C9.  The claim fails on the code.  For a matrix of counts whose total
    mass [Z] is zero, the all-zero matrix among them, [nonzero] selects no
    position: no product, no quotient and no logarithm is computed; and
    the conversion of the empty selection raises [ValueError], so that no
    matrix is returned. *)
Theorem PPMI_massless_raises (fdiv : R -> R -> float) (flog : R -> R)
  (C : matrix R) :
  count_matrix C -> F64.sum C = 0 ->
  Run.PPMI fdiv flog C = Raise ValueError
  /\ Run.denominator (Run.PPMI_trace fdiv flog C) = []
  /\ Run.ratio (Run.PPMI_trace fdiv flog C) = []
  /\ Run.pmi (Run.PPMI_trace fdiv flog C) = [].
Proof.
  intros HC HZ.
  assert (Hnone : examined C = []) by (by apply massless_counts).
  split; [by apply run_PPMI_empty|].
  rewrite run_trace_pmi, run_trace_ratio, run_trace_denominator, Hnone.
  by repeat split.
Qed.

Lemma PPMI_massless_raises_witness :
  count_matrix stored_zero /\ F64.sum stored_zero = 0
  /\ Run.PPMI Run.exact_division ln stored_zero = Raise ValueError
  /\ Run.ratio (Run.PPMI_trace Run.exact_division ln stored_zero) = [].
Proof.
  split; [exact stored_zero_count_matrix|]. split; [exact stored_zero_sum|].
  destruct (PPMI_massless_raises Run.exact_division ln stored_zero
              stored_zero_count_matrix stored_zero_sum) as (Hr & _ & Hq & _).
  split; [exact Hr | exact Hq].
Defined.

End PPMI_as_run.

(** * From tokens to PPMI, as it runs *)

Section Run_pipeline.

#[local] Open Scope Z_scope.

Implicit Types (tokens : list Z) (C : matrix Z) (V : nat).

(** When twice the number of pairs of the window is at most 2^24, no
    addition rounds: the code returns the matrix of the exact counts, and
    the sum of its entries is that number. *)
Lemma run_exact_total tokens V (K : Z) :
  in_vocabulary V tokens -> Z.of_nat V <= 2 ^ 63 ->
  2 * foldr Z.add 0 ((fun k => Z.of_nat (length tokens - k)) <$> range1 K)
  <= 2 ^ 24 ->
  exists C,
    Run.cooccurrence_matrix tokens V K = Ok C
    /\ cooccurrence_matrix tokens V K = Ok C
    /\ counts C
    /\ total C
       = 2 * foldr Z.add 0
               ((fun k => Z.of_nat (length tokens - k)) <$> range1 K).
Proof.
  intros Hv HV Hb.
  destruct (cooccurrence_matrix_returns tokens V K Hv) as (C & HC & Hent).
  pose proof (window_total tokens V K C Hv HC) as HT.
  assert (Hpos : forall x y, 0 <= entry C x y).
  { apply (loop_nonneg tokens (range1 K) (zeros (V, V))); [|exact HC].
    intros x y. by rewrite entry_zeros. }
  assert (Hcounts : counts C).
  { intros [i j] v Hp. specialize (Hpos i j). unfold entry in Hpos.
    by rewrite Hp in Hpos. }
  exists C. split; [|split; [exact HC|split; [exact Hcounts|exact HT]]].
  rewrite <- HC. apply run_agrees; [exact Hv|exact HV|].
  intros i j. rewrite <- Hent. unfold entry.
  destruct (data C !! (i, j)) as [c|] eqn:Hc; simpl; [|lia].
  destruct (totals_bounds C i j c Hcounts Hc) as [[? ?] _]. lia.
Qed.

(** A stream of two tokens or more holds a pair at distance 1. *)
Lemma first_pair tokens V (K : Z) C :
  (2 <= length tokens)%nat -> 1 <= K ->
  in_vocabulary V tokens -> cooccurrence_matrix tokens V K = Ok C ->
  exists i j, entry C i j <> 0.
Proof.
  intros Hlen HK Hv HC.
  destruct (cooccurrence_matrix_returns tokens V K Hv) as (C' & HC' & Hent).
  rewrite HC in HC'. injection HC' as <-.
  destruct (lookup_lt_is_Some_2 tokens 0) as [t0 H0]; [lia|].
  destruct (lookup_lt_is_Some_2 tokens 1) as [t1 H1]; [lia|].
  exists t0, t1. rewrite Hent. unfold window_count.
  assert (0 < foldr Z.add 0
                ((fun k => pair_count tokens k t0 t1 + pair_count tokens k t1 t0)
                   <$> range1 K)); [|lia].
  apply offsets_sum_positive. exists 1%nat. split.
  - unfold range1. apply elem_of_seq. lia.
  - left. apply pair_count_positive. by exists 0%nat.
Qed.

End Run_pipeline.

Section Pipeline_as_run.

#[local] Open Scope R_scope.

(** X11.  The two first stages compose without a degenerate value.  For a
    stream of at least two tokens, all in the vocabulary, a window
    [K >= 1], and as long as twice the number of pairs of the window is at
    most 2^24, [cooccurrence_matrix] returns a matrix and [PPMI] returns
    on it; the result has only finite, non-negative entries (no NaN, no
    infinity), and it is symmetric. *)
Theorem PPMI_of_cooccurrence (fdiv : R -> R -> float) (flog : R -> R)
  (token_ids : list Z) (V : nat) (K : Z) :
  Run.float64_division fdiv -> Run.float64_logarithm flog ->
  in_vocabulary V token_ids -> (Z.of_nat V <= 2 ^ 63)%Z ->
  (2 <= length token_ids)%nat -> (1 <= K)%Z ->
  (2 * foldr Z.add 0%Z
         ((fun k => Z.of_nat (length token_ids - k)) <$> range1 K)
   <= 2 ^ 24)%Z ->
  exists C P,
    Run.cooccurrence_matrix token_ids V K = Ok C
    /\ Run.PPMI fdiv flog (to_float64 C) = Ok P
    /\ forall i j,
         (exists r, F64.entry P i j = Finite r /\ 0 <= r)
         /\ F64.entry P i j = F64.entry P j i.
Proof.
  intros Hdiv Hlog Hv HV Hlen HK Hb.
  destruct (run_exact_total token_ids V K Hv HV Hb)
    as (C & HrC & HC & Hcounts & HT).
  assert (HT' : (total C <= 2 ^ 24)%Z) by (by rewrite HT).
  pose proof (first_pair token_ids V K C Hlen HK Hv HC) as Hnz.
  destruct (run_PPMI_counts fdiv flog Hdiv Hlog C Hcounts HT' Hnz)
    as (P & HP & _ & Hst & _).
  exists C, P. split; [exact HrC|]. split; [exact HP|]. intros i j. split.
  - exact (run_PPMI_counts_nonneg fdiv flog Hdiv Hlog C P Hcounts HT' Hst i j).
  - unfold F64.entry. f_equal.
    apply (run_mirrored fdiv flog (to_float64 C)); [|exact Hst].
    destruct (cooccurrence_matrix_canonical _ _ _ _ HC) as [_ Hz].
    apply to_float64_symmetric; [exact Hz|].
    apply (loop_symmetric token_ids (range1 K) (zeros (V, V))); [|exact HC].
    intros x y. by rewrite !entry_zeros.
Qed.

Lemma toy_pairs :
  (2 * foldr Z.add 0%Z
         ((fun k => Z.of_nat (length toy_token_ids - k)) <$> range1 2)
   <= 2 ^ 24)%Z.
Proof. apply Z.leb_le. vm_compute. reflexivity. Qed.

Lemma PPMI_of_cooccurrence_witness :
  Run.float64_division Run.exact_division /\ Run.float64_logarithm ln
  /\ in_vocabulary 8 toy_token_ids /\ (Z.of_nat 8 <= 2 ^ 63)%Z
  /\ (2 <= length toy_token_ids)%nat /\ (1 <= 2)%Z
  /\ (2 * foldr Z.add 0%Z
            ((fun k => Z.of_nat (length toy_token_ids - k)) <$> range1 2)
      <= 2 ^ 24)%Z
  /\ exists C P,
       Run.cooccurrence_matrix toy_token_ids 8 2 = Ok C
       /\ Run.PPMI Run.exact_division ln (to_float64 C) = Ok P
       /\ forall i j,
            (exists r, F64.entry P i j = Finite r /\ 0 <= r)
            /\ F64.entry P i j = F64.entry P j i.
Proof.
  split; [exact exact_division_spec|]. split; [exact ln_spec|].
  split; [exact toy_in_vocabulary|]. split; [lia|].
  split; [simpl; lia|]. split; [lia|]. split; [exact toy_pairs|].
  apply (PPMI_of_cooccurrence Run.exact_division ln toy_token_ids 8 2
           exact_division_spec ln_spec toy_in_vocabulary);
    [lia | simpl; lia | lia | exact toy_pairs].
Defined.

(** X19.  The total mass of the matrix depends on nothing but the length
    of the stream and the window: for [n] tokens in the vocabulary, the
    sum of all the entries, the [Z] of [PPMI], is twice the sum over the
    offsets [k] in [1..K] of [max(0, n - k)], as long as this number is at
    most 2^24. *)
Theorem cooccurrence_matrix_total (tokens : list Z) (V : nat) (K : Z) :
  in_vocabulary V tokens -> (Z.of_nat V <= 2 ^ 63)%Z ->
  (2 * foldr Z.add 0%Z
         ((fun k => Z.of_nat (length tokens - k)) <$> range1 K)
   <= 2 ^ 24)%Z ->
  exists C,
    Run.cooccurrence_matrix tokens V K = Ok C
    /\ F64.sum (to_float64 C)
       = IZR (2 * foldr Z.add 0%Z
                    ((fun k => Z.of_nat (length tokens - k)) <$> range1 K)).
Proof.
  intros Hv HV Hb.
  destruct (run_exact_total tokens V K Hv HV Hb) as (C & HrC & _ & _ & HT).
  exists C. split; [exact HrC|]. by rewrite sum_to_float64, HT.
Qed.

Lemma cooccurrence_matrix_total_witness :
  in_vocabulary 8 toy_token_ids /\ (Z.of_nat 8 <= 2 ^ 63)%Z
  /\ (2 * foldr Z.add 0%Z
            ((fun k => Z.of_nat (length toy_token_ids - k)) <$> range1 2)
      <= 2 ^ 24)%Z
  /\ exists C,
       Run.cooccurrence_matrix toy_token_ids 8 2 = Ok C
       /\ F64.sum (to_float64 C)
          = IZR (2 * foldr Z.add 0%Z
                       ((fun k => Z.of_nat (length toy_token_ids - k))
                          <$> range1 2)).
Proof.
  split; [exact toy_in_vocabulary|]. split; [lia|]. split; [exact toy_pairs|].
  apply (cooccurrence_matrix_total toy_token_ids 8 2 toy_in_vocabulary);
    [lia | exact toy_pairs].
Defined.

End Pipeline_as_run.

(** * The SVD projection, as it runs *)

(** ** Squares, sums and quotients in the range of [float64] *)

Section Normalization_range.

#[local] Open Scope R_scope.

Implicit Types (row sq : list R) (x y : R).

Lemma threshold_above : 2 ^ 1023 < 2 ^ 1024 - 2 ^ 970.
Proof.
  assert (H1 : 2 ^ 1024 = 2 * 2 ^ 1023) by reflexivity.
  assert (H2 : 2 ^ 970 < 2 ^ 1023) by (apply Rlt_pow; [lra|lia]).
  lra.
Qed.

Lemma tiny_below : / 2 ^ 1075 < / 2 ^ 1000.
Proof.
  apply Rinv_lt_contravar.
  - apply Rmult_lt_0_compat; apply pow2_pos.
  - apply Rlt_pow; [lra|lia].
Qed.

(** A number that is zero, or between 2^-1000 and 2^1023, is kept. *)
Lemma float64_kept y :
  (y = 0 \/ / 2 ^ 1000 <= y) -> y <= 2 ^ 1023 -> Run.float64 y = Finite y.
Proof.
  intros Hy Hb. pose proof threshold_above. pose proof tiny_below.
  assert (Hpos : 0 <= y).
  { destruct Hy as [->|Hy]; [lra|].
    assert (0 < / 2 ^ 1000) by (apply Rinv_0_lt_compat, pow2_pos). lra. }
  unfold Run.float64. rewrite Rabs_pos_eq by exact Hpos.
  destruct (Rle_dec (2 ^ 1024 - 2 ^ 970) y); [lra|].
  destruct (Rle_dec y (/ 2 ^ 1075)) as [Hs|_]; [|reflexivity].
  destruct Hy as [->|Hy]; [reflexivity|lra].
Qed.

(** Up to 2^1023 nothing overflows. *)
Lemma float64_finite y : Rabs y <= 2 ^ 1023 -> is_finite (Run.float64 y).
Proof.
  intros Hb. pose proof threshold_above. unfold Run.float64.
  destruct (Rle_dec (2 ^ 1024 - 2 ^ 970) (Rabs y)); [lra|].
  by destruct (Rle_dec (Rabs y) (/ 2 ^ 1075)).
Qed.

Lemma square_bounds x :
  moderate x ->
  0 <= x * x <= 2 ^ 1000 /\ (x * x = 0 \/ / 2 ^ 1000 <= x * x).
Proof.
  intros [->|[Hlo Hhi]].
  - pose proof (pow2_pos 1000). split; [lra|]. left. lra.
  - assert (Hsq : x * x = Rabs x * Rabs x)
      by (unfold Rabs; destruct (Rcase_abs x); lra).
    assert (He : 0 < / 2 ^ 500) by (apply Rinv_0_lt_compat, pow2_pos).
    assert (Hee : / 2 ^ 500 * / 2 ^ 500 = / 2 ^ 1000)
      by (rewrite <- Rinv_mult, <- pow_add; reflexivity).
    assert (HMM : 2 ^ 500 * 2 ^ 500 = 2 ^ 1000)
      by (rewrite <- pow_add; reflexivity).
    pose proof (pow2_pos 500).
    rewrite Hsq, <- Hee, <- HMM. split; [nra|]. right. nra.
Qed.

Lemma square_kept x :
  moderate x -> Run.np_multiply x x = Finite (x * x).
Proof.
  intros Hx. destruct (square_bounds x Hx) as [[_ Hhi] Hlo].
  unfold Run.np_multiply. apply float64_kept; [exact Hlo|].
  assert (2 ^ 1000 <= 2 ^ 1023) by (apply Rle_pow; [lra|lia]). lra.
Qed.

(** The sum of at most 2^20 squares of moderate numbers is kept. *)
Lemma sum_kept sq :
  Forall (fun s => 0 <= s <= 2 ^ 1000 /\ (s = 0 \/ / 2 ^ 1000 <= s)) sq ->
  INR (length sq) <= 2 ^ 20 ->
  foldr Run.np_add (Finite 0) (Finite <$> sq) = Finite (Rsum sq)
  /\ 0 <= Rsum sq <= INR (length sq) * 2 ^ 1000
  /\ (Rsum sq = 0 \/ / 2 ^ 1000 <= Rsum sq).
Proof.
  induction 1 as [|s sq [[Hs0 Hs1] Hs] _ IH]; intros Hlen.
  - simpl. split; [reflexivity|]. split; [lra|]. by left.
  - cbn [length] in Hlen. rewrite S_INR in Hlen.
    pose proof (pos_INR (length sq)) as Hn.
    destruct IH as (IH & [Hr0 Hr1] & Hr); [lra|].
    rewrite fmap_cons. cbn [foldr]. rewrite IH. unfold Rsum in *.
    cbn [foldr length]. rewrite S_INR.
    pose proof (pow2_pos 1000) as Hp.
    assert (Hz : s + foldr Rplus 0 sq = 0
                 \/ / 2 ^ 1000 <= s + foldr Rplus 0 sq).
    { destruct Hs as [->|Hs]; [|right; lra].
      destruct Hr as [->|Hr]; [left; lra|right; lra]. }
    split; [|split; [nra|exact Hz]].
    cbn [Run.np_add]. apply float64_kept; [exact Hz|].
    assert (H20 : 2 ^ 20 * 2 ^ 1000 <= 2 ^ 1023).
    { rewrite <- pow_add. apply Rle_pow; [lra|lia]. }
    nra.
Qed.

(** On a row of at most 2^20 moderate numbers the norm is the exact one:
    no square underflows, nothing overflows. *)
Lemma norm_kept row :
  Forall moderate row -> INR (length row) <= 2 ^ 20 ->
  Run.norm row = Finite (norm row)
  /\ (Exists (fun x => x <> 0) row -> / 2 ^ 500 <= norm row).
Proof.
  intros Hrow Hlen. unfold Run.norm, norm.
  assert (Hsq : (fun x => Run.np_multiply x x) <$> row
                = Finite <$> ((fun x => x * x) <$> row)).
  { rewrite <- list_fmap_compose. apply list_fmap_ext. intros n x Hx.
    simpl. apply square_kept. rewrite Forall_lookup in Hrow.
    exact (Hrow n x Hx). }
  destruct (sum_kept ((fun x => x * x) <$> row)) as (Hs & [H0 _] & _).
  { apply Forall_fmap. eapply Forall_impl; [exact Hrow|].
    intros x Hx. simpl. by apply square_bounds. }
  { by rewrite length_fmap. }
  rewrite Hsq, Hs. split.
  - unfold Run.np_sqrt. by destruct (Rle_dec 0 _).
  - intros Hex. apply Exists_exists in Hex as (x & Hin & Hne).
    assert (Hx : moderate x) by (rewrite Forall_forall in Hrow; auto).
    destruct (square_bounds x Hx) as [_ [Hz|Hlo]]; [nra|].
    assert (Hle : x * x <= Rsum ((fun x => x * x) <$> row)).
    { apply Rsum_bounds; [apply squares_nonneg|].
      apply list_elem_of_fmap. by exists x. }
    assert (He : 0 < / 2 ^ 500) by (apply Rinv_0_lt_compat, pow2_pos).
    assert (Hee : / 2 ^ 500 * / 2 ^ 500 = / 2 ^ 1000)
      by (rewrite <- Rinv_mult, <- pow_add; reflexivity).
    rewrite <- (sqrt_square (/ 2 ^ 500)) by lra.
    apply sqrt_le_1_alt. lra.
Qed.

(** A moderate number over a norm of at least 2^-500 does not overflow. *)
Lemma quotient_finite x n :
  moderate x -> / 2 ^ 500 <= n ->
  is_finite (Run.np_divide Run.range_division (Finite x) (Finite n)).
Proof.
  intros Hx Hn.
  assert (He : 0 < / 2 ^ 500) by (apply Rinv_0_lt_compat, pow2_pos).
  pose proof (pow2_pos 500) as HM.
  unfold Run.np_divide. destruct (Req_dec_T n 0) as [->|Hne]; [lra|].
  unfold Run.range_division. apply float64_finite.
  assert (Hinv : / n <= 2 ^ 500).
  { rewrite <- (Rinv_inv (2 ^ 500)). apply Rinv_le_contravar; lra. }
  assert (Hin : 0 < / n) by (apply Rinv_0_lt_compat; lra).
  assert (Habs : Rabs x <= 2 ^ 500).
  { destruct Hx as [->|[_ Hx]]; [rewrite Rabs_R0; lra|exact Hx]. }
  pose proof (Rabs_pos x) as Hx0.
  unfold Rdiv. rewrite Rabs_mult, (Rabs_pos_eq (/ n)) by lra.
  assert (H1000 : 2 ^ 500 * 2 ^ 500 <= 2 ^ 1023).
  { rewrite <- pow_add. apply Rle_pow; [lra|lia]. }
  nra.
Qed.

End Normalization_range.

(** ** The rows that [SVD] returns *)

Section SVD_as_run.

#[local] Open Scope R_scope.

Context {input rng : Type}.
Context (RandomState : Z -> rng).
Context (randomized_svd : input -> nat -> rng -> list (list R) * list R * rng).
Context (n_features : input -> nat).

Lemma run_SVD_unfold (X : input) (d : nat) (global : rng) :
  (d <= n_features X)%nat ->
  Run.SVD RandomState randomized_svd n_features X d global
  = Ok (Run.divide_rows (randomized_svd X d (RandomState 1)).1.1
          (Run.norm <$> (randomized_svd X d (RandomState 1)).1.1),
        (randomized_svd X d (RandomState 1)).1.2, global).
Proof.
  intros Hd. unfold Run.SVD, fit_transform. cbn [n_components random_state].
  destruct (Nat.ltb_spec (n_features X) d) as [Hlt|_]; [lia|].
  by destruct (randomized_svd X d (RandomState 1)) as [[Wv ev] g'].
Qed.

Lemma run_divide_rows_lookup (Wv : list (list R)) (r : nat) :
  Run.divide_rows Wv (Run.norm <$> Wv) !! r
  = (fun row =>
       (fun x => Run.np_divide Run.range_division (Finite x) (Run.norm row))
         <$> row) <$> Wv !! r.
Proof.
  unfold Run.divide_rows. rewrite zip_with_fmap_r, zip_with_diag.
  apply list_lookup_fmap.
Qed.

Lemma norm_of_zeros (row : list R) : Forall (eq 0) row -> norm row = 0.
Proof.
  intros Hz. unfold norm.
  replace (Rsum ((fun x => x * x) <$> row)) with 0; [apply sqrt_0|].
  induction Hz as [|x row <- _ IH]; [reflexivity|].
  rewrite fmap_cons. unfold Rsum in *. cbn [foldr]. rewrite <- IH. lra.
Qed.

(** X13.  NaN comes from rows of zeros and from nowhere else, as long as
    the squares stay in the range of [float64].  Let [d] be at most the
    number of columns of [X], so that [SVD] returns, and take a row of
    the factorization with at most 2^20 entries, each of them zero or of
    magnitude between 2^-500 and 2^500.  The row that [SVD] returns for
    it has its length; if the row is all zero, every entry returned is
    NaN; if it has a non-zero entry, every entry returned is finite; so a
    NaN is returned exactly when the row is not empty and all zero. *)
Theorem SVD_nan_iff (X : input) (d : nat) (global : rng)
  (r : nat) (row : list R) :
  (d <= n_features X)%nat ->
  (randomized_svd X d (RandomState 1)).1.1 !! r = Some row ->
  Forall moderate row -> (Z.of_nat (length row) <= 2 ^ 20)%Z ->
  exists Wv ev out,
    Run.SVD RandomState randomized_svd n_features X d global
    = Ok (Wv, ev, global)
    /\ Wv !! r = Some out
    /\ length out = length row
    /\ (Forall (eq 0) row -> Forall is_nan out)
    /\ (Exists (fun x => x <> 0) row -> Forall is_finite out)
    /\ (Exists is_nan out <-> row <> [] /\ Forall (eq 0) row).
Proof.
  intros Hd Hrow Hmod Hlen. rewrite run_SVD_unfold by exact Hd.
  do 3 eexists. split; [reflexivity|].
  rewrite run_divide_rows_lookup, Hrow. simpl.
  split; [reflexivity|]. split; [by rewrite length_fmap|].
  assert (Hlen' : INR (length row) <= 2 ^ 20).
  { rewrite INR_IZR_INZ. apply IZR_le in Hlen.
    change (2 ^ 20)%Z with (2 ^ Z.of_nat 20)%Z in Hlen.
    by rewrite <- pow_IZR in Hlen. }
  destruct (norm_kept row Hmod Hlen') as [Hn Hlow]. rewrite Hn.
  assert (Hzero : Forall (eq 0) row ->
            Forall is_nan
              ((fun x => Run.np_divide Run.range_division (Finite x)
                           (Finite (norm row))) <$> row)).
  { intros Hz. rewrite (norm_of_zeros row Hz).
    apply Forall_fmap. eapply Forall_impl; [exact Hz|].
    intros x <-. simpl. by destruct (Req_dec_T 0 0). }
  assert (Hfin : Exists (fun x => x <> 0) row ->
            Forall is_finite
              ((fun x => Run.np_divide Run.range_division (Finite x)
                           (Finite (norm row))) <$> row)).
  { intros Hex. specialize (Hlow Hex).
    apply Forall_fmap. eapply Forall_impl; [exact Hmod|].
    intros x Hx. by apply quotient_finite. }
  split; [exact Hzero|]. split; [exact Hfin|].
  assert (Hdec : Forall (eq 0) row \/ Exists (fun x => x <> 0) row).
  { clear. induction row as [|x row [IH|IH]].
    - left. constructor.
    - destruct (Req_dec_T x 0) as [->|Hne].
      + left. by constructor.
      + right. by left.
    - right. by right. }
  destruct Hdec as [Hz|Hex'].
  - split.
    + intros Hnan. split; [|exact Hz]. intros ->. by inversion Hnan.
    + intros [Hne _]. specialize (Hzero Hz).
      destruct row as [|x row]; [done|].
      rewrite fmap_cons in *. left. by apply Forall_inv in Hzero.
  - 
    specialize (Hfin Hex'). split.
    + intros Hnan. apply Exists_exists in Hnan as (v & Hv & Hnan).
      rewrite Forall_forall in Hfin. specialize (Hfin v Hv).
      by destruct v.
    + intros [_ Hz]. apply Exists_exists in Hex' as (x & Hin & Hne).
      rewrite Forall_forall in Hz. by destruct Hne; rewrite <- (Hz x Hin).
Qed.

End SVD_as_run.

Section SVD_as_run_examples.

#[local] Open Scope R_scope.

Lemma moderate_three_four : Forall moderate [3; 4].
Proof.
  assert (H22 : 2 ^ 2 = 4) by (simpl; lra).
  assert (H1 : 2 ^ 2 <= 2 ^ 500) by (apply Rle_pow; [lra|lia]).
  rewrite H22 in H1.
  assert (H0 : 1 <= 2 ^ 500) by (apply pow_R1_Rle; lra).
  assert (H2 : / 2 ^ 500 <= / 1) by (apply Rinv_le_contravar; lra).
  rewrite Rinv_1 in H2.
  constructor; [right; rewrite Rabs_pos_eq by lra; lra|].
  constructor; [right; rewrite Rabs_pos_eq by lra; lra|]. constructor.
Qed.

Lemma SVD_nan_iff_witness :
  (2 <= row_length [[3%R; 4%R]])%nat
  /\ (identity_columns [[3; 4]] 2 tt).1.1 !! 0%nat = Some [3; 4]
  /\ Forall moderate [3; 4]
  /\ (Z.of_nat (length [3; 4]) <= 2 ^ 20)%Z
  /\ exists Wv ev out,
       Run.SVD (fun _ => tt) identity_columns row_length [[3; 4]] 2 tt
       = Ok (Wv, ev, tt)
       /\ Wv !! 0%nat = Some out
       /\ length out = length [3; 4]
       /\ (Forall (eq 0) [3; 4] -> Forall is_nan out)
       /\ (Exists (fun x => x <> 0) [3; 4] -> Forall is_finite out)
       /\ (Exists is_nan out <-> [3; 4] <> [] /\ Forall (eq 0) [3; 4]).
Proof.
  assert (Hd : (2 <= row_length [[3%R; 4%R]])%nat)
    by (unfold row_length; simpl; lia).
  split; [exact Hd|]. split; [reflexivity|].
  split; [exact moderate_three_four|]. split; [simpl; lia|].
  apply (SVD_nan_iff (fun _ => tt) identity_columns row_length
           [[3; 4]] 2 tt 0 [3; 4]);
    [exact Hd | reflexivity | exact moderate_three_four | simpl; lia].
Defined.

Lemma float64_underflow (y : R) :
  Rabs y <= / 2 ^ 1075 -> Run.float64 y = Finite 0.
Proof.
  intros Hy. pose proof underflow_threshold. pose proof overflow_threshold.
  assert (1 <= 2 ^ 970) by (apply pow_R1_Rle; lra).
  unfold Run.float64.
  destruct (Rle_dec (2 ^ 1024 - 2 ^ 970) (Rabs y)); [lra|].
  destruct (Rle_dec (Rabs y) (/ 2 ^ 1075)); [reflexivity|lra].
Qed.

Lemma divide_rows_single (x : R) :
  Run.divide_rows [[x]] (Run.norm <$> [[x]])
  = [[Run.np_divide Run.range_division (Finite x)
        (Run.np_sqrt (Run.np_add (Run.np_multiply x x) (Finite 0)))]].
Proof. reflexivity. Qed.

(** A row whose square underflows is divided by zero. *)
Lemma tiny_row (e : R) :
  0 < e -> e * e <= / 2 ^ 1075 ->
  Run.divide_rows [[e]] (Run.norm <$> [[e]]) = [[PosInf]].
Proof.
  intros He Hsq. rewrite divide_rows_single.
  unfold Run.np_multiply.
  rewrite (float64_underflow (e * e)) by (rewrite Rabs_pos_eq; nra).
  unfold Run.np_add.
  rewrite (float64_underflow (0 + 0))
    by (rewrite Rplus_0_r, Rabs_R0; left; apply Rinv_0_lt_compat, pow2_pos).
  unfold Run.np_sqrt. destruct (Rle_dec 0 0) as [_|Hn]; [|lra].
  rewrite sqrt_0. unfold Run.np_divide.
  destruct (Req_dec_T 0 0) as [_|Hn]; [|lra].
  destruct (Req_dec_T e 0) as [Hn|_]; [lra|].
  by destruct (Rlt_dec 0 e).
Qed.

(** A row whose square overflows is divided by infinity. *)
Lemma big_row (M : R) :
  2 ^ 1024 <= M * M ->
  Run.divide_rows [[M]] (Run.norm <$> [[M]]) = [[Finite 0]].
Proof.
  intros Hsq. rewrite divide_rows_single.
  unfold Run.np_multiply. by rewrite float64_overflow.
Qed.

(** X23.  Outside that range the division is not protected either: the
    square of 2^-600 underflows to zero, the norm is zero and the entry
    is returned as +inf; the square of 2^600 overflows, the norm is
    infinite and the entry is returned as 0. *)
Theorem normalization_out_of_range :
  (exists ev,
     Run.SVD (fun _ => tt) identity_columns row_length [[/ 2 ^ 600]] 1 tt
     = Ok ([[PosInf]], ev, tt))
  /\ (exists ev,
       Run.SVD (fun _ => tt) identity_columns row_length [[2 ^ 600]] 1 tt
       = Ok ([[Finite 0]], ev, tt)).
Proof.
  split; eexists; rewrite run_SVD_unfold by (unfold row_length; simpl; lia);
    unfold identity_columns; cbn [fst snd].
  - rewrite tiny_row; [reflexivity|apply Rinv_0_lt_compat, pow2_pos|].
    rewrite <- Rinv_mult, <- pow_add. left. apply Rinv_lt_contravar.
    + apply Rmult_lt_0_compat; apply pow2_pos.
    + apply Rlt_pow; [lra|lia].
  - rewrite big_row; [reflexivity|].
    rewrite <- pow_add. apply Rle_pow; [lra|lia].
Qed.

End SVD_as_run_examples.
